(** * Loom: a shallow embedding of the resolver, cache and version core

    The development follows the C++ sources of the repository:
    - [src/util/version.cpp]      versions, partial versions, constraints
    - [include/loom/graph.hpp]    directed graph and Kahn's topological sort
    - [src/util/git.cpp]          ls-remote tag parsing and tag selection
    - [src/util/cache.cpp]        tree checksum of a checkout
    - [src/util/build_cache.cpp]  ParseResult (de)serialization, effective hash
    - [src/util/resolver.cpp]     lockfile reuse and workspace resolution

    C++ [int] values are integers of [Z]; [std::string] is [string], compared
    byte-wise as [std::string::operator<] does; [std::vector] is [list];
    [std::unordered_map] is a [gmap]; [Result<T>] is a sum of a payload and a
    [LoomError]. *)

From Stdlib Require Import ZArith List String Ascii Bool Lia Permutation.
From Stdlib Require Import Sorting.Sorted Strings.Byte DecimalString DecimalPos.
From stdpp Require Import base gmap strings list sorting.

Local Open Scope string_scope.
Local Open Scope Z_scope.

(* ===================================================================== *)
(** * Errors and results ([error.hpp], [result.hpp]) *)
(* ===================================================================== *)

Module LoomError.

Inductive Code : Type :=
  | IO | Parse | Version | Dependency | Config | Manifest
  | Checksum | Network | NotFound | Duplicate | Cycle | InvalidArg.

Record t : Type := mk {
  code : Code;
  message : string;
  hint : string;
  file : string;
  line : Z
}.

End LoomError.

(** [LoomError{code, msg}] and [LoomError{code, msg, hint}]. *)
Definition error2 (c : LoomError.Code) (msg : string) : LoomError.t :=
  LoomError.mk c msg EmptyString EmptyString 0.
Definition error3 (c : LoomError.Code) (msg h : string) : LoomError.t :=
  LoomError.mk c msg h EmptyString 0.

Inductive Result (T : Type) : Type :=
  | Ok (v : T)
  | Err (e : LoomError.t).
Arguments Ok {T} v.
Arguments Err {T} e.

Definition is_ok {T} (r : Result T) : bool :=
  match r with Ok _ => true | Err _ => false end.
Definition is_err {T} (r : Result T) : bool := negb (is_ok r).

(** The error code of a result, when it is an error. *)
Definition err_code {T} (r : Result T) : option LoomError.Code :=
  match r with Ok _ => None | Err e => Some (LoomError.code e) end.

(* ===================================================================== *)
(** * [std::string] helpers *)
(* ===================================================================== *)

Module Str.

Definition empty (s : string) : bool :=
  match s with EmptyString => true | String _ _ => false end.

(** [s.substr(pos)] for [pos <= s.size()]. *)
Fixpoint drop (pos : nat) (s : string) : string :=
  match pos, s with
  | O, _ => s
  | S p, String _ r => drop p r
  | S _, EmptyString => EmptyString
  end.

(** [s.substr(pos, n)] for [pos <= s.size()]. *)
Definition substr (s : string) (pos n : nat) : string := substring pos n s.

(** Position of the first [c] in [s], counted from the head of [s]. *)
Fixpoint find_from_head (c : ascii) (s : string) : option nat :=
  match s with
  | EmptyString => None
  | String d r =>
      if Ascii.eqb d c then Some O
      else match find_from_head c r with
           | Some k => Some (S k)
           | None => None
           end
  end.

(** [s.find(c, pos)]: [None] is [std::string::npos]. *)
Definition find (s : string) (c : ascii) (pos : nat) : option nat :=
  match find_from_head c (drop pos s) with
  | Some k => Some (pos + k)%nat
  | None => None
  end.

(** [std::string::operator<] and [operator==]: byte-wise lexicographic. *)
Definition lt (a b : string) : bool := String.ltb a b.
Definition eq (a b : string) : bool := String.eqb a b.

(** C [isspace] in the "C" locale. *)
Definition isspace (c : ascii) : bool :=
  let n := N_of_ascii c in
  (N.eqb n 32 || (N.leb 9 n && N.leb n 13))%bool.

Definition digit_value (c : ascii) : option Z :=
  let n := Z.of_N (N_of_ascii c) in
  if (48 <=? n) && (n <=? 57) then Some (n - 48) else None.

Fixpoint skip_space (s : string) : string :=
  match s with
  | String c r => if isspace c then skip_space r else s
  | EmptyString => s
  end.

(** Value of the longest prefix of decimal digits; [None] without a digit. *)
Fixpoint digits (s : string) (acc : option Z) : option Z :=
  match s with
  | String c r =>
      match digit_value c with
      | Some d =>
          digits r (Some (10 * match acc with Some a => a | None => 0 end + d))
      | None => acc
      end
  | EmptyString => acc
  end.

Definition INT_MIN : Z := -2147483648.
Definition INT_MAX : Z := 2147483647.

(** [std::stoi(s)]: leading white space, an optional sign, then decimal
    digits; whatever follows the digits is ignored.  [None] stands for the
    two exceptions ([invalid_argument] without a digit, [out_of_range]
    outside [int]), which every caller catches with [catch (...)]. *)
Definition stoi (s : string) : option Z :=
  let s1 := skip_space s in
  let '(neg, s2) :=
    match s1 with
    | String "-" r => (true, r)
    | String "+" r => (false, r)
    | _ => (false, s1)
    end in
  match digits s2 None with
  | None => None
  | Some n =>
      let v := if neg then - n else n in
      if (INT_MIN <=? v) && (v <=? INT_MAX) then Some v else None
  end.

(** [s.substr(0, p.size()) == p]. *)
Definition starts_with (p s : string) : bool :=
  String.eqb (substr s 0 (String.length p)) p.

Lemma compare_refl (a : string) : String.compare a a = Eq.
Proof.
  induction a as [|x a IH]; simpl; [reflexivity|].
  assert (Hxx : Ascii.compare x x = Eq) by (unfold Ascii.compare; apply N.compare_refl).
  now rewrite Hxx.
Qed.

Lemma ltb_irrefl (a : string) : String.ltb a a = false.
Proof. unfold String.ltb. now rewrite compare_refl. Qed.

Lemma ascii_compare_trans (a b c : ascii) :
  Ascii.compare a b = Lt -> Ascii.compare b c = Lt -> Ascii.compare a c = Lt.
Proof.
  unfold Ascii.compare. rewrite !N.compare_lt_iff. lia.
Qed.

Lemma compare_trans (a b c : string) :
  String.compare a b = Lt -> String.compare b c = Lt -> String.compare a c = Lt.
Proof.
  revert b c. induction a as [|x a IH]; intros [|y b] [|z c]; simpl; try congruence.
  destruct (Ascii.compare x y) eqn:Hxy; try congruence;
  destruct (Ascii.compare y z) eqn:Hyz; try congruence; intros H1 H2.
  - apply Ascii.compare_eq_iff in Hxy, Hyz. subst.
    assert (Hzz : Ascii.compare z z = Eq) by (unfold Ascii.compare; apply N.compare_refl).
    rewrite Hzz. eauto.
  - apply Ascii.compare_eq_iff in Hxy. subst. now rewrite Hyz.
  - apply Ascii.compare_eq_iff in Hyz. subst. now rewrite Hxy.
  - now rewrite (ascii_compare_trans _ _ _ Hxy Hyz).
Qed.

Lemma ltb_trans (a b c : string) :
  String.ltb a b = true -> String.ltb b c = true -> String.ltb a c = true.
Proof.
  unfold String.ltb. intros H1 H2.
  destruct (String.compare a b) eqn:Hab; try discriminate.
  destruct (String.compare b c) eqn:Hbc; try discriminate.
  now rewrite (compare_trans _ _ _ Hab Hbc).
Qed.

Lemma ltb_asym (a b : string) :
  String.ltb a b = true -> String.ltb b a = false.
Proof.
  unfold String.ltb. rewrite (String.compare_antisym a b).
  destruct (String.compare b a); simpl; congruence.
Qed.

Lemma ltb_total (a b : string) :
  String.ltb a b = false -> String.ltb b a = false -> a = b.
Proof.
  unfold String.ltb. rewrite (String.compare_antisym a b).
  destruct (String.compare b a) eqn:H; simpl; try congruence.
  intros _ _. symmetry. now apply String.compare_eq_iff.
Qed.

End Str.

(** [std::to_string(int)]. *)
Definition to_string_int (z : Z) : string :=
  DecimalString.NilZero.string_of_int (Z.to_int z).

(* ===================================================================== *)
(** * Versions ([version.hpp], [version.cpp]) *)
(* ===================================================================== *)

Module Version.

Record t : Type := mk {
  major : Z;
  minor : Z;
  micro : Z;
  label : string   (* empty for a release *)
}.

(** The final check of [Version::parse] on the assembled value. *)
Definition finish (s : string) (v : t) : Result t :=
  if (major v <? 0) || (minor v <? 0) || (micro v <? 0)
  then Err (error2 LoomError.Version ("negative version component in '" ++ s ++ "'"))
  else Ok v.

Definition format_error (s : string) : LoomError.t :=
  error3 LoomError.Version ("invalid version '" ++ s ++ "'")
         "expected format: major.minor.micro[-label]".

(** [Version::parse]. *)
Definition parse (s : string) : Result t :=
  if Str.empty s then Err (error2 LoomError.Version "empty version string") else
  let pos := 0%nat in
  match Str.find s "." pos with
  | None => Err (format_error s)
  | Some dot1 =>
    match Str.stoi (Str.substr s pos (dot1 - pos)) with
    | None => Err (error2 LoomError.Version ("invalid major version in '" ++ s ++ "'"))
    | Some vmajor =>
      let pos := (dot1 + 1)%nat in
      match Str.find s "." pos with
      | None => Err (format_error s)
      | Some dot2 =>
        match Str.stoi (Str.substr s pos (dot2 - pos)) with
        | None => Err (error2 LoomError.Version ("invalid minor version in '" ++ s ++ "'"))
        | Some vminor =>
          let pos := (dot2 + 1)%nat in
          match Str.find s "-" pos with
          | Some dash =>
            match Str.stoi (Str.substr s pos (dash - pos)) with
            | None => Err (error2 LoomError.Version ("invalid micro version in '" ++ s ++ "'"))
            | Some vmicro =>
              let vlabel := Str.drop (dash + 1) s in
              if Str.empty vlabel
              then Err (error2 LoomError.Version ("empty label after '-' in '" ++ s ++ "'"))
              else finish s (mk vmajor vminor vmicro vlabel)
            end
          | None =>
            match Str.stoi (Str.drop pos s) with
            | None => Err (error2 LoomError.Version ("invalid micro version in '" ++ s ++ "'"))
            | Some vmicro => finish s (mk vmajor vminor vmicro EmptyString)
            end
          end
        end
      end
    end
  end.

Definition to_string (v : t) : string :=
  let s := to_string_int (major v) ++ "." ++ to_string_int (minor v) ++ "."
           ++ to_string_int (micro v) in
  if negb (Str.empty (label v)) then s ++ "-" ++ label v else s.

(** [operator==]. *)
Definition eqb (a b : t) : bool :=
  (major a =? major b) && (minor a =? minor b) && (micro a =? micro b)
  && Str.eq (label a) (label b).

(** [operator<]. *)
Definition ltb (a o : t) : bool :=
  if negb (major a =? major o) then major a <? major o
  else if negb (minor a =? minor o) then minor a <? minor o
  else if negb (micro a =? micro o) then micro a <? micro o
  else if Str.empty (label a) && negb (Str.empty (label o)) then false
  else if negb (Str.empty (label a)) && Str.empty (label o) then true
  else Str.lt (label a) (label o).

(** [operator<=], [operator>], [operator>=]. *)
Definition leb (a o : t) : bool := negb (ltb o a).
Definition gtb (a o : t) : bool := ltb o a.
Definition geb (a o : t) : bool := negb (ltb a o).

End Version.

Module PartialVersion.

Record t : Type := mk {
  major : Z;
  minor : Z;   (* -1 means unset *)
  micro : Z    (* -1 means unset *)
}.

(** [PartialVersion::parse]; fields keep their defaults (0, -1, -1) until
    they are assigned. *)
Definition parse (s : string) : Result t :=
  if Str.empty s then Err (error2 LoomError.Version "empty partial version string") else
  match Str.find s "." 0 with
  | None =>
    match Str.stoi s with
    | None => Err (error2 LoomError.Version ("invalid partial version '" ++ s ++ "'"))
    | Some vmajor => Ok (mk vmajor (-1) (-1))
    end
  | Some dot1 =>
    match Str.stoi (Str.substr s 0 dot1) with
    | None => Err (error2 LoomError.Version ("invalid major in partial version '" ++ s ++ "'"))
    | Some vmajor =>
      match Str.find s "." (dot1 + 1) with
      | None =>
        match Str.stoi (Str.drop (dot1 + 1) s) with
        | None => Err (error2 LoomError.Version ("invalid minor in partial version '" ++ s ++ "'"))
        | Some vminor => Ok (mk vmajor vminor (-1))
        end
      | Some dot2 =>
        match Str.stoi (Str.substr s (dot1 + 1) (dot2 - dot1 - 1)) with
        | None => Err (error2 LoomError.Version ("invalid partial version '" ++ s ++ "'"))
        | Some vminor =>
          match Str.stoi (Str.drop (dot2 + 1) s) with
          | None => Err (error2 LoomError.Version ("invalid partial version '" ++ s ++ "'"))
          | Some vmicro => Ok (mk vmajor vminor vmicro)
          end
        end
      end
    end
  end.

Definition to_string (p : t) : string :=
  let s := to_string_int (major p) in
  if minor p >=? 0 then
    let s := s ++ "." ++ to_string_int (minor p) in
    if micro p >=? 0 then s ++ "." ++ to_string_int (micro p) else s
  else s.

End PartialVersion.

Inductive ConstraintOp : Type :=
  | Exact | Caret | Tilde | GreaterEq | Greater | LessEq | Less.

Module VersionConstraint.

Record t : Type := mk { op : ConstraintOp; version : PartialVersion.t }.

Definition req_major (c : t) : Z := PartialVersion.major (version c).
Definition req_minor (c : t) : Z :=
  if PartialVersion.minor (version c) >=? 0 then PartialVersion.minor (version c) else 0.
Definition req_micro (c : t) : Z :=
  if PartialVersion.micro (version c) >=? 0 then PartialVersion.micro (version c) else 0.

(** The partial version expanded to a full one ([req] in [matches]). *)
Definition req (c : t) : Version.t :=
  Version.mk (req_major c) (req_minor c) (req_micro c) EmptyString.

(** [VersionConstraint::matches]. *)
Definition matches (c : t) (v : Version.t) : bool :=
  match op c with
  | Exact =>
      (Version.major v =? req_major c) && (Version.minor v =? req_minor c)
      && (Version.micro v =? req_micro c) && Str.empty (Version.label v)
  | Caret =>
      if negb (Str.empty (Version.label v)) then false
      else if Version.ltb v (req c) then false
      else if req_major c >? 0 then Version.major v =? req_major c
      else if req_minor c >? 0
           then (Version.major v =? 0) && (Version.minor v =? req_minor c)
      else (Version.major v =? 0) && (Version.minor v =? 0)
           && (Version.micro v =? req_micro c)
  | Tilde =>
      if negb (Str.empty (Version.label v)) then false
      else if Version.ltb v (req c) then false
      else (Version.major v =? req_major c) && (Version.minor v =? req_minor c)
  | GreaterEq =>
      if negb (Str.empty (Version.label v)) then false else Version.geb v (req c)
  | Greater =>
      if negb (Str.empty (Version.label v)) then false else Version.gtb v (req c)
  | LessEq =>
      if negb (Str.empty (Version.label v)) then false else Version.leb v (req c)
  | Less =>
      if negb (Str.empty (Version.label v)) then false else Version.ltb v (req c)
  end.

Definition to_string (c : t) : string :=
  let prefix :=
    match op c with
    | Exact => "=" | Caret => "^" | Tilde => "~" | GreaterEq => ">="
    | Greater => ">" | LessEq => "<=" | Less => "<"
    end in
  prefix ++ PartialVersion.to_string (version c).

(** The boundary operators and the comparison each one performs. *)
Definition is_boundary (o : ConstraintOp) : bool :=
  match o with
  | GreaterEq | Greater | LessEq | Less => true
  | Exact | Caret | Tilde => false
  end.

Definition ordinary_comparison (o : ConstraintOp) (v r : Version.t) : bool :=
  match o with
  | GreaterEq => Version.geb v r
  | Greater => Version.gtb v r
  | LessEq => Version.leb v r
  | Less => Version.ltb v r
  | Exact | Caret | Tilde => false
  end.

End VersionConstraint.

Module VersionReq.

Record t : Type := mk { constraints : list VersionConstraint.t }.

(** [VersionReq::matches]: [std::all_of] over the constraints. *)
Definition matches (r : t) (v : Version.t) : bool :=
  forallb (fun c => VersionConstraint.matches c v) (constraints r).

Fixpoint to_string_from (first : bool) (cs : list VersionConstraint.t) : string :=
  match cs with
  | nil => EmptyString
  | c :: cs' =>
      (if first then EmptyString else ", ") ++ VersionConstraint.to_string c
      ++ to_string_from false cs'
  end.

Definition to_string (r : t) : string := to_string_from true (constraints r).

End VersionReq.

(* --------------------------------------------------------------------- *)
(** ** The order on versions *)
(* --------------------------------------------------------------------- *)

Module VersionOrder.

(** Lexicographic order on triples of integers, as the specification
    words it. *)
Definition triple (v : Version.t) : Z * Z * Z :=
  (Version.major v, Version.minor v, Version.micro v).

Definition lex3_ltb (x y : Z * Z * Z) : bool :=
  let '(x1, x2, x3) := x in
  let '(y1, y2, y3) := y in
  (x1 <? y1) || ((x1 =? y1) && ((x2 <? y2) || ((x2 =? y2) && (x3 <? y3)))).

(** Exactly one of three booleans is true. *)
Definition exactly_one (p q r : bool) : bool :=
  (p && negb q && negb r) || (negb p && q && negb r) || (negb p && negb q && r).

Ltac zcases :=
  repeat match goal with
  | |- context [Z.eqb ?x ?y] => destruct (Z.eqb_spec x y); simpl
  | |- context [Z.ltb ?x ?y] => destruct (Z.ltb_spec x y); simpl
  | H : context [Z.eqb ?x ?y] |- _ => destruct (Z.eqb_spec x y); simpl in H
  | H : context [Z.ltb ?x ?y] |- _ => destruct (Z.ltb_spec x y); simpl in H
  end.

Lemma eqb_eq (a b : Version.t) : Version.eqb a b = true <-> a = b.
Proof.
  destruct a as [a1 a2 a3 la], b as [b1 b2 b3 lb].
  unfold Version.eqb, Str.eq; simpl. split.
  - intros H. repeat (apply andb_prop in H; destruct H as [H ?]).
    apply Z.eqb_eq in H. repeat match goal with
      | E : (_ =? _) = true |- _ => apply Z.eqb_eq in E
      | E : String.eqb _ _ = true |- _ => apply String.eqb_eq in E
      end. congruence.
  - intros E. injection E as -> -> -> ->.
    now rewrite !Z.eqb_refl, String.eqb_refl.
Qed.

Lemma vltb_irrefl (a : Version.t) : Version.ltb a a = false.
Proof.
  unfold Version.ltb. rewrite !Z.eqb_refl. simpl.
  destruct (Str.empty (Version.label a)); simpl; apply Str.ltb_irrefl.
Qed.

Lemma vltb_trans (a b c : Version.t) :
  Version.ltb a b = true -> Version.ltb b c = true -> Version.ltb a c = true.
Proof.
  destruct a as [a1 a2 a3 la], b as [b1 b2 b3 lb], c as [c1 c2 c3 lc].
  unfold Version.ltb, Str.lt; simpl. intros H1 H2.
  zcases; try lia; try discriminate; try reflexivity; subst.
  destruct la, lb, lc; simpl in *; try discriminate; try reflexivity.
  eapply Str.ltb_trans; eauto.
Qed.

Lemma vltb_asym (a b : Version.t) :
  Version.ltb a b = true -> Version.ltb b a = false.
Proof.
  intros H. destruct (Version.ltb b a) eqn:E; [|reflexivity].
  pose proof (vltb_trans _ _ _ H E) as HH. now rewrite vltb_irrefl in HH.
Qed.

Lemma vltb_connected (a b : Version.t) :
  Version.ltb a b = false -> Version.ltb b a = false -> a = b.
Proof.
  destruct a as [a1 a2 a3 la], b as [b1 b2 b3 lb].
  unfold Version.ltb, Str.lt; simpl. intros H1 H2.
  zcases; try lia; try discriminate. subst.
  destruct la, lb; simpl in *; try discriminate; try reflexivity.
  f_equal. now apply Str.ltb_total.
Qed.

Lemma trichotomy (a b : Version.t) :
  exactly_one (Version.ltb a b) (Version.eqb a b) (Version.ltb b a) = true.
Proof.
  destruct (Version.ltb a b) eqn:Hab.
  - rewrite (vltb_asym _ _ Hab).
    destruct (Version.eqb a b) eqn:He; [|reflexivity].
    apply eqb_eq in He. subst. now rewrite vltb_irrefl in Hab.
  - destruct (Version.ltb b a) eqn:Hba.
    + destruct (Version.eqb a b) eqn:He; [|reflexivity].
      apply eqb_eq in He. subst. now rewrite vltb_irrefl in Hba.
    + rewrite (proj2 (eqb_eq a b) (vltb_connected _ _ Hab Hba)). reflexivity.
Qed.

Lemma vltb_lex (a b : Version.t) :
  triple a <> triple b -> Version.ltb a b = lex3_ltb (triple a) (triple b).
Proof.
  destruct a as [a1 a2 a3 la], b as [b1 b2 b3 lb].
  unfold Version.ltb, triple, lex3_ltb; simpl. intros Hne.
  zcases; try lia; try reflexivity. subst. congruence.
Qed.

Lemma vltb_prerelease_release (a b : Version.t) :
  triple a = triple b ->
  Version.label a <> EmptyString -> Version.label b = EmptyString ->
  Version.ltb a b = true.
Proof.
  destruct a as [a1 a2 a3 la], b as [b1 b2 b3 lb].
  unfold Version.ltb, triple; simpl. intros E Ha ->. injection E as -> -> ->.
  rewrite !Z.eqb_refl. simpl. destruct la; [congruence|reflexivity].
Qed.

Lemma vltb_labels (a b : Version.t) :
  triple a = triple b ->
  Version.label a <> EmptyString -> Version.label b <> EmptyString ->
  Version.ltb a b = String.ltb (Version.label a) (Version.label b).
Proof.
  destruct a as [a1 a2 a3 la], b as [b1 b2 b3 lb].
  unfold Version.ltb, triple; simpl. intros E Ha Hb. injection E as -> -> ->.
  rewrite !Z.eqb_refl. simpl. destruct la, lb; try congruence. reflexivity.
Qed.

(** C7. The comparison operators of [Version] form a total order:
    for all [a], [b] exactly one of [a < b], [a == b], [b < a] holds
    (and [==] is equality of the four fields), [<] is transitive, it is
    the lexicographic order on (major, minor, micro) when the triples
    differ, a version with a label is strictly below the same triple
    without one, and two labelled versions of the same triple compare as
    their labels do under the byte-wise string order. *)
Theorem version_total_order :
  (forall a b : Version.t,
      exactly_one (Version.ltb a b) (Version.eqb a b) (Version.ltb b a) = true
      /\ (Version.eqb a b = true <-> a = b))
  /\ (forall a b c : Version.t,
      Version.ltb a b = true -> Version.ltb b c = true -> Version.ltb a c = true)
  /\ (forall a b : Version.t,
      triple a <> triple b -> Version.ltb a b = lex3_ltb (triple a) (triple b))
  /\ (forall a b : Version.t,
      triple a = triple b ->
      Version.label a <> EmptyString -> Version.label b = EmptyString ->
      Version.ltb a b = true /\ Version.ltb b a = false)
  /\ (forall a b : Version.t,
      triple a = triple b ->
      Version.label a <> EmptyString -> Version.label b <> EmptyString ->
      Version.ltb a b = Str.lt (Version.label a) (Version.label b)).
Proof.
  split; [|split; [|split; [|split]]].
  - intros a b. split; [apply trichotomy | apply eqb_eq].
  - exact vltb_trans.
  - exact vltb_lex.
  - intros a b E Ha Hb. pose proof (vltb_prerelease_release a b E Ha Hb) as H.
    split; [exact H | now apply vltb_asym].
  - exact vltb_labels.
Qed.

End VersionOrder.

(* --------------------------------------------------------------------- *)
(** ** Constraints and prerelease versions *)
(* --------------------------------------------------------------------- *)

Module ConstraintPrerelease.

Definition v_1_5_0_alpha : Version.t := Version.mk 1 5 0 "alpha".
Definition ge_1_0_0 : VersionConstraint.t :=
  VersionConstraint.mk GreaterEq (PartialVersion.mk 1 0 0).

(** C2, as stated, fails: [>=1.0.0] does not match [1.5.0-alpha], although
    the ordinary comparison [1.5.0-alpha >= 1.0.0] holds. *)
Lemma boundary_rejects_prerelease :
  VersionConstraint.matches ge_1_0_0 v_1_5_0_alpha = false
  /\ VersionConstraint.ordinary_comparison GreaterEq v_1_5_0_alpha
       (VersionConstraint.req ge_1_0_0) = true.
Proof. split; reflexivity. Qed.

(** C2, amended.  Every constraint, boundary operators included, rejects
    a version that carries a prerelease label; on a release the boundary
    operators are decided by the ordinary comparison against the
    requirement with its unset components read as 0. *)
Theorem matches_release_only (c : VersionConstraint.t) (v : Version.t) :
  (Str.empty (Version.label v) = false -> VersionConstraint.matches c v = false)
  /\ (VersionConstraint.is_boundary (VersionConstraint.op c) = true ->
      VersionConstraint.matches c v =
        Str.empty (Version.label v)
        && VersionConstraint.ordinary_comparison (VersionConstraint.op c) v
             (VersionConstraint.req c)).
Proof.
  unfold VersionConstraint.matches. split.
  - intros ->. destruct (VersionConstraint.op c); simpl; try reflexivity.
    apply andb_false_r.
  - destruct (VersionConstraint.op c); simpl; try discriminate; intros _;
      destruct (Str.empty (Version.label v)); reflexivity.
Qed.

Lemma matches_release_only_witness :
  VersionConstraint.matches ge_1_0_0 v_1_5_0_alpha = false
  /\ VersionConstraint.matches ge_1_0_0 (Version.mk 2 5 0 EmptyString) = true.
Proof.
  split.
  - apply (proj1 (matches_release_only ge_1_0_0 v_1_5_0_alpha)). reflexivity.
  - rewrite (proj2 (matches_release_only ge_1_0_0 (Version.mk 2 5 0 EmptyString)));
      reflexivity.
Defined.

End ConstraintPrerelease.

(* --------------------------------------------------------------------- *)
(** ** Strictness of the parsers *)
(* --------------------------------------------------------------------- *)

Module ParseStrictness.

(** C6. Inputs outside the grammar that the parsers accept:
    [PartialVersion::parse] has no check for negative components (the one
    [Version::parse] makes), and [std::stoi] ignores what follows the digits
    of a component. *)
Theorem parse_accepts_malformed :
  PartialVersion.parse "-1" = Ok (PartialVersion.mk (-1) (-1) (-1))
  /\ PartialVersion.parse "1.-2" = Ok (PartialVersion.mk 1 (-2) (-1))
  /\ PartialVersion.parse "1.2.3-" = Ok (PartialVersion.mk 1 2 3)
  /\ PartialVersion.parse "1.2.3abc" = Ok (PartialVersion.mk 1 2 3)
  /\ Version.parse "1.2.3abc" = Ok (Version.mk 1 2 3 EmptyString)
  /\ is_err (Version.parse "1.-2.3") = true
  /\ is_err (Version.parse "1.2.3-") = true
  /\ is_err (Version.parse EmptyString) = true
  /\ is_err (PartialVersion.parse EmptyString) = true.
Proof. repeat split; vm_compute; reflexivity. Qed.

End ParseStrictness.

(* ===================================================================== *)
(** * Directed graphs and Kahn's topological sort ([graph.hpp]) *)
(* ===================================================================== *)

Module Graph.

Local Open Scope list_scope.
Local Open Scope nat_scope.

Section Model.
Context {NodeData EdgeData : Type}.

(** [NodeId] is [size_t], an index into the node vector. *)
Record Edge : Type := mkEdge { from : nat; to : nat; data : EdgeData }.

Record t : Type := mk {
  nodes_ : list NodeData;
  adj_ : list (list Edge);
  radj_ : list (list nat)
}.

Definition empty : t := mk [] [] [].

Definition node_count (g : t) : nat := length (nodes_ g).

Definition add_node (g : t) (d : NodeData) : t * nat :=
  (mk (nodes_ g ++ [d]) (adj_ g ++ [[]]) (radj_ g ++ [[]]), length (nodes_ g)).

(** [adj_[from]] and [radj_[to]] are unchecked vector accesses: out of
    range they are undefined behaviour in C++; [alter] leaves the vector
    as it is there. *)
Definition add_edge (g : t) (f v : nat) (d : EdgeData) : t :=
  mk (nodes_ g)
     (alter (fun l => l ++ [mkEdge f v d]) f (adj_ g))
     (alter (fun l => l ++ [f]) v (radj_ g)).

Definition successors (g : t) (id : nat) : list Edge := default [] (adj_ g !! id).
Definition predecessors (g : t) (id : nat) : list nat := default [] (radj_ g !! id).
Definition in_degree (g : t) (id : nat) : nat := length (predecessors g id).
Definition out_degree (g : t) (id : nat) : nat := length (successors g id).

Definition has_edge (g : t) (f v : nat) : bool :=
  existsb (fun e => Nat.eqb (to e) v) (successors g f).

(** [--x] on a [size_t]: wraps around at zero. *)
Definition size_t_dec (d : N) : N :=
  if N.eqb d 0 then 18446744073709551615%N else N.pred d.

(** One iteration of the inner loop of [topological_sort]:
    [if (--in_deg[e.to] == 0) q.push(e.to)].  ([in_deg[e.to]] is an
    unchecked access; edges of a graph built through the interface end at
    existing nodes.) *)
Definition relax (st : list N * list nat) (e : Edge) : list N * list nat :=
  let '(in_deg, q) := st in
  let d := size_t_dec (default 0%N (in_deg !! to e)) in
  let in_deg' := <[to e := d]> in_deg in
  if N.eqb d 0 then (in_deg', q ++ [to e]) else (in_deg', q).

(** The [while (!q.empty())] loop; [None] when the fuel runs out. *)
Fixpoint kahn_loop (fuel : nat) (g : t) (q : list nat) (in_deg : list N)
    (order : list nat) : option (list nat) :=
  match fuel with
  | O => None
  | S fuel' =>
      match q with
      | [] => Some order
      | u :: q' =>
          let '(in_deg', q'') := fold_left relax (successors g u) (in_deg, q') in
          kahn_loop fuel' g q'' in_deg' (order ++ [u])
      end
  end.

Definition initial_in_deg (g : t) : list N :=
  map (fun i => N.of_nat (length (predecessors g i))) (seq 0 (node_count g)).

Definition initial_queue (g : t) (in_deg : list N) : list nat :=
  List.filter (fun i => N.eqb (default 0%N (in_deg !! i)) 0) (seq 0 (node_count g)).

(** [Graph::topological_sort]. *)
Definition topological_sort_fuel (fuel : nat) (g : t) : option (Result (list nat)) :=
  let n := node_count g in
  let in_deg := initial_in_deg g in
  let q := initial_queue g in_deg in
  match kahn_loop fuel g q in_deg [] with
  | None => None
  | Some order =>
      if negb (Nat.eqb (length order) n)
      then Some (Err (error2 LoomError.Cycle "graph contains a cycle"))
      else Some (Ok order)
  end.

(** Graphs are built through [add_node] and [add_edge] only (the three
    vectors are private); an edge between nodes that do not exist is
    undefined behaviour and builds nothing here. *)
Inductive op : Type :=
  | AddNode (d : NodeData)
  | AddEdge (f v : nat) (d : EdgeData).

Definition apply_op (g : t) (o : op) : option t :=
  match o with
  | AddNode d => Some (fst (add_node g d))
  | AddEdge f v d =>
      if Nat.ltb f (node_count g) && Nat.ltb v (node_count g)
      then Some (add_edge g f v d) else None
  end.

Fixpoint build_from (g : t) (ops : list op) : option t :=
  match ops with
  | [] => Some g
  | o :: ops' =>
      match apply_op g o with
      | Some g' => build_from g' ops'
      | None => None
      end
  end.

Definition build (ops : list op) : option t := build_from empty ops.

(** A walk of at least one edge, and graphs that contain a cycle. *)
Inductive path (g : t) : nat -> nat -> Prop :=
  | path_edge u v : has_edge g u v = true -> path g u v
  | path_step u v w : has_edge g u v = true -> path g v w -> path g u w.

Definition cyclic (g : t) : Prop := exists v, path g v v.

(** [u] stands before [v] in [order]. *)
Definition before (order : list nat) (u v : nat) : Prop :=
  exists i j, (i < j)%nat /\ order !! i = Some u /\ order !! j = Some v.

End Model.

Arguments Edge : clear implicits.
Arguments t : clear implicits.
Arguments op : clear implicits.

End Graph.

(* --------------------------------------------------------------------- *)
(** ** Correctness of [topological_sort] *)
(* --------------------------------------------------------------------- *)

Module Kahn.

Import Graph.
Local Open Scope list_scope.
Local Open Scope nat_scope.

(** Number of occurrences of [v] in [l]. *)
Fixpoint occ (v : nat) (l : list nat) : nat :=
  match l with
  | [] => 0
  | x :: l' => (if decide (x = v) then 1 else 0) + occ v l'
  end.

Lemma occ_app v l1 l2 : occ v (l1 ++ l2) = occ v l1 + occ v l2.
Proof. induction l1 as [|x l1 IH]; simpl; [reflexivity|]. rewrite IH. lia. Qed.

Lemma occ_pos v l : 0 < occ v l <-> v ∈ l.
Proof.
  induction l as [|x l IH]; simpl.
  - split; [lia|]. intros H. inversion H.
  - rewrite elem_of_cons. destruct (decide (x = v)) as [->|Hne].
    + split; [auto | lia].
    + split.
      * intros H. right. apply IH. lia.
      * intros [E|H]; [congruence|]. apply IH in H. lia.
Qed.

Lemma occ_zero v l : occ v l = 0 <-> v ∉ l.
Proof. rewrite <- occ_pos. lia. Qed.

(** Changing a summand at one point of a duplicate-free index list. *)
Lemma sum_list_with_update (F G : nat -> nat) (L : list nat) (f k : nat) :
  NoDup L -> f ∈ L ->
  (forall w, w ∈ L -> w <> f -> G w = F w) -> G f = F f + k ->
  sum_list_with G L = sum_list_with F L + k.
Proof.
  induction L as [|x L IH]; intros Hnd Hin Hoth Hf.
  - inversion Hin.
  - apply NoDup_cons in Hnd as [Hx Hnd]. simpl.
    destruct (decide (x = f)) as [->|Hne].
    + rewrite Hf.
      assert (E : sum_list_with G L = sum_list_with F L).
      { clear IH Hin. induction L as [|y L IHL]; simpl; [reflexivity|].
        apply not_elem_of_cons in Hx as [Hy Hx]. apply NoDup_cons in Hnd as [_ Hnd].
        rewrite IHL; auto.
        - rewrite Hoth; [reflexivity| |congruence]. right. left.
        - intros w Hw Hwf. apply Hoth; [|exact Hwf].
          apply elem_of_cons in Hw as [->|Hw]; [left|right; now right]. }
      rewrite E. lia.
    + rewrite (Hoth x); [|left|exact Hne].
      rewrite IH; auto; [lia| |].
      * apply elem_of_cons in Hin as [->|Hin]; [congruence|exact Hin].
      * intros w Hw Hwf. apply Hoth; [now right|exact Hwf].
Qed.

Lemma sum_list_with_ext_in (F G : nat -> nat) (L : list nat) :
  (forall w, w ∈ L -> G w = F w) -> sum_list_with G L = sum_list_with F L.
Proof.
  induction L as [|x L IH]; intros H; simpl; [reflexivity|].
  rewrite H, IH; [reflexivity| |left].
  intros w Hw. apply H. now right.
Qed.

Lemma sum_list_with_zero (F : nat -> nat) (L : list nat) :
  sum_list_with F L = 0 <-> forall w, w ∈ L -> F w = 0.
Proof.
  induction L as [|x L IH]; simpl.
  - split; [intros _ w Hw; inversion Hw | reflexivity].
  - split.
    + intros H w Hw. apply elem_of_cons in Hw as [->|Hw]; [lia|].
      apply IH; [lia|exact Hw].
    + intros H. rewrite (H x), (proj2 IH); [reflexivity| |left].
      intros w Hw. apply H. now right.
Qed.

(** A list with a repeated element splits around the two occurrences. *)
Lemma not_NoDup_split (l : list nat) :
  ~ NoDup l -> exists l1 x l2 l3, l = l1 ++ x :: l2 ++ x :: l3.
Proof.
  induction l as [|a l IH]; intros H.
  - destruct H. constructor.
  - destruct (decide (a ∈ l)) as [Hin|Hnin].
    + apply list_elem_of_split in Hin as (l2 & l3 & ->).
      exists [], a, l2, l3. reflexivity.
    + destruct IH as (l1 & x & l2 & l3 & ->).
      { intros Hnd. apply H. constructor; assumption. }
      exists (a :: l1), x, l2, l3. reflexivity.
Qed.

Lemma seq_elem (n x : nat) : x ∈ seq 0 n <-> x < n.
Proof. rewrite list_elem_of_In, in_seq. lia. Qed.

Lemma NoDup_bounded_length (l : list nat) (n : nat) :
  NoDup l -> (forall x, x ∈ l -> x < n) -> length l <= n.
Proof.
  intros Hnd Hb.
  assert (H : length l <= length (seq 0 n)).
  { apply submseteq_length, NoDup_submseteq; [exact Hnd|].
    intros x Hx. apply seq_elem. auto. }
  now rewrite length_seq in H.
Qed.

Section Correct.
Context {NodeData EdgeData : Type}.
Implicit Type g : Graph.t NodeData EdgeData.

(** Heads of the edges that leave [u]. *)
Definition targets g (u : nat) : list nat := map to (successors g u).

(** Number of edges into [v] that leave a node outside [order]. *)
Definition indeg_from g (order : list nat) (v : nat) : nat :=
  sum_list_with (fun w => if decide (w ∈ order) then 0 else occ v (targets g w))
                (seq 0 (node_count g)).

(** What [add_node] and [add_edge] maintain: the three vectors have one
    entry per node, edges end at nodes, and [radj_[v]] has one entry per
    edge into [v]. *)
Record wf g : Prop := {
  wf_adj : length (adj_ g) = node_count g;
  wf_radj : length (radj_ g) = node_count g;
  wf_to : forall u v, v ∈ targets g u -> v < node_count g;
  wf_in : forall v, v < node_count g -> in_degree g v = indeg_from g [] v
}.

Lemma has_edge_targets g u v : has_edge g u v = true <-> v ∈ targets g u.
Proof.
  unfold has_edge, targets. rewrite existsb_exists, list_elem_of_fmap. split.
  - intros (e & He & Hv). apply Nat.eqb_eq in Hv. exists e.
    split; [congruence | now apply list_elem_of_In].
  - intros (e & -> & He). exists e. split; [now apply list_elem_of_In | apply Nat.eqb_refl].
Qed.

Lemma targets_source g u v : wf g -> v ∈ targets g u -> u < node_count g.
Proof.
  intros Hwf Hv. unfold targets, successors in Hv.
  destruct (adj_ g !! u) as [l|] eqn:E; [|inversion Hv].
  apply lookup_lt_Some in E. rewrite (wf_adj g Hwf) in E. exact E.
Qed.

(** The loop invariant: [order] is what has been output, [q] the queue,
    [pend] the heads of the edges of the node being expanded that the inner
    loop has still to visit. *)
Record Inv g (order q : list nat) (deg : list N) (pend : list nat) : Prop := {
  inv_nodup : NoDup (order ++ q);
  inv_bound : forall x, x ∈ order ++ q -> x < node_count g;
  inv_deg : forall v, v < node_count g ->
      deg !! v = Some (N.of_nat (indeg_from g order v + occ v pend));
  inv_zero : forall v, v < node_count g ->
      (indeg_from g order v + occ v pend = 0 <-> v ∈ order ++ q);
  inv_topo : forall i v w, order !! i = Some v -> v ∈ targets g w ->
      exists j, j < i /\ order !! j = Some w;
  inv_pend : forall v, v ∈ pend -> v < node_count g
}.

Lemma size_t_dec_succ (k : nat) : size_t_dec (N.of_nat (S k)) = N.of_nat k.
Proof.
  unfold size_t_dec. destruct (N.eqb_spec (N.of_nat (S k)) 0) as [E|_]; lia.
Qed.

Lemma relax_inv g order q deg pend (e : Edge EdgeData) :
  Inv g order q deg (to e :: pend) ->
  exists deg' q', relax (deg, q) e = (deg', q') /\ Inv g order q' deg' pend.
Proof.
  intros [Hnd Hb Hdeg Hzero Htopo Hpend].
  set (v := to e) in *.
  assert (Hv : v < node_count g) by (apply Hpend; left).
  assert (Hlen : v < length deg).
  { apply lookup_lt_is_Some. rewrite (Hdeg v Hv). eauto. }
  assert (Hocc : occ v (v :: pend) = S (occ v pend)).
  { simpl. destruct (decide (v = v)); [reflexivity|congruence]. }
  assert (Hvnot : v ∉ order ++ q).
  { intros Hin. apply (Hzero v Hv) in Hin. lia. }
  unfold relax. fold v. rewrite (Hdeg v Hv), Hocc. simpl.
  replace (indeg_from g order v + S (occ v pend))
    with (S (indeg_from g order v + occ v pend)) by lia.
  rewrite size_t_dec_succ.
  set (k := indeg_from g order v + occ v pend).
  assert (Hdeg' : forall x, x < node_count g ->
            <[v := N.of_nat k]> deg !! x = Some (N.of_nat (indeg_from g order x + occ x pend))).
  { intros x Hx. destruct (decide (v = x)) as [<-|Hne].
    - rewrite list_lookup_insert_eq; [reflexivity|exact Hlen].
    - rewrite list_lookup_insert_ne; [|exact Hne]. rewrite (Hdeg x Hx). simpl.
      destruct (decide (v = x)); [congruence|reflexivity]. }
  assert (Hoth : forall x, x <> v -> occ x pend = occ x (v :: pend)).
  { intros x Hx. simpl. destruct (decide (v = x)); [congruence|reflexivity]. }
  destruct (N.eqb_spec (N.of_nat k) 0) as [Hk|Hk].
  - exists (<[v := N.of_nat k]> deg), (q ++ [v]). split; [reflexivity|].
    assert (Hk0 : k = 0) by lia.
    split; auto.
    + rewrite app_assoc. apply NoDup_app. split; [exact Hnd|]. split.
      * intros x Hx Hx'. apply list_elem_of_singleton in Hx'. subst x. auto.
      * apply NoDup_singleton.
    + intros x Hx. rewrite app_assoc in Hx. apply elem_of_app in Hx as [Hx|Hx]; [auto|].
      apply list_elem_of_singleton in Hx. now subst x.
    + intros x Hx. rewrite app_assoc, elem_of_app, list_elem_of_singleton.
      destruct (decide (x = v)) as [->|Hne].
      * fold k. split; [auto | intros _; exact Hk0].
      * rewrite (Hoth x Hne), (Hzero x Hx). split; [auto|]. intros [H|H]; [exact H|congruence].
    + intros x Hx. apply Hpend. now right.
  - exists (<[v := N.of_nat k]> deg), q. split; [reflexivity|].
    split; auto.
    + intros x Hx. destruct (decide (x = v)) as [->|Hne].
      * fold k. split; [lia | intros H; contradiction].
      * rewrite (Hoth x Hne). apply Hzero, Hx.
    + intros x Hx. apply Hpend. now right.
Qed.

Lemma fold_relax_inv g order (es : list (Edge EdgeData)) : forall q deg,
  Inv g order q deg (map to es) ->
  exists deg' q', fold_left relax es (deg, q) = (deg', q') /\ Inv g order q' deg' [].
Proof.
  induction es as [|e es IH]; intros q deg HI; cbn [fold_left map] in *.
  - eauto.
  - destruct (relax_inv _ _ _ _ _ _ HI) as (deg1 & q1 & E & HI1).
    rewrite E. apply IH, HI1.
Qed.

Lemma pop_inv g order u q deg :
  wf g -> Inv g order (u :: q) deg [] -> Inv g (order ++ [u]) q deg (targets g u).
Proof.
  intros Hwf [Hnd Hb Hdeg Hzero Htopo Hpend].
  assert (Hu : u < node_count g) by (apply Hb, elem_of_app; right; left).
  assert (Hunot : u ∉ order).
  { apply NoDup_app in Hnd as (_ & H & _). intros Hin. apply (H u Hin). left. }
  assert (Hsum : forall v, indeg_from g order v
                 = indeg_from g (order ++ [u]) v + occ v (targets g u)).
  { intros v. unfold indeg_from.
    apply (sum_list_with_update _ _ _ u); [apply NoDup_seq | now apply seq_elem | |].
    - intros w _ Hw.
      destruct (decide (w ∈ order)) as [Hin|Hout],
               (decide (w ∈ order ++ [u])) as [Hin'|Hout']; try reflexivity; exfalso.
      + apply Hout', elem_of_app. now left.
      + apply elem_of_app in Hin' as [Hin'|Hin']; [contradiction|].
        apply list_elem_of_singleton in Hin'. contradiction.
    - destruct (decide (u ∈ order)) as [Hin|_]; [contradiction|].
      destruct (decide (u ∈ order ++ [u])) as [_|Hout']; [reflexivity|exfalso].
      apply Hout', elem_of_app. right. left. }
  assert (Hupred : forall w, u ∈ targets g w -> w ∈ order).
  { intros w Hw. destruct (decide (w ∈ order)) as [|Hn]; [assumption|exfalso].
    assert (H0 : indeg_from g order u + occ u [] = 0) by (apply Hzero; [exact Hu|apply elem_of_app; right; left]).
    assert (H1 : indeg_from g order u = 0) by lia.
    unfold indeg_from in H1. rewrite sum_list_with_zero in H1.
    specialize (H1 w). rewrite seq_elem in H1.
    specialize (H1 (targets_source g w u Hwf Hw)).
    destruct (decide (w ∈ order)); [contradiction|].
    apply occ_zero in H1. contradiction. }
  split.
  - now rewrite <- app_assoc.
  - intros x. rewrite <- app_assoc. apply Hb.
  - intros v Hv. rewrite (Hdeg v Hv). simpl. rewrite (Hsum v). do 2 f_equal. lia.
  - intros v Hv. rewrite <- app_assoc. simpl. rewrite <- (Hzero v Hv), (Hsum v). simpl. lia.
  - intros i v w Hi Hv.
    destruct (decide (i < length order)) as [Hlt|Hge].
    + rewrite lookup_app_l in Hi by exact Hlt.
      destruct (Htopo i v w Hi Hv) as (j & Hj & Hjw).
      exists j. split; [exact Hj|]. rewrite lookup_app_l; [exact Hjw|lia].
    + rewrite lookup_app_r in Hi by lia.
      destruct (i - length order) as [|k] eqn:Ek; simpl in Hi; [|now destruct k].
      injection Hi as <-.
      apply Hupred, list_elem_of_lookup in Hv as (j & Hj).
      exists j. pose proof (lookup_lt_Some _ _ _ Hj).
      split; [lia|]. rewrite lookup_app_l; [exact Hj|lia].
  - intros v Hv. eapply wf_to; eauto.
Qed.

Lemma kahn_loop_inv g (Hwf : wf g) : forall fuel order q deg,
  Inv g order q deg [] -> node_count g - length order < fuel ->
  exists order' deg', kahn_loop fuel g q deg order = Some order'
                      /\ Inv g order' [] deg' [].
Proof.
  induction fuel as [|fuel IH]; intros order q deg HI Hfuel; [lia|].
  destruct q as [|u q]; simpl.
  - eauto.
  - pose proof (pop_inv _ _ _ _ _ Hwf HI) as HI1.
    destruct (fold_relax_inv g (order ++ [u]) (successors g u) q deg HI1)
      as (deg1 & q1 & E & HI2).
    rewrite E. apply (IH _ _ _ HI2).
    pose proof (NoDup_bounded_length _ _ (inv_nodup _ _ _ _ _ HI) (inv_bound _ _ _ _ _ HI)) as Hlen.
    rewrite !length_app in *. simpl in *. lia.
Qed.

Lemma kahn_loop_fuel_mono g : forall fuel fuel' q deg order r,
  kahn_loop fuel g q deg order = Some r -> fuel <= fuel' ->
  kahn_loop fuel' g q deg order = Some r.
Proof.
  induction fuel as [|fuel IH]; intros fuel' q deg order r H Hle; [discriminate|].
  destruct fuel' as [|fuel']; [lia|]. simpl in *.
  destruct q as [|u q]; [exact H|].
  destruct (fold_left relax (successors g u) (deg, q)) as [deg1 q1].
  apply (IH fuel'); [exact H|lia].
Qed.

Lemma initial_inv g :
  wf g -> Inv g [] (initial_queue g (initial_in_deg g)) (initial_in_deg g) [].
Proof.
  intros Hwf.
  assert (Hdeg : forall v, v < node_count g ->
            initial_in_deg g !! v = Some (N.of_nat (indeg_from g [] v + occ v []))).
  { intros v Hv. unfold initial_in_deg.
    change (map ?f ?l) with (f <$> l). rewrite list_lookup_fmap, lookup_seq_lt by exact Hv.
    simpl. rewrite <- (wf_in g Hwf v Hv). unfold in_degree. do 2 f_equal. lia. }
  assert (Hq : forall v, v ∈ initial_queue g (initial_in_deg g)
                <-> v < node_count g /\ indeg_from g [] v = 0).
  { intros v. unfold initial_queue. rewrite list_elem_of_In, filter_In, in_seq. split.
    - intros [Hv H]. assert (Hv' : v < node_count g) by lia. split; [exact Hv'|].
      rewrite (Hdeg v Hv') in H. simpl in H. apply N.eqb_eq in H. lia.
    - intros [Hv H]. split; [lia|]. rewrite (Hdeg v Hv), H. reflexivity. }
  split; simpl.
  - unfold initial_queue.
    apply NoDup_ListNoDup, List.NoDup_filter, NoDup_ListNoDup, NoDup_seq.
  - intros x Hx. now apply Hq in Hx.
  - exact Hdeg.
  - intros v Hv. rewrite Hq. split; [intros H; split; [exact Hv|lia] | intros [_ H]; lia].
  - intros i v w Hi. discriminate.
  - intros v Hv. inversion Hv.
Qed.

(** *** What the final state says about the graph *)

Lemma sum_list_with_pos (F : nat -> nat) (L : list nat) :
  0 < sum_list_with F L -> exists w, w ∈ L /\ 0 < F w.
Proof.
  induction L as [|x L IH]; simpl; [lia|]. intros H.
  destruct (F x) eqn:E.
  - destruct (IH H) as (w & Hw & Hpos). exists w. split; [now right|exact Hpos].
  - exists x. split; [left|lia].
Qed.

(** Consecutive elements of a chain are joined by an edge into the
    earlier one. *)
Fixpoint chain g (l : list nat) : Prop :=
  match l with
  | a :: l' => match l' with
               | b :: _ => a ∈ targets g b /\ chain g l'
               | [] => True
               end
  | [] => True
  end.

Lemma chain_app_r g l1 l2 : chain g (l1 ++ l2) -> chain g l2.
Proof.
  induction l1 as [|a l1 IH]; simpl; [auto|].
  destruct (l1 ++ l2) eqn:E; [|intros [_ H]; auto].
  intros _. destruct l1; simpl in E; [subst; exact I|discriminate].
Qed.

Lemma chain_app_l g l1 l2 : chain g (l1 ++ l2) -> chain g l1.
Proof.
  induction l1 as [|a l1 IH]; [intros; exact I|].
  cbn [app chain]. destruct l1 as [|b l1]; [intros; exact I|].
  cbn [app]. intros [H1 H2]. split; [exact H1|]. apply IH. exact H2.
Qed.

Lemma path_snoc g u v w : path g u v -> has_edge g v w = true -> path g u w.
Proof.
  induction 1 as [u v H|u v x H Hp IH]; intros Hw.
  - eapply path_step; [exact H|]. now apply path_edge.
  - eapply path_step; [exact H|]. auto.
Qed.

Lemma chain_path g m : forall a b, chain g (a :: m ++ [b]) -> path g b a.
Proof.
  induction m as [|c m IH]; intros a b.
  - simpl. intros [H _]. apply path_edge, has_edge_targets, H.
  - cbn [app chain]. intros [H1 H2].
    eapply path_snoc; [apply IH, H2|]. now apply has_edge_targets.
Qed.

Lemma stuck_cyclic g order deg :
  wf g -> Inv g order [] deg [] -> length order <> node_count g -> cyclic g.
Proof.
  intros Hwf HI Hlen.
  set (S' := fun x => x < node_count g /\ x ∉ order).
  assert (Hpred : forall x, S' x -> exists w, S' w /\ x ∈ targets g w).
  { intros x [Hx Hn].
    assert (Hpos : 0 < indeg_from g order x).
    { pose proof (inv_zero _ _ _ _ _ HI x Hx) as Hz. rewrite app_nil_r in Hz. simpl in Hz.
      destruct (indeg_from g order x); [|lia]. exfalso. apply Hn, Hz. reflexivity. }
    apply sum_list_with_pos in Hpos as (w & Hw & Hpos).
    destruct (decide (w ∈ order)); [lia|].
    exists w. split; [split; [now apply seq_elem|assumption]|]. now apply occ_pos. }
  assert (Hchain : forall k x, S' x ->
            exists l, length l = k /\ chain g (x :: l) /\ Forall S' (x :: l)).
  { induction k as [|k IHk]; intros x Hx.
    - exists []. repeat split; auto.
    - destruct (Hpred x Hx) as (w & Hw & Hxw).
      destruct (IHk w Hw) as (l & Hl & Hc & Hall).
      exists (w :: l). split; [simpl; lia|]. split; [split; assumption|].
      constructor; assumption. }
  assert (Hex : exists x, S' x).
  { destruct (decide (Forall (fun x => x ∈ order) (seq 0 (node_count g)))) as [Hall|Hnall].
    - exfalso. apply Hlen.
      pose proof (NoDup_bounded_length _ _ (inv_nodup _ _ _ _ _ HI) (inv_bound _ _ _ _ _ HI)) as H1.
      rewrite app_nil_r in H1.
      assert (H2 : length (seq 0 (node_count g)) <= length order).
      { apply submseteq_length, NoDup_submseteq; [apply NoDup_seq|].
        intros x Hx. rewrite Forall_forall in Hall. apply Hall. exact Hx. }
      rewrite length_seq in H2. lia.
    - apply not_Forall_Exists in Hnall; [|intros x; apply _].
      apply Exists_exists in Hnall as (x & Hx & Hnx).
      exists x. split; [now apply seq_elem|exact Hnx]. }
  destruct Hex as (x & Hx).
  destruct (Hchain (node_count g) x Hx) as (l & Hl & Hc & Hall).
  assert (Hdup : ~ NoDup (x :: l)).
  { intros Hnd. apply NoDup_bounded_length with (n := node_count g) in Hnd.
    - simpl in Hnd. lia.
    - intros y Hy. rewrite Forall_forall in Hall. now apply Hall. }
  apply not_NoDup_split in Hdup as (l1 & y & l2 & l3 & E).
  rewrite E in Hc. apply chain_app_r in Hc.
  change (y :: l2 ++ y :: l3) with ((y :: l2) ++ y :: l3) in Hc.
  replace ((y :: l2) ++ y :: l3) with ((y :: l2 ++ [y]) ++ l3) in Hc
    by (simpl; now rewrite <- app_assoc).
  apply chain_app_l in Hc. exists y. eapply chain_path, Hc.
Qed.

Lemma path_before g order q deg u v :
  Inv g order q deg [] -> path g u v ->
  forall i, order !! i = Some v -> exists j, j < i /\ order !! j = Some u.
Proof.
  intros HI. induction 1 as [u v H|u v w H Hp IH]; intros i Hi.
  - apply has_edge_targets in H. eapply inv_topo; eauto.
  - destruct (IH i Hi) as (j & Hj & Hjv).
    apply has_edge_targets in H.
    destruct (inv_topo _ _ _ _ _ HI j v u Hjv H) as (k & Hk & Hku).
    exists k. split; [lia|exact Hku].
Qed.

Lemma path_target g u v : wf g -> path g u v -> v < node_count g.
Proof.
  intros Hwf. induction 1 as [u v H|u v w H Hp IH]; [|exact IH].
  apply has_edge_targets in H. eapply wf_to; eauto.
Qed.

Lemma complete_order g order deg :
  wf g -> Inv g order [] deg [] -> length order = node_count g ->
  order ≡ₚ seq 0 (node_count g)
  /\ (forall u v, has_edge g u v = true -> before order u v)
  /\ ~ cyclic g.
Proof.
  intros Hwf HI Hlen.
  pose proof (inv_nodup _ _ _ _ _ HI) as Hnd. rewrite app_nil_r in Hnd.
  assert (Hperm : order ≡ₚ seq 0 (node_count g)).
  { apply submseteq_length_Permutation.
    - apply NoDup_submseteq; [exact Hnd|]. intros x Hx. apply seq_elem.
      apply (inv_bound _ _ _ _ _ HI). rewrite app_nil_r. exact Hx.
    - rewrite length_seq. lia. }
  assert (Hin : forall v, v < node_count g -> exists i, order !! i = Some v).
  { intros v Hv. apply list_elem_of_lookup. rewrite Hperm. now apply seq_elem. }
  split; [exact Hperm|]. split.
  - intros u v H. pose proof H as H'. apply has_edge_targets in H'.
    destruct (Hin v (wf_to g Hwf u v H')) as (i & Hi).
    destruct (inv_topo _ _ _ _ _ HI i v u Hi H') as (j & Hj & Hju).
    exists j, i. auto.
  - intros (v & Hp).
    destruct (Hin v (path_target g v v Hwf Hp)) as (i & Hi).
    destruct (path_before g order [] deg v v HI Hp i Hi) as (j & Hj & Hjv).
    pose proof (NoDup_lookup _ _ _ _ Hnd Hi Hjv). lia.
Qed.

(** *** Graphs built through the interface are well formed *)

Lemma wf_empty : wf (@Graph.empty NodeData EdgeData).
Proof.
  split; try reflexivity.
  intros u v H. unfold targets, successors in H. simpl in H.
  destruct u; inversion H.
Qed.

Lemma targets_add_node g d u : wf g -> targets (fst (add_node g d)) u = targets g u.
Proof.
  intros Hwf. unfold targets, successors. simpl.
  destruct (decide (u < length (adj_ g))) as [Hlt|Hge].
  - now rewrite lookup_app_l.
  - rewrite lookup_app_r by lia. rewrite (lookup_ge_None_2 (adj_ g)) by lia.
    destruct (u - length (adj_ g)) as [|k]; simpl; [reflexivity|now destruct k].
Qed.

Lemma wf_add_node g d : wf g -> wf (fst (add_node g d)).
Proof.
  intros Hwf.
  assert (Hn : node_count (fst (add_node g d)) = S (node_count g)).
  { unfold node_count. simpl. rewrite length_app. simpl. lia. }
  split.
  - rewrite Hn. simpl. rewrite length_app, (wf_adj g Hwf). simpl. lia.
  - rewrite Hn. simpl. rewrite length_app, (wf_radj g Hwf). simpl. lia.
  - intros u v. rewrite targets_add_node by exact Hwf. rewrite Hn.
    intros H. pose proof (wf_to g Hwf u v H). lia.
  - intros v Hv. rewrite Hn in Hv. unfold indeg_from. rewrite Hn, seq_S.
    rewrite sum_list_with_app. cbn [sum_list_with Nat.add].
    destruct (decide (node_count g ∈ [])) as [Hbad|_]; [inversion Hbad|].
    rewrite (targets_add_node g d (node_count g) Hwf).
    assert (Hlast : targets g (node_count g) = []).
    { unfold targets, successors. rewrite lookup_ge_None_2; [reflexivity|].
      rewrite (wf_adj g Hwf). lia. }
    rewrite Hlast. cbn [occ].
    rewrite (sum_list_with_ext_in
               (fun w => if decide (w ∈ []) then 0 else occ v (targets g w)))
      by (intros w _; now rewrite targets_add_node).
    fold (indeg_from g [] v).
    unfold in_degree, predecessors. simpl.
    destruct (decide (v < node_count g)) as [Hlt|Hge].
    + rewrite lookup_app_l by (rewrite (wf_radj g Hwf); exact Hlt).
      pose proof (wf_in g Hwf v Hlt) as H. unfold in_degree, predecessors in H. lia.
    + assert (v = node_count g) by lia. subst v.
      rewrite lookup_app_r by (rewrite (wf_radj g Hwf); lia).
      rewrite (wf_radj g Hwf), Nat.sub_diag. simpl.
      symmetry. rewrite Nat.add_0_r. apply sum_list_with_zero.
      intros w _. destruct (decide (w ∈ [])); [reflexivity|].
      apply occ_zero. intros H. pose proof (wf_to g Hwf w _ H). lia.
Qed.

Lemma targets_add_edge g f v d u :
  f < node_count g ->
  wf g ->
  targets (add_edge g f v d) u = if decide (u = f) then targets g f ++ [v] else targets g u.
Proof.
  intros Hf Hwf. unfold targets, successors. simpl.
  destruct (decide (u = f)) as [->|Hne].
  - rewrite list_lookup_alter_eq.
    destruct (adj_ g !! f) as [l|] eqn:E; simpl.
    + now rewrite map_app.
    + apply lookup_ge_None_1 in E. rewrite (wf_adj g Hwf) in E. lia.
  - rewrite list_lookup_alter_ne by congruence. reflexivity.
Qed.

Lemma wf_add_edge g f v d :
  f < node_count g -> v < node_count g -> wf g -> wf (add_edge g f v d).
Proof.
  intros Hf Hv Hwf.
  assert (Hn : node_count (add_edge g f v d) = node_count g) by reflexivity.
  split.
  - rewrite Hn. simpl. rewrite length_alter. apply (wf_adj g Hwf).
  - rewrite Hn. simpl. rewrite length_alter. apply (wf_radj g Hwf).
  - intros u x. rewrite targets_add_edge, Hn by assumption.
    destruct (decide (u = f)) as [->|Hne].
    + rewrite elem_of_app, list_elem_of_singleton. intros [H| ->]; [|exact Hv].
      eapply wf_to; eauto.
    + apply (wf_to g Hwf).
  - intros x Hx. rewrite Hn in Hx.
    assert (Hsum : indeg_from (add_edge g f v d) [] x
                   = indeg_from g [] x + (if decide (v = x) then 1 else 0)).
    { unfold indeg_from. rewrite Hn.
      apply (sum_list_with_update _ _ _ f); [apply NoDup_seq|now apply seq_elem| |].
      - intros w _ Hw. destruct (decide (w ∈ [])); [reflexivity|].
        rewrite targets_add_edge by assumption.
        destruct (decide (w = f)); [congruence|reflexivity].
      - destruct (decide (f ∈ [])) as [H|_]; [inversion H|].
        rewrite targets_add_edge by assumption.
        destruct (decide (f = f)); [|congruence].
        rewrite occ_app. simpl. lia. }
    rewrite Hsum. unfold in_degree, predecessors. simpl.
    pose proof (wf_in g Hwf x Hx) as Hold. unfold in_degree, predecessors in Hold.
    destruct (decide (v = x)) as [->|Hne].
    + rewrite list_lookup_alter_eq.
      destruct (radj_ g !! x) as [l|] eqn:E; simpl in *.
      * rewrite length_app. simpl. lia.
      * apply lookup_ge_None_1 in E. rewrite (wf_radj g Hwf) in E. lia.
    + rewrite list_lookup_alter_ne by exact Hne. lia.
Qed.

Lemma build_from_wf (ops : list (Graph.op NodeData EdgeData)) : forall g g',
  wf g -> build_from g ops = Some g' -> wf g'.
Proof.
  induction ops as [|o ops IH]; intros g g' Hwf H; simpl in H.
  - now injection H as <-.
  - destruct o as [d|f v d]; simpl in H.
    + apply (IH _ _ (wf_add_node g d Hwf) H).
    + destruct (Nat.ltb_spec f (node_count g)); simpl in H; [|discriminate].
      destruct (Nat.ltb_spec v (node_count g)); simpl in H; [|discriminate].
      apply (IH _ _ (wf_add_edge g f v d ltac:(assumption) ltac:(assumption) Hwf) H).
Qed.

(** C3. For every graph built through [add_node] and [add_edge],
    [topological_sort] returns (with any fuel above the node count): the
    Cycle error if and only if the graph contains a cycle, and otherwise
    a permutation of all node ids in which the source of every edge stands
    before its target. *)
Theorem topological_sort_sound (ops : list (Graph.op NodeData EdgeData)) g :
  build ops = Some g ->
  exists r : Result (list nat),
    (forall fuel, node_count g < fuel -> topological_sort_fuel fuel g = Some r)
    /\ (err_code r = Some LoomError.Cycle <-> cyclic g)
    /\ (is_ok r = true <-> ~ cyclic g)
    /\ (forall order, r = Ok order ->
          order ≡ₚ seq 0 (node_count g)
          /\ forall u v, has_edge g u v = true -> before order u v).
Proof.
  intros Hb. pose proof (build_from_wf ops _ _ wf_empty Hb) as Hwf.
  destruct (kahn_loop_inv g Hwf (S (node_count g)) [] _ _ (initial_inv g Hwf))
    as (order & deg & Hloop & HI); [simpl; lia|].
  assert (Hrun : forall fuel, node_count g < fuel ->
            kahn_loop fuel g (initial_queue g (initial_in_deg g)) (initial_in_deg g) []
            = Some order).
  { intros fuel Hf. eapply kahn_loop_fuel_mono; [exact Hloop|lia]. }
  destruct (Nat.eqb_spec (length order) (node_count g)) as [Hlen|Hlen].
  - destruct (complete_order g order deg Hwf HI Hlen) as (Hperm & Hbefore & Hacyc).
    exists (Ok order). split; [|split; [|split]].
    + intros fuel Hf. unfold topological_sort_fuel. rewrite (Hrun fuel Hf).
      rewrite (proj2 (Nat.eqb_eq _ _) Hlen). reflexivity.
    + simpl. split; [discriminate|]. intros Hc. contradiction.
    + simpl. split; auto.
    + intros order' E. injection E as <-. auto.
  - pose proof (stuck_cyclic g order deg Hwf HI Hlen) as Hcyc.
    exists (Err (error2 LoomError.Cycle "graph contains a cycle")).
    split; [|split; [|split]].
    + intros fuel Hf. unfold topological_sort_fuel. rewrite (Hrun fuel Hf).
      rewrite (proj2 (Nat.eqb_neq _ _) Hlen). reflexivity.
    + simpl. split; auto.
    + simpl. split; [discriminate|]. intros Hn. contradiction.
    + intros order' E. discriminate.
Qed.

End Correct.

(** The diamond of end-to-end scenario 3, with a doubled edge. *)
Definition diamond_ops : list (Graph.op string unit) :=
  [AddNode "top"; AddNode "lib_a"; AddNode "lib_b"; AddNode "lib_c";
   AddEdge 0 1 tt; AddEdge 0 2 tt; AddEdge 1 3 tt; AddEdge 2 3 tt; AddEdge 2 3 tt].

Definition diamond : Graph.t string unit :=
  Eval vm_compute in
    match build diamond_ops with Some g => g | None => Graph.empty end.

Example diamond_sorted :
  topological_sort_fuel 5 diamond = Some (Ok [0; 1; 2; 3]).
Proof. reflexivity. Qed.

Definition two_cycle_ops : list (Graph.op string unit) :=
  [AddNode "a"; AddNode "b"; AddNode "c";
   AddEdge 0 1 tt; AddEdge 1 2 tt; AddEdge 2 1 tt].

Example two_cycle_rejected :
  (g ← build two_cycle_ops; topological_sort_fuel 4 g)
  = Some (Err (error2 LoomError.Cycle "graph contains a cycle")).
Proof. reflexivity. Qed.

Lemma topological_sort_sound_witness :
  exists r : Result (list nat),
    (forall fuel, node_count diamond < fuel -> topological_sort_fuel fuel diamond = Some r)
    /\ (err_code r = Some LoomError.Cycle <-> cyclic diamond)
    /\ (is_ok r = true <-> ~ cyclic diamond)
    /\ (forall order, r = Ok order ->
          order ≡ₚ seq 0 (node_count diamond)
          /\ forall u v, has_edge diamond u v = true -> before order u v).
Proof. exact (topological_sort_sound diamond_ops diamond eq_refl). Defined.

End Kahn.

(* ===================================================================== *)
(** * [std::sort] *)
(* ===================================================================== *)

(** [std::sort(first, last, comp)] leaves the range ordered by the strict
    order [comp]: no element is [comp]-below an earlier one.  Which of two
    equivalent elements comes first is unspecified in C++; the merge sort
    below is one admissible choice, and nothing proved about it depends on
    that choice. *)
Definition sorted_by {A} (comp : A -> A -> bool) : relation A :=
  fun a b => comp b a = false.

#[global] Instance sorted_by_dec {A} (comp : A -> A -> bool) (x y : A) :
  Decision (sorted_by comp x y).
Proof. unfold sorted_by. apply _. Defined.

Definition std_sort {A} (comp : A -> A -> bool) (l : list A) : list A :=
  merge_sort (sorted_by comp) l.

(** [std::sort] on strings with the default [operator<]. *)
Definition sort_strings (l : list string) : list string := std_sort Str.lt l.

Module StringOrder.

#[export] Instance le_total : Total (sorted_by Str.lt).
Proof.
  intros a b. unfold sorted_by, Str.lt.
  destruct (String.ltb b a) eqn:E; [right; now apply Str.ltb_asym | now left].
Qed.

#[export] Instance le_antisym : AntiSymm (=) (sorted_by Str.lt).
Proof. intros a b H1 H2. unfold sorted_by, Str.lt in *. now apply Str.ltb_total. Qed.

#[export] Instance le_trans : Transitive (sorted_by Str.lt).
Proof.
  intros a b c. unfold sorted_by, Str.lt. intros H1 H2.
  destruct (String.ltb c a) eqn:E; [|reflexivity]. exfalso.
  destruct (String.ltb b c) eqn:Ebc.
  - pose proof (Str.ltb_trans _ _ _ Ebc E). congruence.
  - assert (b = c) by (apply Str.ltb_total; assumption). subst. congruence.
Qed.

Lemma sort_strings_sorted (l : list string) :
  StronglySorted (sorted_by Str.lt) (sort_strings l).
Proof. apply StronglySorted_merge_sort; apply _. Qed.

Lemma sort_strings_perm (l : list string) : sort_strings l ≡ₚ l.
Proof. apply merge_sort_Permutation. Qed.

(** The sorted arrangement of a multiset of strings is unique. *)
Lemma sort_strings_unique (l l' : list string) :
  l ≡ₚ l' -> sort_strings l = sort_strings l'.
Proof.
  intros Hp. apply (StronglySorted_unique (sorted_by Str.lt));
    try apply sort_strings_sorted.
  now rewrite !sort_strings_perm.
Qed.

End StringOrder.

(* ===================================================================== *)
(** * SHA-256 as a byte-stream hasher ([sha256.hpp]) *)
(* ===================================================================== *)

(** The compression function is not unfolded here: a hasher is the message
    fed so far, and [digest_hex] stands for [bytes_to_hex] of the SHA-256
    digest of a whole message. *)
Module SHA256.

Record t : Type := mk { fed : string }.

Definition init : t := mk EmptyString.

(** [update(data, len)] and [update(const std::string&)]. *)
Definition update (h : t) (s : string) : t := mk (fed h ++ s)%string.

Section Digest.
Variable digest_hex : string -> string.

(** [bytes_to_hex(finalize())]. *)
Definition finalize_hex (h : t) : string := digest_hex (fed h).

(** [SHA256::hash_hex]. *)
Definition hash_hex (input : string) : string := finalize_hex (update init input).

End Digest.

End SHA256.

(* ===================================================================== *)
(** * Effective hash ([build_cache.cpp]) *)
(* ===================================================================== *)

Module BuildCacheHash.

Section Hash.
Variable digest_hex : string -> string.

(** [for (auto& h : sorted) combined += "|" + h;] *)
Definition append_all (combined : string) (l : list string) : string :=
  fold_left (fun acc h => acc ++ ("|" ++ h))%string l combined.

(** [BuildCache::compute_effective_hash]. *)
Definition compute_effective_hash (content_hash : string)
    (include_hashes defines include_dirs : list string) : string :=
  let sorted_includes := sort_strings include_hashes in
  let sorted_defines := sort_strings defines in
  let sorted_dirs := sort_strings include_dirs in
  let combined := content_hash in
  let combined := append_all combined sorted_includes in
  let combined := (combined ++ "||")%string in
  let combined := append_all combined sorted_defines in
  let combined := (combined ++ "||")%string in
  let combined := append_all combined sorted_dirs in
  SHA256.hash_hex digest_hex combined.

(** C9. The effective hash is the same under any permutation of the
    include-hash list, of the define list and of the include-dir list. *)
Theorem compute_effective_hash_permutation
    (content_hash : string) (includes includes' defines defines' dirs dirs' : list string) :
  includes ≡ₚ includes' -> defines ≡ₚ defines' -> dirs ≡ₚ dirs' ->
  compute_effective_hash content_hash includes defines dirs
  = compute_effective_hash content_hash includes' defines' dirs'.
Proof.
  intros Hi Hd Hr. unfold compute_effective_hash.
  now rewrite (StringOrder.sort_strings_unique _ _ Hi),
              (StringOrder.sort_strings_unique _ _ Hd),
              (StringOrder.sort_strings_unique _ _ Hr).
Qed.

End Hash.

Example effective_hash_message :
  compute_effective_hash (fun m => m) "c" ["h2"; "h1"] ["B"; "A=1"] ["inc"]
  = "c|h1|h2|||A=1|B|||inc".
Proof. reflexivity. Qed.

Lemma compute_effective_hash_permutation_witness :
  compute_effective_hash (fun m => m) "c" ["h2"; "h1"] ["B"; "A=1"] ["x"; "y"; "z"]
  = compute_effective_hash (fun m => m) "c" ["h1"; "h2"] ["A=1"; "B"] ["y"; "z"; "x"].
Proof.
  apply compute_effective_hash_permutation.
  - apply perm_swap.
  - apply perm_swap.
  - apply (Permutation_cons_append ["y"; "z"] "x").
Defined.

End BuildCacheHash.

(* ===================================================================== *)
(** * Tree checksum of a checkout ([cache.cpp]) *)
(* ===================================================================== *)

Module CacheManager.

Local Open Scope nat_scope.

(** What [fs::recursive_directory_iterator] yields for one entry: the
    full path, whether it is a regular file, and the bytes an [ifstream]
    reads from it ([None] when it cannot be opened). *)
Record DirEntry : Type := mkEntry {
  path : string;
  is_regular_file : bool;
  content : option string
}.

(** [rel.find("/.git/") != npos || rel.find("/.git") == 0]. *)
Definition skipped (rel : string) : bool :=
  match String.index 0 "/.git/" rel with Some _ => true | None => false end
  || match String.index 0 "/.git" rel with Some 0 => true | _ => false end.

(** The first loop: the paths of the regular files that are not skipped. *)
Definition collect (checkout_path : string) (entries : list DirEntry) : list string :=
  map path
    (List.filter
       (fun e => is_regular_file e
                 && negb (skipped (Str.drop (String.length checkout_path) (path e))))
       entries).

(** [std::ifstream in(fp, std::ios::binary)] *)
Definition open_file (entries : list DirEntry) (fp : string) : option string :=
  match List.find (fun e => String.eqb (path e) fp) entries with
  | Some e => content e
  | None => None
  end.

Definition BUF : nat := Z.to_nat 8192.

(** [while (in.read(buf, sizeof(buf))) update(buf, gcount);
     if (in.gcount() > 0) update(buf, gcount);]
    A read of [BUF] bytes succeeds when that many are left; the read that
    fails leaves in [gcount] the bytes it still got. *)
Fixpoint read_all (fuel : nat) (rest : string) (h : SHA256.t) : SHA256.t :=
  match fuel with
  | O => h
  | S fuel' =>
      if BUF <=? String.length rest
      then read_all fuel' (Str.drop BUF rest) (SHA256.update h (Str.substr rest 0 BUF))
      else if 0 <? String.length rest then SHA256.update h rest else h
  end.

Definition feed_file (bytes : string) (h : SHA256.t) : SHA256.t :=
  read_all (S (String.length bytes)) bytes h.

Section Checksum.
Variable digest_hex : string -> string.

(** The second loop, for one path. *)
Definition hash_one (checkout_path : string) (entries : list DirEntry)
    (h : SHA256.t) (fp : string) : SHA256.t :=
  let rel := Str.drop (String.length checkout_path) fp in
  let h := SHA256.update h rel in
  match open_file entries fp with
  | None => h
  | Some bytes => feed_file bytes h
  end.

(** [CacheManager::compute_checksum]; [dir] is [None] when the path does
    not exist or is no directory. *)
Definition compute_checksum (checkout_path : string) (dir : option (list DirEntry))
    : Result string :=
  match dir with
  | None =>
      Err (error2 LoomError.NotFound
             ("checkout path does not exist: " ++ checkout_path)%string)
  | Some entries =>
      let file_paths := sort_strings (collect checkout_path entries) in
      let hasher := fold_left (hash_one checkout_path entries) file_paths SHA256.init in
      Ok (SHA256.finalize_hex digest_hex hasher)
  end.

End Checksum.

Lemma append_cons (c : ascii) (a b : string) :
  (String c a ++ b)%string = String c (a ++ b)%string.
Proof. reflexivity. Qed.

Lemma substr_drop (n : nat) (s : string) :
  (Str.substr s 0 n ++ Str.drop n s)%string = s.
Proof.
  unfold Str.substr.
  revert s. induction n as [|n IH]; intros [|c s]; try reflexivity.
  cbn [substring Str.drop]. rewrite append_cons. f_equal. apply IH.
Qed.

Lemma length_drop (n : nat) (s : string) :
  String.length (Str.drop n s) = String.length s - n.
Proof. revert s. induction n as [|n IH]; intros [|c s]; simpl; auto. Qed.

Lemma append_assoc (a b c : string) : ((a ++ b) ++ c)%string = (a ++ (b ++ c))%string.
Proof. induction a as [|x a IH]; [reflexivity|]. rewrite !append_cons. now rewrite IH. Qed.

Lemma append_empty_r (a : string) : (a ++ EmptyString)%string = a.
Proof. induction a as [|x a IH]; [reflexivity|]. rewrite append_cons. now rewrite IH. Qed.

Lemma BUF_pos : 0 < BUF.
Proof. unfold BUF. lia. Qed.

(** The streamed read feeds the bytes of a file once, in order. *)
Lemma read_all_once : forall fuel rest h,
  String.length rest < fuel -> read_all fuel rest h = SHA256.update h rest.
Proof.
  induction fuel as [|fuel IH]; intros rest h Hf; [lia|].
  cbn [read_all]. pose proof BUF_pos as HB.
  destruct (Nat.leb_spec BUF (String.length rest)) as [Hle|Hlt].
  - rewrite IH by (rewrite length_drop; lia).
    unfold SHA256.update. simpl. now rewrite append_assoc, substr_drop.
  - destruct (Nat.ltb_spec 0 (String.length rest)) as [Hpos|Hz]; [reflexivity|].
    destruct rest; simpl in Hz; [|lia].
    unfold SHA256.update. now rewrite append_empty_r; destruct h.
Qed.

Lemma feed_file_once (bytes : string) (h : SHA256.t) :
  feed_file bytes h = SHA256.update h bytes.
Proof. apply read_all_once. lia. Qed.

(** The message the hasher has seen after the second loop: for each
    path in turn, the relative path and then the file's bytes. *)
Fixpoint tree_message (checkout_path : string) (entries : list DirEntry)
    (file_paths : list string) : string :=
  match file_paths with
  | [] => EmptyString
  | fp :: rest =>
      (Str.drop (String.length checkout_path) fp
       ++ (match open_file entries fp with Some bytes => bytes | None => EmptyString end
           ++ tree_message checkout_path entries rest))%string
  end.

Lemma update_update (h : SHA256.t) (a b : string) :
  SHA256.update (SHA256.update h a) b = SHA256.update h (a ++ b)%string.
Proof. unfold SHA256.update. simpl. now rewrite append_assoc. Qed.

Lemma fold_hash_one (checkout_path : string) (entries : list DirEntry)
    (file_paths : list string) : forall h,
  fold_left (hash_one checkout_path entries) file_paths h
  = SHA256.update h (tree_message checkout_path entries file_paths).
Proof.
  induction file_paths as [|fp l IH]; intros h; cbn [fold_left tree_message].
  - unfold SHA256.update. rewrite append_empty_r. now destruct h.
  - rewrite IH. unfold hash_one.
    destruct (open_file entries fp) as [bytes|].
    + now rewrite feed_file_once, !update_update.
    + now rewrite update_update.
Qed.

(** What [compute_checksum] hashes: the files that are not skipped, in
    sorted path order, each as its relative path followed by its bytes,
    fed once. *)
Lemma compute_checksum_message (digest_hex : string -> string)
    (checkout_path : string) (entries : list DirEntry) :
  compute_checksum digest_hex checkout_path (Some entries)
  = Ok (digest_hex
          (tree_message checkout_path entries
             (sort_strings (collect checkout_path entries)))).
Proof.
  unfold compute_checksum, SHA256.finalize_hex. now rewrite fold_hash_one.
Qed.

(** A checkout with a [.gitignore], a workflow under [.github], one
    source file and git metadata. *)
Definition checkout : list DirEntry :=
  [ mkEntry "/co/src" false None;
    mkEntry "/co/src/a.v" true (Some "module a; endmodule");
    mkEntry "/co/.gitignore" true (Some "build/");
    mkEntry "/co/.github" false None;
    mkEntry "/co/.github/ci.yml" true (Some "on: push");
    mkEntry "/co/.git" false None;
    mkEntry "/co/.git/HEAD" true (Some "ref: refs/heads/main") ].

(** C5. The top-level [.gitignore] (and [.github/ci.yml]) of this checkout
    does not reach the hasher: the test [rel.find("/.git") == 0] drops
    every top-level name that starts with [.git].  The digest is that of
    the one remaining file. *)
Theorem compute_checksum_drops_gitignore (digest_hex : string -> string) :
  skipped "/.gitignore" = true
  /\ skipped "/.github/ci.yml" = true
  /\ skipped "/src/.gitignore" = false
  /\ collect "/co" checkout = ["/co/src/a.v"]
  /\ compute_checksum digest_hex "/co" (Some checkout)
     = Ok (digest_hex "/src/a.vmodule a; endmodule").
Proof. repeat split; vm_compute; reflexivity. Qed.

End CacheManager.

(* ===================================================================== *)
(** * Tag parsing and tag selection ([git.hpp], [git.cpp]) *)
(* ===================================================================== *)

Module Git.

Local Open Scope nat_scope.

Record RemoteTag : Type := mkTag {
  name : string;            (* e.g. "v1.3.0" *)
  commit : string;          (* full SHA *)
  version : Version.t       (* parsed semver *)
}.

Record RawTag : Type := mkRaw {
  sha : string;
  raw_name : string;
  is_deref : bool           (* has ^{} *)
}.

Definition strip_v_prefix (tag : string) : string :=
  match tag with
  | String c r =>
      if Ascii.eqb c "v" || Ascii.eqb c "V" then r else tag
  | EmptyString => tag
  end.

Definition newline : ascii := ascii_of_nat 10.
Definition tab : ascii := ascii_of_nat 9.

(** The lines [std::getline] yields: [line] is the line being read and
    [started] tells whether a character was extracted for it (at the end
    of the input a line is returned only then). *)
Fixpoint getlines (s line : string) (started : bool) : list string :=
  match s with
  | EmptyString => if started then [line] else []
  | String c r =>
      if Ascii.eqb c newline then line :: getlines r EmptyString false
      else getlines r (line ++ String c EmptyString)%string true
  end.

Definition tags_prefix : string := "refs/tags/".
Definition deref_suffix : string := "^{}".

(** The body of the first loop for one line; [None] is [continue]. *)
Definition parse_line (line : string) : option RawTag :=
  if Str.empty line then None else
  match Str.find line tab 0 with
  | None => None
  | Some tab_pos =>
      let vsha := Str.substr line 0 tab_pos in
      let ref := Str.drop (tab_pos + 1) line in
      if negb (String.eqb (Str.substr ref 0 (String.length tags_prefix)) tags_prefix)
      then None
      else
        let tag_name := Str.drop (String.length tags_prefix) ref in
        if (String.length deref_suffix <? String.length tag_name)
           && String.eqb (Str.substr tag_name
                            (String.length tag_name - String.length deref_suffix)
                            (String.length deref_suffix))
                         deref_suffix
        then Some (mkRaw vsha
                     (Str.substr tag_name 0
                        (String.length tag_name - String.length deref_suffix))
                     true)
        else Some (mkRaw vsha tag_name false)
  end.

Definition raw_tags (ls_remote_output : string) : list RawTag :=
  omap parse_line (getlines ls_remote_output EmptyString false).

(** The second loop: the first line seen for a name sets its SHA, and any
    later deref line overrides it. *)
Definition record_tag (tag_sha : gmap string string) (rt : RawTag) : gmap string string :=
  match tag_sha !! raw_name rt with
  | None => <[raw_name rt := sha rt]> tag_sha
  | Some _ => if is_deref rt then <[raw_name rt := sha rt]> tag_sha else tag_sha
  end.

Definition collect_tag_sha (raw : list RawTag) : gmap string string :=
  fold_left record_tag raw ∅.

(** The third loop, for one map entry; [None] is [continue]. *)
Definition to_remote_tag (entry : string * string) : option RemoteTag :=
  let '(vname, vsha) := entry in
  match Version.parse (strip_v_prefix vname) with
  | Ok ver => Some (mkTag vname vsha ver)
  | Err _ => None
  end.

(** The comparator handed to [std::sort]: [a.version > b.version]. *)
Definition by_version_desc (a b : RemoteTag) : bool :=
  Version.gtb (version a) (version b).

(** [parse_ls_remote_tags].  The iteration order of the
    [std::unordered_map] is unspecified; [map_to_list] fixes one. *)
Definition parse_ls_remote_tags (ls_remote_output : string) : Result (list RemoteTag) :=
  let tag_sha := collect_tag_sha (raw_tags ls_remote_output) in
  let tags := omap to_remote_tag (map_to_list tag_sha) in
  Ok (std_sort by_version_desc tags).

(** [resolve_version_from_tags]. *)
Definition resolve_version_from_tags (tags : list RemoteTag) (req : VersionReq.t)
    : Result RemoteTag :=
  match List.find (fun t => VersionReq.matches req (version t)) tags with
  | Some t => Ok t
  | None =>
      Err (error2 LoomError.Version
             ("no tag matches version requirement '" ++ VersionReq.to_string req ++ "'")%string)
  end.

(** ** What the claim says about the SHA kept for a name *)

(** SHA of the last deref line for [n], and of the first line for [n]. *)
Fixpoint last_deref (n : string) (raw : list RawTag) : option string :=
  match raw with
  | [] => None
  | rt :: raw' =>
      match last_deref n raw' with
      | Some s => Some s
      | None => if String.eqb (raw_name rt) n && is_deref rt then Some (sha rt) else None
      end
  end.

Definition first_seen (n : string) (raw : list RawTag) : option string :=
  sha <$> List.find (fun rt => String.eqb (raw_name rt) n) raw.

Definition kept_sha (n : string) (raw : list RawTag) : option string :=
  match last_deref n raw with
  | Some s => Some s
  | None => first_seen n raw
  end.

Lemma fold_record_tag (n : string) (raw : list RawTag) : forall m : gmap string string,
  fold_left record_tag raw m !! n =
    match last_deref n raw with
    | Some s => Some s
    | None => match m !! n with
              | Some s => Some s
              | None => first_seen n raw
              end
    end.
Proof.
  induction raw as [|rt raw IH]; intros m; cbn [fold_left last_deref].
  - unfold first_seen. simpl. now destruct (m !! n).
  - rewrite IH. destruct (last_deref n raw) as [s|]; [reflexivity|].
    unfold record_tag, first_seen. cbn [List.find].
    destruct (String.eqb_spec (raw_name rt) n) as [->|Hne]; cbn [andb].
    + destruct (m !! n) as [s0|] eqn:Em.
      * destruct (is_deref rt).
        -- now rewrite lookup_insert_eq.
        -- now rewrite Em.
      * rewrite lookup_insert_eq. now destruct (is_deref rt).
    + assert (Hsame : match m !! raw_name rt with
                      | None => <[raw_name rt := sha rt]> m
                      | Some _ => if is_deref rt then <[raw_name rt := sha rt]> m else m
                      end !! n = m !! n).
      { destruct (m !! raw_name rt); [destruct (is_deref rt)|];
          try reflexivity; now rewrite lookup_insert_ne. }
      now rewrite Hsame.
Qed.

Lemma collect_tag_sha_kept (n : string) (raw : list RawTag) :
  collect_tag_sha raw !! n = kept_sha n raw.
Proof.
  unfold collect_tag_sha, kept_sha. rewrite fold_record_tag, lookup_empty. reflexivity.
Qed.

(** ** The order of the result *)

Definition desc : relation RemoteTag := sorted_by by_version_desc.

Lemma desc_unfold (a b : RemoteTag) :
  desc a b <-> Version.ltb (version a) (version b) = false.
Proof. reflexivity. Qed.

#[export] Instance desc_total : Total desc.
Proof.
  intros a b. unfold desc, sorted_by, by_version_desc, Version.gtb.
  destruct (Version.ltb (version a) (version b)) eqn:E; [right|now left].
  now apply VersionOrder.vltb_asym.
Qed.

#[export] Instance desc_trans : Transitive desc.
Proof.
  intros a b c. unfold desc, sorted_by, by_version_desc, Version.gtb. intros H1 H2.
  destruct (Version.ltb (version a) (version c)) eqn:E; [exfalso|reflexivity].
  destruct (Version.ltb (version c) (version b)) eqn:Ecb.
  - pose proof (VersionOrder.vltb_trans _ _ _ E Ecb). congruence.
  - assert (version b = version c) by (now apply VersionOrder.vltb_connected).
    congruence.
Qed.

Lemma first_match_highest (req : VersionReq.t) (tags : list RemoteTag) :
  StronglySorted desc tags ->
  match resolve_version_from_tags tags req with
  | Ok t =>
      t ∈ tags /\ VersionReq.matches req (version t) = true
      /\ forall t', t' ∈ tags -> VersionReq.matches req (version t') = true ->
                    Version.ltb (version t) (version t') = false
  | Err e =>
      LoomError.code e = LoomError.Version
      /\ forall t, t ∈ tags -> VersionReq.matches req (version t) = false
  end.
Proof.
  unfold resolve_version_from_tags.
  induction tags as [|x l IH]; intros Hs; cbn [List.find].
  - split; [reflexivity|]. intros t Ht. inversion Ht.
  - apply StronglySorted_inv in Hs as [Hl Hx].
    destruct (VersionReq.matches req (version x)) eqn:Ex.
    + split; [left|]. split; [exact Ex|].
      intros t' Ht' _. apply elem_of_cons in Ht' as [->|Ht'].
      * apply VersionOrder.vltb_irrefl.
      * rewrite Forall_forall in Hx. apply desc_unfold, Hx. exact Ht'.
    + specialize (IH Hl).
      destruct (List.find (fun t => VersionReq.matches req (version t)) l) as [t|].
      * destruct IH as (Hin & Hm & Hmax). split; [now right|]. split; [exact Hm|].
        intros t' Ht' Hm'. apply elem_of_cons in Ht' as [->|Ht']; [congruence|].
        now apply Hmax.
      * destruct IH as [Hc Hnone]. split; [exact Hc|].
        intros t Ht. apply elem_of_cons in Ht as [->|Ht]; [exact Ex|now apply Hnone].
Qed.

(** From the collected lines on: the SHA kept for a tag name is that of
    the last [^{}] line for it, or without one that of the first line for
    it; the list holds exactly the names whose stripped text parses as a
    version, each with its kept SHA, in descending version order; and on
    it [resolve_version_from_tags] returns a matching tag that no
    matching tag exceeds, or a Version error when none matches. *)
Lemma tags_of_raw_tags (ls_remote_output : string) :
  exists tags,
    parse_ls_remote_tags ls_remote_output = Ok tags
    /\ (forall n, collect_tag_sha (raw_tags ls_remote_output) !! n
                  = kept_sha n (raw_tags ls_remote_output))
    /\ (forall t, t ∈ tags <->
          kept_sha (name t) (raw_tags ls_remote_output) = Some (commit t)
          /\ Version.parse (strip_v_prefix (name t)) = Ok (version t))
    /\ StronglySorted (fun a b => Version.ltb (version a) (version b) = false) tags
    /\ (forall req,
          match resolve_version_from_tags tags req with
          | Ok t =>
              t ∈ tags /\ VersionReq.matches req (version t) = true
              /\ forall t', t' ∈ tags -> VersionReq.matches req (version t') = true ->
                            Version.ltb (version t) (version t') = false
          | Err e =>
              LoomError.code e = LoomError.Version
              /\ forall t, t ∈ tags -> VersionReq.matches req (version t) = false
          end).
Proof.
  eexists. split; [reflexivity|].
  set (raw := raw_tags ls_remote_output).
  assert (Hsorted : StronglySorted desc
            (std_sort by_version_desc (omap to_remote_tag (map_to_list (collect_tag_sha raw))))).
  { apply StronglySorted_merge_sort; apply _. }
  split; [intros n; apply collect_tag_sha_kept|]. split; [|split].
  - intros t. unfold std_sort. rewrite merge_sort_Permutation, list_elem_of_omap. split.
    + intros ([n s] & Hin & Ht). apply elem_of_map_to_list in Hin.
      rewrite collect_tag_sha_kept in Hin. unfold to_remote_tag in Ht.
      destruct (Version.parse (strip_v_prefix n)) as [v|e] eqn:Ep; [|discriminate].
      injection Ht as <-. simpl. auto.
    + intros [Hk Hp]. exists (name t, commit t). split.
      * apply elem_of_map_to_list. now rewrite collect_tag_sha_kept.
      * unfold to_remote_tag. rewrite Hp. now destruct t.
  - exact Hsorted.
  - intros req. apply first_match_highest. exact Hsorted.
Qed.

Definition sample_output : string :=
  ("aaa" ++ String tab "refs/tags/v1.0.0" ++ String newline
   ("bbb" ++ String tab "refs/tags/v1.2.0" ++ String newline
   ("ccc" ++ String tab "refs/tags/v1.2.0^{}" ++ String newline
   ("ddd" ++ String tab "refs/tags/v1.2.0" ++ String newline
   ("eee" ++ String tab "refs/tags/nightly" ++ String newline
   ("fff" ++ String tab "refs/heads/main" ++ String newline
   ("ggg" ++ String tab "refs/tags/V2.0.0-rc1" ++ String newline EmptyString)))))))%string.

Example sample_tags :
  parse_ls_remote_tags sample_output
  = Ok [ mkTag "V2.0.0-rc1" "ggg" (Version.mk 2 0 0 "rc1");
         mkTag "v1.2.0" "ccc" (Version.mk 1 2 0 EmptyString);
         mkTag "v1.0.0" "aaa" (Version.mk 1 0 0 EmptyString) ].
Proof. vm_compute. reflexivity. Qed.

End Git.

(* ===================================================================== *)
(** * Dependency resolver ([source.hpp], [manifest.hpp], [lockfile.hpp],
      [workspace.cpp], [resolver.cpp]) *)
(* ===================================================================== *)

Module Resolver.

Local Open Scope list_scope.
Local Open Scope nat_scope.

Record GitSource : Type := mkGit {
  url : string;
  tag : option string;
  version : option string;
  rev : option string;
  branch : option string
}.

Record PathSource : Type := mkPath { path : string }.

Record Dependency : Type := mkDep {
  name : string;
  git : option GitSource;
  dep_path : option PathSource;
  workspace : bool;
  member : bool
}.

Record LockedPackage : Type := mkLocked {
  lp_name : string;
  lp_version : string;
  lp_source : string;       (* "git+<url>" or "path+<path>" *)
  lp_commit : string;
  lp_ref : string;
  lp_checksum : string;
  lp_dependencies : list string
}.

Record LockFile : Type := mkLock {
  loom_version : string;
  root_name : string;
  root_version : string;
  packages : list LockedPackage
}.

(** The parts of a manifest the resolver reads. *)
Record PackageInfo : Type := mkPackage { pkg_name : string; pkg_version : string }.

Record WorkspaceConfig : Type := mkWorkspaceConfig { ws_dependencies : list Dependency }.

Record Manifest : Type := mkManifest {
  package : PackageInfo;
  dependencies : list Dependency;
  workspace_section : option WorkspaceConfig
}.

Record WorkspaceMember : Type := mkMember {
  member_name : string;
  member_version : string;
  member_root_dir : string;
  manifest : Manifest
}.

Record Workspace : Type := mkWorkspaceRec {
  root_manifest_ : Manifest;
  root_dir_ : string;
  members_ : list WorkspaceMember
}.

Record ResolveOptions : Type := mkOptions {
  no_local : bool;
  offline : bool;
  update_all : bool;
  update_package : string
}.

Record ResolvedPackage : Type := mkResolved {
  rp_name : string;
  rp_version : string;
  rp_commit : string;
  rp_ref : string;
  rp_source_url : string;
  rp_is_path : bool;
  rp_checksum : string;
  rp_dep_names : list string
}.

(** ["git+" + url] or ["path+" + path]; empty when the dependency has
    neither source (the [source_key] of [resolve_workspace]). *)
Definition source_key (d : Dependency) : string :=
  match git d with
  | Some g => ("git+" ++ url g)%string
  | None =>
      match dep_path d with
      | Some p => ("path+" ++ path p)%string
      | None => EmptyString
      end
  end.

(** Modelled from the spec: [LockFile::is_stale], whose definition
    ([lockfile.cpp]) is not among the sources.  "Compute for the lockfile
    the set of (name, source) pairs where source is the stored source
    string, and for the manifest the set (name, canonical-source) ...
    Stale iff the two sets differ." *)
Definition lock_pairs (lf : LockFile) : gset (string * string) :=
  list_to_set ((fun p => (lp_name p, lp_source p)) <$> packages lf).

Definition manifest_pairs (deps : list Dependency) : gset (string * string) :=
  list_to_set ((fun d => (name d, source_key d)) <$> deps).

Definition is_stale (lf : LockFile) (manifest_deps : list Dependency) : bool :=
  bool_decide (lock_pairs lf <> manifest_pairs manifest_deps).

(** [LockFile::find]. *)
Definition find (lf : LockFile) (n : string) : option LockedPackage :=
  List.find (fun p => String.eqb (lp_name p) n) (packages lf).

(** ** Workspace look-ups ([workspace.cpp]) *)

Definition members (ws : Workspace) : list WorkspaceMember := members_ ws.
Definition root_manifest (ws : Workspace) : Manifest := root_manifest_ ws.

Definition find_member (ws : Workspace) (n : string) : option WorkspaceMember :=
  List.find (fun m => String.eqb (member_name m) n) (members_ ws).

Definition is_virtual (ws : Workspace) : bool :=
  Str.empty (pkg_name (package (root_manifest_ ws))).

Definition resolve_workspace_dep (ws : Workspace) (dep_name : string) : Result Dependency :=
  match workspace_section (root_manifest_ ws) with
  | None =>
      Err (error2 LoomError.Dependency
             ("not a workspace, cannot resolve workspace dependency: " ++ dep_name)%string)
  | Some cfg =>
      match List.find (fun d => String.eqb (name d) dep_name) (ws_dependencies cfg) with
      | Some d => Ok d
      | None =>
          Err (error2 LoomError.Dependency
                 ("workspace dependency '" ++ dep_name
                  ++ "' not found in [workspace.dependencies]")%string)
      end
  end.

Definition resolve_member_dep (ws : Workspace) (dep_name : string) : Result Dependency :=
  match find_member ws dep_name with
  | None =>
      Err (error2 LoomError.Dependency
             ("member dependency '" ++ dep_name
              ++ "' not found in workspace members")%string)
  | Some m => Ok (mkDep dep_name None (Some (mkPath (member_root_dir m))) false false)
  end.

(** ** [build_lockfile] *)

Definition to_locked (pkg : ResolvedPackage) : LockedPackage :=
  mkLocked (rp_name pkg) (rp_version pkg)
    (if rp_is_path pkg then "path+" ++ rp_source_url pkg else "git+" ++ rp_source_url pkg)%string
    (rp_commit pkg) (rp_ref pkg) (rp_checksum pkg) (rp_dep_names pkg).

Definition by_name (a b : LockedPackage) : bool := Str.lt (lp_name a) (lp_name b).

Definition build_lockfile (root : Manifest) (resolved : gmap string ResolvedPackage)
    : LockFile :=
  mkLock "0.1.0" (pkg_name (package root)) (pkg_version (package root))
    (std_sort by_name ((fun kv => to_locked (snd kv)) <$> map_to_list resolved)).

(** ** The member loop and the root loop of [resolve_workspace] *)

(** Expansion of a [workspace = true] or [member = true] dependency. *)
Definition expand (ws : Workspace) (dep : Dependency) : Result Dependency :=
  match (if workspace dep then resolve_workspace_dep ws (name dep) else Ok dep) with
  | Err e => Err e
  | Ok resolved_dep =>
      if member dep then resolve_member_dep ws (name dep) else Ok resolved_dep
  end.

(** [all_deps] and [dep_sources]. *)
Definition Collected : Type := list Dependency * gmap string string.

Definition conflict_error (n old new : string) : LoomError.t :=
  error2 LoomError.Dependency
    ("conflicting sources for dependency '" ++ n ++ "': '" ++ old ++ "' vs '" ++ new ++ "'")%string.

Definition add_member_dep (ws : Workspace) (st : Collected) (dep : Dependency)
    : Result Collected :=
  match expand ws dep with
  | Err e => Err e
  | Ok resolved_dep =>
      let key := source_key resolved_dep in
      match snd st !! name resolved_dep with
      | Some old =>
          if negb (String.eqb old key)
          then Err (conflict_error (name resolved_dep) old key)
          else Ok st
      | None =>
          Ok (fst st ++ [resolved_dep], <[name resolved_dep := key]> (snd st))
      end
  end.

Fixpoint fold_result {S X : Type} (f : S -> X -> Result S) (l : list X) (st : S)
    : Result S :=
  match l with
  | [] => Ok st
  | x :: l' =>
      match f st x with
      | Err e => Err e
      | Ok st' => fold_result f l' st'
      end
  end.

(** The dependencies of all members, in the order the nested loops visit
    them. *)
Definition member_deps (ws : Workspace) : list Dependency :=
  concat (map (fun m => dependencies (manifest m)) (members ws)).

Definition collect_members (ws : Workspace) : Result Collected :=
  fold_result (add_member_dep ws) (member_deps ws) ([], ∅).

Definition add_root_dep (st : Collected) (dep : Dependency) : Collected :=
  match snd st !! name dep with
  | Some _ => st
  | None => (fst st ++ [dep], <[name dep := source_key dep]> (snd st))
  end.

Definition collect_root (ws : Workspace) (st : Collected) : Collected :=
  if negb (is_virtual ws)
  then fold_left add_root_dep (dependencies (root_manifest ws)) st
  else st.

Definition collect_deps (ws : Workspace) : Result (list Dependency) :=
  match collect_members ws with
  | Err e => Err e
  | Ok st => Ok (fst (collect_root ws st))
  end.

(** ** [resolve] and [resolve_workspace] *)

Section Resolve.

(** The file system, the git client and the caches, as far as the
    resolver's BFS core touches them, stay abstract; the offline flag of
    the git driver is the one piece of state [resolve] writes itself.
    Logging is left out. *)
Context {World : Type}.

Record Env : Type := mkEnv { git_offline : bool; world : World }.

Definition set_offline (b : bool) (env : Env) : Env := mkEnv b (world env).

Variable resolve_deps :
  list Dependency -> option LockFile -> ResolveOptions -> string -> Env ->
  Result (gmap string ResolvedPackage) * Env.

(** [fs::current_path()]. *)
Variable current_path : Env -> string.

Definition resolve_closure (root : Manifest) (deps : list Dependency)
    (existing_lock : option LockFile) (options : ResolveOptions) (dir : string)
    (env : Env) : Result LockFile * Env :=
  match resolve_deps deps existing_lock options dir env with
  | (Err e, env') => (Err e, env')
  | (Ok resolved, env') => (Ok (build_lockfile root resolved), env')
  end.

(** [DependencyResolver::resolve]. *)
Definition resolve (m : Manifest) (existing_lock : option LockFile)
    (options : ResolveOptions) (env : Env) : Result LockFile * Env :=
  let env := if offline options then set_offline true env else env in
  match existing_lock with
  | Some lock =>
      if negb (update_all options) && negb (is_stale lock (dependencies m))
      then (Ok lock, env)
      else resolve_closure m (dependencies m) existing_lock options (current_path env) env
  | None =>
      resolve_closure m (dependencies m) existing_lock options (current_path env) env
  end.


(** C1. With a lockfile at hand, [update_all] off and the lockfile not
    stale against the manifest's dependencies, [resolve] succeeds with
    that very lockfile; the BFS core is not run: whatever it is, the
    result is the same and the environment is only touched by the offline
    flag. *)
Theorem resolve_reuses_lockfile (m : Manifest) (lock : LockFile)
    (options : ResolveOptions) (env : Env) :
  update_all options = false ->
  is_stale lock (dependencies m) = false ->
  resolve m (Some lock) options env
  = (Ok lock, if offline options then set_offline true env else env).
Proof.
  intros Hu Hs. unfold resolve. now rewrite Hu, Hs.
Qed.

End Resolve.

(** ** Reuse of a lockfile, on an example *)

Definition uart_dep : Dependency :=
  mkDep "uart_ip"
    (Some (mkGit "https://github.com/org/uart.git" (Some "v1.0.0") None None None))
    None false false.

Definition uart_lock : LockFile :=
  mkLock "0.1.0" "top" "0.1.0"
    [mkLocked "uart_ip" "1.0.0" "git+https://github.com/org/uart.git"
       "0123456789abcdef0123456789abcdef01234567" "v1.0.0" "c0ffee" []].

Definition top_manifest : Manifest :=
  mkManifest (mkPackage "top" "0.1.0") [uart_dep] None.

(** A BFS core that always fails: [resolve] cannot have called it when it
    succeeds. *)
Definition no_network (deps : list Dependency) (l : option LockFile)
    (o : ResolveOptions) (dir : string) (env : @Env unit)
    : Result (gmap string ResolvedPackage) * @Env unit :=
  (Err (error2 LoomError.Network "offline"), env).

Lemma resolve_reuses_lockfile_witness :
  resolve no_network (fun _ => "/work") top_manifest (Some uart_lock)
          (mkOptions false true false EmptyString) (mkEnv false tt)
  = (Ok uart_lock, mkEnv true tt).
Proof.
  apply (resolve_reuses_lockfile no_network (fun _ => "/work") top_manifest uart_lock
           (mkOptions false true false EmptyString) (mkEnv false tt)).
  - reflexivity.
  - vm_compute. reflexivity.
Defined.

(** ** Conflicts between declarations of one name *)

Lemma resolve_workspace_dep_err (ws : Workspace) (n : string) (e : LoomError.t) :
  resolve_workspace_dep ws n = Err e -> LoomError.code e = LoomError.Dependency.
Proof.
  unfold resolve_workspace_dep.
  destruct (workspace_section (root_manifest_ ws)) as [cfg|].
  - destruct (List.find _ _); [discriminate|]. intros H. injection H as <-. reflexivity.
  - intros H. injection H as <-. reflexivity.
Qed.

Lemma resolve_member_dep_err (ws : Workspace) (n : string) (e : LoomError.t) :
  resolve_member_dep ws n = Err e -> LoomError.code e = LoomError.Dependency.
Proof.
  unfold resolve_member_dep.
  destruct (find_member ws n); [discriminate|]. intros H. injection H as <-. reflexivity.
Qed.

Lemma expand_err (ws : Workspace) (dep : Dependency) (e : LoomError.t) :
  expand ws dep = Err e -> LoomError.code e = LoomError.Dependency.
Proof.
  unfold expand. destruct (workspace dep).
  - destruct (resolve_workspace_dep ws (name dep)) as [d|e'] eqn:E1.
    + destruct (member dep); [apply resolve_member_dep_err|discriminate].
    + intros H. injection H as <-. eapply resolve_workspace_dep_err, E1.
  - destruct (member dep); [apply resolve_member_dep_err|discriminate].
Qed.

Lemma add_member_dep_err (ws : Workspace) (st : Collected) (dep : Dependency)
    (e : LoomError.t) :
  add_member_dep ws st dep = Err e -> LoomError.code e = LoomError.Dependency.
Proof.
  unfold add_member_dep. destruct (expand ws dep) as [d|e'] eqn:Ex.
  - destruct (snd st !! name d) as [old|]; [|discriminate].
    destruct (negb (String.eqb old (source_key d))); [|discriminate].
    intros H. injection H as <-. reflexivity.
  - intros H. injection H as <-. eapply expand_err, Ex.
Qed.

Lemma fold_members_err (ws : Workspace) (l : list Dependency) : forall st e,
  fold_result (add_member_dep ws) l st = Err e ->
  LoomError.code e = LoomError.Dependency.
Proof.
  induction l as [|dep l IH]; intros st e; simpl; [discriminate|].
  destruct (add_member_dep ws st dep) as [st'|e'] eqn:E.
  - apply IH.
  - intros H. injection H as <-. eapply add_member_dep_err, E.
Qed.







(** Two members that disagree about [common_cells], and a root manifest
    that disagrees with its only member. *)
Definition cells (u : string) : Dependency :=
  mkDep "common_cells" (Some (mkGit u (Some "v1.0.0") None None None)) None false false.

Definition member_with (n : string) (deps : list Dependency) : WorkspaceMember :=
  mkMember n "0.1.0" ("/ws/" ++ n)%string (mkManifest (mkPackage n "0.1.0") deps None).


Definition ws_root_conflict : Workspace :=
  mkWorkspaceRec
    (mkManifest (mkPackage "root" "0.1.0") [cells "https://b.example/cells.git"]
                (Some (mkWorkspaceConfig [])))
    "/ws"
    [member_with "spi" [cells "https://a.example/cells.git"]].

Example root_conflict_is_silent :
  collect_deps ws_root_conflict = Ok [cells "https://a.example/cells.git"].
Proof. vm_compute. reflexivity. Qed.


End Resolver.

(* ===================================================================== *)
(** * Parse-cache blobs ([lang/token.hpp], [lang/ir.hpp], [build_cache.cpp]) *)
(* ===================================================================== *)

(** ** Binary helpers (namespace [ser]) *)

(** A [uint8_t] is an [ascii]; a writer returns the bytes it pushes onto
    the buffer; a reader takes the bytes between [p] and [end] and returns
    the value read and the bytes left, or [None] where the C++ returns
    [false]. *)
Module Ser.

Local Open Scope list_scope.
Local Open Scope Z_scope.

Definition Reader (T : Type) : Type := list ascii -> option (T * list ascii).

(** [static_cast<uint8_t>(z)] and the value of a byte. *)
Definition byte_of_Z (z : Z) : ascii := ascii_of_N (Z.to_N (z mod 256)).
Definition Z_of_byte (b : ascii) : Z := Z.of_N (N_of_ascii b).

(** The loop of [write_varint]; a [uint64_t] is exhausted after nine
    shifts by 7, so the empty fuel case is not reached from
    [write_varint]. *)
Fixpoint write_varint_loop (fuel : nat) (val : Z) : list ascii :=
  if val >=? 128 then
    match fuel with
    | S fuel' =>
        byte_of_Z (Z.lor (Z.land val 127) 128)
        :: write_varint_loop fuel' (Z.shiftr val 7)
    | O => []
    end
  else [byte_of_Z val].

(** [write_varint(buf, val)]; the parameter is a [uint64_t]. *)
Definition write_varint (val : Z) : list ascii :=
  write_varint_loop 9 (val mod 2 ^ 64).

(** The loop of [read_varint]. *)
Fixpoint read_varint_loop (p : list ascii) (val shift : Z) : option (Z * list ascii) :=
  match p with
  | [] => None
  | b :: p' =>
      let val := Z.lor val (Z.shiftl (Z.land (Z_of_byte b) 127) shift mod 2 ^ 64) in
      if Z.land (Z_of_byte b) 128 =? 0 then Some (val, p')
      else
        let shift := shift + 7 in
        if shift >=? 64 then None else read_varint_loop p' val shift
  end.

Definition read_varint : Reader Z := fun p => read_varint_loop p 0 0.

Definition write_string (s : string) : list ascii :=
  write_varint (Z.of_nat (String.length s)) ++ list_ascii_of_string s.

Definition read_string : Reader string := fun p =>
  match read_varint p with
  | None => None
  | Some (len, p) =>
      if Z.of_nat (length p) <? len then None
      else Some (string_of_list_ascii (take (Z.to_nat len) p), drop (Z.to_nat len) p)
  end.

Definition write_bool (v : bool) : list ascii := [byte_of_Z (if v then 1 else 0)].

Definition read_bool : Reader bool := fun p =>
  match p with
  | [] => None
  | b :: p' => Some (negb (Z_of_byte b =? 0), p')
  end.

Definition write_byte (v : Z) : list ascii := [byte_of_Z v].

Definition read_byte : Reader Z := fun p =>
  match p with
  | [] => None
  | b :: p' => Some (Z_of_byte b, p')
  end.

(** [static_cast<int>(static_cast<uint32_t>(raw))]. *)
Definition int_of_uint32 (u : Z) : Z := if u <? 2 ^ 31 then u else u - 2 ^ 32.

(** [write_int]: [static_cast<uint64_t>(static_cast<uint32_t>(v))]. *)
Definition write_int (v : Z) : list ascii := write_varint (v mod 2 ^ 32).

Definition read_int : Reader Z := fun p =>
  match read_varint p with
  | None => None
  | Some (raw, p) => Some (int_of_uint32 (raw mod 2 ^ 32), p)
  end.

(** ** Round trips of the helpers *)

Lemma Z_of_byte_range (b : ascii) : 0 <= Z_of_byte b < 256.
Proof. unfold Z_of_byte. pose proof (N_ascii_bounded b). lia. Qed.

Lemma Z_of_byte_of_Z (z : Z) : Z_of_byte (byte_of_Z z) = z mod 256.
Proof.
  unfold Z_of_byte, byte_of_Z.
  pose proof (Z.mod_pos_bound z 256 ltac:(lia)).
  rewrite N_ascii_embedding by lia. lia.
Qed.

Lemma lor_disjoint (a b n : Z) :
  0 <= n -> 0 <= a < 2 ^ n -> Z.lor a (b * 2 ^ n) = a + b * 2 ^ n.
Proof.
  intros Hn Ha. rewrite <- Z.shiftl_mul_pow2 by lia.
  assert (H : Z.land a (Z.shiftl b n) = 0).
  { apply Z.bits_inj'. intros m Hm. rewrite Z.land_spec, Z.bits_0.
    destruct (Z.lt_ge_cases m n) as [Hlt|Hge].
    - rewrite Z.shiftl_spec_low by lia. apply andb_false_r.
    - destruct (Z.eq_dec a 0) as [->|Hnz]; [now rewrite Z.bits_0|].
      rewrite (Z.bits_above_log2 a m); [reflexivity|lia|].
      apply Z.lt_le_trans with n; [|exact Hge].
      apply Z.log2_lt_pow2; lia. }
  now rewrite <- Z.lxor_lor, <- Z.add_nocarry_lxor.
Qed.

Lemma land_127 (z : Z) : Z.land z 127 = z mod 128.
Proof. change 127 with (Z.ones 7). now rewrite Z.land_ones by lia. Qed.

Lemma byte_bit7 (b : ascii) :
  (Z.land (Z_of_byte b) 128 =? 0) = (Z_of_byte b <? 128).
Proof. destruct b as [[] [] [] [] [] [] [] []]; reflexivity. Qed.

Lemma read_varint_loop_write (rest : list ascii) : forall fuel v acc shift,
  0 <= shift <= 63 -> 63 <= shift + 7 * Z.of_nat fuel ->
  0 <= v < 2 ^ (64 - shift) -> 0 <= acc < 2 ^ shift ->
  read_varint_loop (write_varint_loop fuel v ++ rest) acc shift
  = Some (acc + v * 2 ^ shift, rest).
Proof.
  induction fuel as [|fuel IH]; intros v acc shift Hs Hf Hv Hacc.
  - assert (shift = 63) by lia. subst shift. change (2 ^ (64 - 63)) with 2 in Hv.
    cbn [write_varint_loop]. destruct (Z.geb_spec v 128) as [Hge|Hlt]; [lia|].
    cbn [app read_varint_loop]. rewrite byte_bit7, Z_of_byte_of_Z, land_127.
    rewrite (Z.mod_small v 256), (Z.mod_small v 128) by lia.
    destruct (Z.ltb_spec v 128); [|lia].
    rewrite Z.shiftl_mul_pow2 by lia.
    rewrite Z.mod_small by (change (2 ^ 64) with (2 * 2 ^ 63); nia).
    now rewrite lor_disjoint by lia.
  - cbn [write_varint_loop]. destruct (Z.geb_spec v 128) as [Hge|Hlt].
    + assert (Hshift : shift < 57).
      { destruct (Z.lt_ge_cases shift 57) as [|Hbig]; [assumption|exfalso].
        assert (2 ^ (64 - shift) <= 2 ^ 7) by (apply Z.pow_le_mono_r; lia).
        change (2 ^ 7) with 128 in *. lia. }
      cbn [app read_varint_loop].
      rewrite byte_bit7, Z_of_byte_of_Z, !land_127.
      pose proof (Z.mod_pos_bound v 128 ltac:(lia)) as Hm.
      assert (Hlor : Z.lor (v mod 128) 128 = v mod 128 + 128)
        by (apply (lor_disjoint (v mod 128) 1 7); [lia|exact Hm]).
      rewrite Hlor.
      rewrite (Z.mod_small (v mod 128 + 128) 256) by lia.
      destruct (Z.ltb_spec (v mod 128 + 128) 128); [lia|].
      assert (Hlow : (v mod 128 + 128) mod 128 = v mod 128).
      { replace (v mod 128 + 128) with (v mod 128 + 1 * 128) by lia.
        rewrite Z.mod_add by lia. apply Z.mod_small, Hm. }
      rewrite Hlow.
      destruct (Z.geb_spec (shift + 7) 64); [lia|].
      rewrite Z.shiftl_mul_pow2 by lia.
      assert (Hpow : 2 ^ 64 = 2 ^ (64 - shift) * 2 ^ shift)
        by (rewrite <- Z.pow_add_r by lia; f_equal; lia).
      assert (Hp7 : 2 ^ (shift + 7) = 128 * 2 ^ shift)
        by (rewrite Z.pow_add_r by lia; change (2 ^ 7) with 128; lia).
      assert (Hps : 0 < 2 ^ shift) by (apply Z.pow_pos_nonneg; lia).
      rewrite Z.mod_small by nia.
      rewrite lor_disjoint by lia.
      rewrite Z.shiftr_div_pow2 by lia. change (2 ^ 7) with 128.
      rewrite IH.
      * f_equal. f_equal. rewrite Hp7.
        pose proof (Z.div_mod v 128 ltac:(lia)). nia.
      * lia.
      * lia.
      * assert (H64 : 2 ^ (64 - shift) = 128 * 2 ^ (64 - (shift + 7))).
        { change 128 with (2 ^ 7). rewrite <- Z.pow_add_r by lia. f_equal. lia. }
        split; [apply Z.div_pos; lia|].
        apply Z.div_lt_upper_bound; lia.
      * rewrite Hp7. nia.
    + cbn [app read_varint_loop]. rewrite byte_bit7, Z_of_byte_of_Z, land_127.
      rewrite (Z.mod_small v 256), (Z.mod_small v 128) by lia.
      destruct (Z.ltb_spec v 128); [|lia].
      rewrite Z.shiftl_mul_pow2 by lia.
      assert (Hpow : 2 ^ 64 = 2 ^ (64 - shift) * 2 ^ shift)
        by (rewrite <- Z.pow_add_r by lia; f_equal; lia).
      assert (Hps : 0 < 2 ^ shift) by (apply Z.pow_pos_nonneg; lia).
      rewrite Z.mod_small by nia.
      now rewrite lor_disjoint by lia.
Qed.

Lemma read_varint_write (v : Z) (rest : list ascii) :
  0 <= v < 2 ^ 64 -> read_varint (write_varint v ++ rest) = Some (v, rest).
Proof.
  intros Hv. unfold read_varint, write_varint. rewrite Z.mod_small by exact Hv.
  rewrite read_varint_loop_write; [f_equal; f_equal; lia|lia|lia|exact Hv|lia].
Qed.

(** What the C++ types guarantee of a value: an [int] has 32 bits, a
    length is a [size_t], a byte-sized tag is below 256. *)
Definition valid_int (v : Z) : bool := (- 2 ^ 31 <=? v) && (v <? 2 ^ 31).
Definition valid_size (n : nat) : bool := Z.of_nat n <? 2 ^ 64.
Definition valid_string (s : string) : bool := valid_size (String.length s).
Definition valid_tag (hi v : Z) : bool := (0 <=? v) && (v <=? hi).

Lemma length_list_ascii_of_string (s : string) :
  length (list_ascii_of_string s) = String.length s.
Proof. induction s as [|c s IH]; simpl; [reflexivity|]. now rewrite IH. Qed.

Lemma read_size_write (n : nat) (rest : list ascii) :
  valid_size n = true ->
  read_varint (write_varint (Z.of_nat n) ++ rest) = Some (Z.of_nat n, rest).
Proof.
  unfold valid_size. intros H. apply Z.ltb_lt in H. apply read_varint_write. lia.
Qed.

Lemma read_string_write (s : string) (rest : list ascii) :
  valid_string s = true -> read_string (write_string s ++ rest) = Some (s, rest).
Proof.
  intros H. unfold read_string, write_string. rewrite <- app_assoc.
  rewrite read_size_write by exact H.
  rewrite length_app, length_list_ascii_of_string.
  destruct (Z.ltb_spec (Z.of_nat (String.length s + length rest))
                       (Z.of_nat (String.length s))); [lia|].
  rewrite Nat2Z.id, <- length_list_ascii_of_string.
  now rewrite take_app_length, drop_app_length, string_of_list_ascii_of_string.
Qed.

Lemma read_bool_write (v : bool) (rest : list ascii) :
  read_bool (write_bool v ++ rest) = Some (v, rest).
Proof. destruct v; reflexivity. Qed.

Lemma read_byte_write (hi v : Z) (rest : list ascii) :
  hi < 256 -> valid_tag hi v = true ->
  read_byte (write_byte v ++ rest) = Some (v, rest).
Proof.
  unfold valid_tag. intros Hhi H. apply andb_prop in H as [H1 H2].
  apply Z.leb_le in H1, H2. unfold read_byte, write_byte. cbn [app].
  rewrite Z_of_byte_of_Z, Z.mod_small by lia. reflexivity.
Qed.

Lemma read_int_write (v : Z) (rest : list ascii) :
  valid_int v = true -> read_int (write_int v ++ rest) = Some (v, rest).
Proof.
  unfold valid_int. intros H. apply andb_prop in H as [H1 H2].
  apply Z.leb_le in H1. apply Z.ltb_lt in H2.
  unfold read_int, write_int.
  pose proof (Z.mod_pos_bound v (2 ^ 32) ltac:(lia)) as Hm.
  rewrite read_varint_write by lia.
  rewrite Z.mod_mod by lia. f_equal. f_equal. unfold int_of_uint32.
  destruct (Z.lt_ge_cases v 0) as [Hneg|Hpos].
  - replace (v mod 2 ^ 32) with (v + 2 ^ 32)
      by (apply Z.mod_unique with (-1); lia).
    destruct (Z.ltb_spec (v + 2 ^ 32) (2 ^ 31)); lia.
  - rewrite Z.mod_small by lia. destruct (Z.ltb_spec v (2 ^ 31)); lia.
Qed.

End Ser.

(** ** The parse IR *)

Module SourcePos.
Record t : Type := mk { file : string; line : Z; col : Z }.
End SourcePos.

(** The enumerations, by the values of their enumerators ([enum class]
    over [int]): a cast to [uint8_t] writes them, a cast back reads
    them. *)
Module DesignUnitKind.
Definition Module_ : Z := 0.
Definition Package : Z := 1.
Definition Interface : Z := 2.
Definition Class : Z := 3.
Definition Program : Z := 4.
Definition last : Z := 4.
End DesignUnitKind.

Module PortDirection.
Definition Input : Z := 0.
Definition Output : Z := 1.
Definition Inout : Z := 2.
Definition Ref : Z := 3.
Definition last : Z := 3.
End PortDirection.

Module AlwaysKind.
Definition Plain : Z := 0.
Definition Star : Z := 1.
Definition Comb : Z := 2.
Definition Ff : Z := 3.
Definition Latch : Z := 4.
Definition last : Z := 4.
End AlwaysKind.

Module CaseKind.
Definition Case : Z := 0.
Definition Casex : Z := 1.
Definition Casez : Z := 2.
Definition last : Z := 2.
End CaseKind.

Module PortDecl.
Record t : Type := mk {
  name : string; direction : Z; type_text : string; pos : SourcePos.t }.
End PortDecl.

Module ParamDecl.
Record t : Type := mk {
  name : string; default_text : string; is_localparam : bool; pos : SourcePos.t }.
End ParamDecl.

Module Instantiation.
Record t : Type := mk {
  module_name : string; instance_name : string; is_parameterized : bool;
  pos : SourcePos.t }.
End Instantiation.

Module Assignment.
Record t : Type := mk { is_blocking : bool; target : string; pos : SourcePos.t }.
End Assignment.

Module AlwaysBlock.
Record t : Type := mk {
  kind : Z; label : string; assignments : list Assignment.t; pos : SourcePos.t }.
End AlwaysBlock.

Module CaseStatement.
Record t : Type := mk {
  kind : Z; has_default : bool; is_unique : bool; is_priority : bool;
  pos : SourcePos.t }.
End CaseStatement.

Module SignalDecl.
Record t : Type := mk { name : string; type_text : string; pos : SourcePos.t }.
End SignalDecl.

Module GenerateBlock.
Record t : Type := mk { label : string; has_label : bool; pos : SourcePos.t }.
End GenerateBlock.

Module LabeledBlock.
Record t : Type := mk {
  begin_label : string; end_label : string; labels_match : bool; pos : SourcePos.t }.
End LabeledBlock.

Module ImportDecl.
Record t : Type := mk {
  package_name : string; symbol : string; is_wildcard : bool; pos : SourcePos.t }.
End ImportDecl.

Module DesignUnit.
Record t : Type := mk {
  kind : Z;
  name : string;
  start_line : Z;
  end_line : Z;
  depth : Z;
  ports : list PortDecl.t;
  params : list ParamDecl.t;
  instantiations : list Instantiation.t;
  imports : list ImportDecl.t;
  always_blocks : list AlwaysBlock.t;
  case_statements : list CaseStatement.t;
  signals : list SignalDecl.t;
  generate_blocks : list GenerateBlock.t;
  labeled_blocks : list LabeledBlock.t;
  has_defparam : bool;
  pos : SourcePos.t
}.
End DesignUnit.

Module Diagnostic.
Record t : Type := mk { message : string; file : string; line : Z; col : Z }.
End Diagnostic.

Module ParseResult.
Record t : Type := mk { units : list DesignUnit.t; diagnostics : list Diagnostic.t }.
End ParseResult.

(** ** [serialize_parse_result] and [deserialize_parse_result] *)

Module Blob.

Import Ser.
Local Open Scope list_scope.
Local Open Scope Z_scope.

Definition MAGIC : list ascii := ["L"; "P"; "R"; ascii_of_nat 1]%char.
Definition MAGIC_LEN : nat := 4.

(** [write_varint(buf, v.size()); for (auto& x : v) ...]. *)
Definition write_list {T} (w : T -> list ascii) (l : list T) : list ascii :=
  write_varint (Z.of_nat (length l)) ++ concat (map w l).

Definition write_pos (pos : SourcePos.t) : list ascii :=
  write_int (SourcePos.line pos) ++ write_int (SourcePos.col pos).

Definition write_port (p : PortDecl.t) : list ascii :=
  write_string (PortDecl.name p) ++ write_byte (PortDecl.direction p)
  ++ write_string (PortDecl.type_text p) ++ write_pos (PortDecl.pos p).

Definition write_param (p : ParamDecl.t) : list ascii :=
  write_string (ParamDecl.name p) ++ write_string (ParamDecl.default_text p)
  ++ write_bool (ParamDecl.is_localparam p) ++ write_pos (ParamDecl.pos p).

Definition write_instantiation (i : Instantiation.t) : list ascii :=
  write_string (Instantiation.module_name i)
  ++ write_string (Instantiation.instance_name i)
  ++ write_bool (Instantiation.is_parameterized i) ++ write_pos (Instantiation.pos i).

Definition write_import (i : ImportDecl.t) : list ascii :=
  write_string (ImportDecl.package_name i) ++ write_string (ImportDecl.symbol i)
  ++ write_bool (ImportDecl.is_wildcard i) ++ write_pos (ImportDecl.pos i).

Definition write_assignment (a : Assignment.t) : list ascii :=
  write_bool (Assignment.is_blocking a) ++ write_string (Assignment.target a)
  ++ write_pos (Assignment.pos a).

Definition write_always (ab : AlwaysBlock.t) : list ascii :=
  write_byte (AlwaysBlock.kind ab) ++ write_string (AlwaysBlock.label ab)
  ++ write_list write_assignment (AlwaysBlock.assignments ab)
  ++ write_pos (AlwaysBlock.pos ab).

Definition write_case (cs : CaseStatement.t) : list ascii :=
  write_byte (CaseStatement.kind cs) ++ write_bool (CaseStatement.has_default cs)
  ++ write_bool (CaseStatement.is_unique cs) ++ write_bool (CaseStatement.is_priority cs)
  ++ write_pos (CaseStatement.pos cs).

Definition write_signal (s : SignalDecl.t) : list ascii :=
  write_string (SignalDecl.name s) ++ write_string (SignalDecl.type_text s)
  ++ write_pos (SignalDecl.pos s).

Definition write_generate (g : GenerateBlock.t) : list ascii :=
  write_string (GenerateBlock.label g) ++ write_bool (GenerateBlock.has_label g)
  ++ write_pos (GenerateBlock.pos g).

Definition write_labeled (lb : LabeledBlock.t) : list ascii :=
  write_string (LabeledBlock.begin_label lb) ++ write_string (LabeledBlock.end_label lb)
  ++ write_bool (LabeledBlock.labels_match lb) ++ write_pos (LabeledBlock.pos lb).

Definition write_unit (u : DesignUnit.t) : list ascii :=
  write_byte (DesignUnit.kind u) ++ write_string (DesignUnit.name u)
  ++ write_int (DesignUnit.start_line u) ++ write_int (DesignUnit.end_line u)
  ++ write_int (DesignUnit.depth u) ++ write_bool (DesignUnit.has_defparam u)
  ++ write_list write_port (DesignUnit.ports u)
  ++ write_list write_param (DesignUnit.params u)
  ++ write_list write_instantiation (DesignUnit.instantiations u)
  ++ write_list write_import (DesignUnit.imports u)
  ++ write_list write_always (DesignUnit.always_blocks u)
  ++ write_list write_case (DesignUnit.case_statements u)
  ++ write_list write_signal (DesignUnit.signals u)
  ++ write_list write_generate (DesignUnit.generate_blocks u)
  ++ write_list write_labeled (DesignUnit.labeled_blocks u)
  ++ write_pos (DesignUnit.pos u).

Definition write_diagnostic (d : Diagnostic.t) : list ascii :=
  write_string (Diagnostic.message d) ++ write_string (Diagnostic.file d)
  ++ write_int (Diagnostic.line d) ++ write_int (Diagnostic.col d).

(** [serialize_parse_result]. *)
Definition serialize_parse_result (pr : ParseResult.t) : list ascii :=
  MAGIC
  ++ write_list write_unit (ParseResult.units pr)
  ++ write_list write_diagnostic (ParseResult.diagnostics pr).

(** Readers of one element: the [||] chains of the C++.  A position read
    back keeps the default (empty) [file] of the resized element. *)
Definition read_pos : Reader SourcePos.t := fun p =>
  '(l, p) ← read_int p; '(c, p) ← read_int p;
  Some (SourcePos.mk EmptyString l c, p).

Definition read_port : Reader PortDecl.t := fun p =>
  '(n, p) ← read_string p; '(dir, p) ← read_byte p;
  '(ty, p) ← read_string p; '(pos, p) ← read_pos p;
  Some (PortDecl.mk n dir ty pos, p).

Definition read_param : Reader ParamDecl.t := fun p =>
  '(n, p) ← read_string p; '(d, p) ← read_string p;
  '(b, p) ← read_bool p; '(pos, p) ← read_pos p;
  Some (ParamDecl.mk n d b pos, p).

Definition read_instantiation : Reader Instantiation.t := fun p =>
  '(m, p) ← read_string p; '(i, p) ← read_string p;
  '(b, p) ← read_bool p; '(pos, p) ← read_pos p;
  Some (Instantiation.mk m i b pos, p).

Definition read_import : Reader ImportDecl.t := fun p =>
  '(n, p) ← read_string p; '(s, p) ← read_string p;
  '(b, p) ← read_bool p; '(pos, p) ← read_pos p;
  Some (ImportDecl.mk n s b pos, p).

Definition read_assignment : Reader Assignment.t := fun p =>
  '(b, p) ← read_bool p; '(t, p) ← read_string p; '(pos, p) ← read_pos p;
  Some (Assignment.mk b t pos, p).

Definition read_case : Reader CaseStatement.t := fun p =>
  '(k, p) ← read_byte p; '(d, p) ← read_bool p; '(u, p) ← read_bool p;
  '(pr, p) ← read_bool p; '(pos, p) ← read_pos p;
  Some (CaseStatement.mk k d u pr pos, p).

Definition read_signal : Reader SignalDecl.t := fun p =>
  '(n, p) ← read_string p; '(ty, p) ← read_string p; '(pos, p) ← read_pos p;
  Some (SignalDecl.mk n ty pos, p).

Definition read_generate : Reader GenerateBlock.t := fun p =>
  '(l, p) ← read_string p; '(b, p) ← read_bool p; '(pos, p) ← read_pos p;
  Some (GenerateBlock.mk l b pos, p).

Definition read_labeled : Reader LabeledBlock.t := fun p =>
  '(b, p) ← read_string p; '(e, p) ← read_string p;
  '(m, p) ← read_bool p; '(pos, p) ← read_pos p;
  Some (LabeledBlock.mk b e m pos, p).

Definition read_diagnostic : Reader Diagnostic.t := fun p =>
  '(m, p) ← read_string p; '(f, p) ← read_string p;
  '(l, p) ← read_int p; '(c, p) ← read_int p;
  Some (Diagnostic.mk m f l c, p).

(** Steps that [return LoomError(LoomError::IO, msg)] when a read fails. *)
Definition Step (T : Type) : Type := list ascii -> Result (T * list ascii).

Definition expect {T} (msg : string) (r : Reader T) : Step T := fun p =>
  match r p with
  | Some x => Ok x
  | None => Err (error2 LoomError.IO msg)
  end.

Definition and_then {A B} (r : Result A) (k : A -> Result B) : Result B :=
  match r with
  | Ok a => k a
  | Err e => Err e
  end.

(** [v.resize(n); for (auto& x : v) ...]: the elements are read in
    order and the first failure ends the loop.  (A count too large to
    allocate makes [resize] throw before anything is read; allocation is
    not modelled.) *)
Fixpoint read_vec {T} (n : nat) (step : Step T) : Step (list T) := fun p =>
  match n with
  | O => Ok ([], p)
  | S n' =>
      and_then (step p) (fun '(x, p) =>
      and_then (read_vec n' step p) (fun '(xs, p) =>
      Ok (x :: xs, p)))
  end.

Definition read_list {T} (count_msg item_msg : string) (r : Reader T) : Step (list T) :=
  fun p =>
    and_then (expect count_msg read_varint p) (fun '(n, p) =>
    read_vec (Z.to_nat n) (expect item_msg r) p).

Definition read_always : Step AlwaysBlock.t := fun p =>
  and_then (expect "Corrupted cache: truncated always block"
                (fun p => '(ak, p) ← read_byte p; '(l, p) ← read_string p;
                          Some ((ak, l), p)) p) (fun '(hd, p) =>
  and_then (read_list "Corrupted cache: truncated assignment count"
                 "Corrupted cache: truncated assignment" read_assignment p) (fun '(asg, p) =>
  and_then (expect "Corrupted cache: truncated always pos" read_pos p) (fun '(pos, p) =>
  Ok (AlwaysBlock.mk (fst hd) (snd hd) asg pos, p)))).

Definition read_unit_header : Reader (string * Z * Z * Z * bool) := fun p =>
  '(n, p) ← read_string p; '(sl, p) ← read_int p; '(el, p) ← read_int p;
  '(d, p) ← read_int p; '(hd, p) ← read_bool p;
  Some ((n, sl, el, d, hd), p).

Definition read_unit : Step DesignUnit.t := fun p =>
  and_then (expect "Corrupted cache: truncated unit kind" read_byte p) (fun '(kind_byte, p) =>
  and_then (expect "Corrupted cache: truncated unit header" read_unit_header p) (fun '(hdr, p) =>
  and_then (read_list "Corrupted cache: truncated port count"
                   "Corrupted cache: truncated port" read_port p) (fun '(ports, p) =>
  and_then (read_list "Corrupted cache: truncated param count"
                    "Corrupted cache: truncated param" read_param p) (fun '(params, p) =>
  and_then (read_list "Corrupted cache: truncated inst count"
                   "Corrupted cache: truncated instantiation" read_instantiation p) (fun '(insts, p) =>
  and_then (read_list "Corrupted cache: truncated import count"
                  "Corrupted cache: truncated import" read_import p) (fun '(imps, p) =>
  and_then (expect "Corrupted cache: truncated always count" read_varint p) (fun '(n, p) =>
  and_then (read_vec (Z.to_nat n) read_always p) (fun '(always, p) =>
  and_then (read_list "Corrupted cache: truncated case count"
                   "Corrupted cache: truncated case statement" read_case p) (fun '(cases, p) =>
  and_then (read_list "Corrupted cache: truncated signal count"
                  "Corrupted cache: truncated signal" read_signal p) (fun '(sigs, p) =>
  and_then (read_list "Corrupted cache: truncated generate count"
                  "Corrupted cache: truncated generate block" read_generate p) (fun '(gens, p) =>
  and_then (read_list "Corrupted cache: truncated labeled count"
                  "Corrupted cache: truncated labeled block" read_labeled p) (fun '(labs, p) =>
  and_then (expect "Corrupted cache: truncated unit pos" read_pos p) (fun '(pos, p) =>
  let '(name, start_line, end_line, depth, has_defparam) := hdr in
  Ok (DesignUnit.mk kind_byte name start_line end_line depth ports params insts imps
        always cases sigs gens labs has_defparam pos, p)))))))))))))).

(** [deserialize_parse_result(data, len)]. *)
Definition deserialize_parse_result (blob : list ascii) : Result ParseResult.t :=
  if negb (bool_decide (take MAGIC_LEN blob = MAGIC))
  then Err (error2 LoomError.Checksum "Invalid cache magic bytes")
  else
    let p := drop MAGIC_LEN blob in
    and_then (expect "Corrupted cache: truncated unit count" read_varint p) (fun '(num_units, p) =>
    and_then (read_vec (Z.to_nat num_units) read_unit p) (fun '(units, p) =>
    and_then (read_list "Corrupted cache: truncated diag count"
                     "Corrupted cache: truncated diagnostic" read_diagnostic p) (fun '(diags, p) =>
    Ok (ParseResult.mk units diags)))).

(** ** What a round trip preserves *)

(** The [file] of a source position is not written; it reads back
    empty. *)
Definition erase_pos (p : SourcePos.t) : SourcePos.t :=
  SourcePos.mk EmptyString (SourcePos.line p) (SourcePos.col p).

Definition erase_port (p : PortDecl.t) : PortDecl.t :=
  PortDecl.mk (PortDecl.name p) (PortDecl.direction p) (PortDecl.type_text p)
    (erase_pos (PortDecl.pos p)).

Definition erase_param (p : ParamDecl.t) : ParamDecl.t :=
  ParamDecl.mk (ParamDecl.name p) (ParamDecl.default_text p) (ParamDecl.is_localparam p)
    (erase_pos (ParamDecl.pos p)).

Definition erase_instantiation (i : Instantiation.t) : Instantiation.t :=
  Instantiation.mk (Instantiation.module_name i) (Instantiation.instance_name i)
    (Instantiation.is_parameterized i) (erase_pos (Instantiation.pos i)).

Definition erase_import (i : ImportDecl.t) : ImportDecl.t :=
  ImportDecl.mk (ImportDecl.package_name i) (ImportDecl.symbol i)
    (ImportDecl.is_wildcard i) (erase_pos (ImportDecl.pos i)).

Definition erase_assignment (a : Assignment.t) : Assignment.t :=
  Assignment.mk (Assignment.is_blocking a) (Assignment.target a)
    (erase_pos (Assignment.pos a)).

Definition erase_always (ab : AlwaysBlock.t) : AlwaysBlock.t :=
  AlwaysBlock.mk (AlwaysBlock.kind ab) (AlwaysBlock.label ab)
    (map erase_assignment (AlwaysBlock.assignments ab)) (erase_pos (AlwaysBlock.pos ab)).

Definition erase_case (cs : CaseStatement.t) : CaseStatement.t :=
  CaseStatement.mk (CaseStatement.kind cs) (CaseStatement.has_default cs)
    (CaseStatement.is_unique cs) (CaseStatement.is_priority cs)
    (erase_pos (CaseStatement.pos cs)).

Definition erase_signal (sg : SignalDecl.t) : SignalDecl.t :=
  SignalDecl.mk (SignalDecl.name sg) (SignalDecl.type_text sg)
    (erase_pos (SignalDecl.pos sg)).

Definition erase_generate (g : GenerateBlock.t) : GenerateBlock.t :=
  GenerateBlock.mk (GenerateBlock.label g) (GenerateBlock.has_label g)
    (erase_pos (GenerateBlock.pos g)).

Definition erase_labeled (lb : LabeledBlock.t) : LabeledBlock.t :=
  LabeledBlock.mk (LabeledBlock.begin_label lb) (LabeledBlock.end_label lb)
    (LabeledBlock.labels_match lb) (erase_pos (LabeledBlock.pos lb)).

Definition erase_unit (u : DesignUnit.t) : DesignUnit.t :=
  DesignUnit.mk (DesignUnit.kind u) (DesignUnit.name u) (DesignUnit.start_line u)
    (DesignUnit.end_line u) (DesignUnit.depth u)
    (map erase_port (DesignUnit.ports u))
    (map erase_param (DesignUnit.params u))
    (map erase_instantiation (DesignUnit.instantiations u))
    (map erase_import (DesignUnit.imports u))
    (map erase_always (DesignUnit.always_blocks u))
    (map erase_case (DesignUnit.case_statements u))
    (map erase_signal (DesignUnit.signals u))
    (map erase_generate (DesignUnit.generate_blocks u))
    (map erase_labeled (DesignUnit.labeled_blocks u))
    (DesignUnit.has_defparam u)
    (erase_pos (DesignUnit.pos u)).

Definition erase_files (pr : ParseResult.t) : ParseResult.t :=
  ParseResult.mk (map erase_unit (ParseResult.units pr)) (ParseResult.diagnostics pr).

(** A valid [ParseResult]: every [int] is an [int], every length a
    [size_t], every kind one of its enumerators. *)
Definition valid_list {T} (v : T -> bool) (l : list T) : bool :=
  valid_size (length l) && forallb v l.

Definition valid_pos (p : SourcePos.t) : bool :=
  valid_int (SourcePos.line p) && valid_int (SourcePos.col p).

Definition valid_port (p : PortDecl.t) : bool :=
  valid_string (PortDecl.name p) && valid_tag PortDirection.last (PortDecl.direction p)
  && valid_string (PortDecl.type_text p) && valid_pos (PortDecl.pos p).

Definition valid_param (p : ParamDecl.t) : bool :=
  valid_string (ParamDecl.name p) && valid_string (ParamDecl.default_text p)
  && valid_pos (ParamDecl.pos p).

Definition valid_instantiation (i : Instantiation.t) : bool :=
  valid_string (Instantiation.module_name i)
  && valid_string (Instantiation.instance_name i) && valid_pos (Instantiation.pos i).

Definition valid_import (i : ImportDecl.t) : bool :=
  valid_string (ImportDecl.package_name i) && valid_string (ImportDecl.symbol i)
  && valid_pos (ImportDecl.pos i).

Definition valid_assignment (a : Assignment.t) : bool :=
  valid_string (Assignment.target a) && valid_pos (Assignment.pos a).

Definition valid_always (ab : AlwaysBlock.t) : bool :=
  valid_tag AlwaysKind.last (AlwaysBlock.kind ab) && valid_string (AlwaysBlock.label ab)
  && valid_list valid_assignment (AlwaysBlock.assignments ab)
  && valid_pos (AlwaysBlock.pos ab).

Definition valid_case (cs : CaseStatement.t) : bool :=
  valid_tag CaseKind.last (CaseStatement.kind cs) && valid_pos (CaseStatement.pos cs).

Definition valid_signal (sg : SignalDecl.t) : bool :=
  valid_string (SignalDecl.name sg) && valid_string (SignalDecl.type_text sg)
  && valid_pos (SignalDecl.pos sg).

Definition valid_generate (g : GenerateBlock.t) : bool :=
  valid_string (GenerateBlock.label g) && valid_pos (GenerateBlock.pos g).

Definition valid_labeled (lb : LabeledBlock.t) : bool :=
  valid_string (LabeledBlock.begin_label lb) && valid_string (LabeledBlock.end_label lb)
  && valid_pos (LabeledBlock.pos lb).

Definition valid_unit (u : DesignUnit.t) : bool :=
  valid_tag DesignUnitKind.last (DesignUnit.kind u) && valid_string (DesignUnit.name u)
  && valid_int (DesignUnit.start_line u) && valid_int (DesignUnit.end_line u)
  && valid_int (DesignUnit.depth u)
  && valid_list valid_port (DesignUnit.ports u)
  && valid_list valid_param (DesignUnit.params u)
  && valid_list valid_instantiation (DesignUnit.instantiations u)
  && valid_list valid_import (DesignUnit.imports u)
  && valid_list valid_always (DesignUnit.always_blocks u)
  && valid_list valid_case (DesignUnit.case_statements u)
  && valid_list valid_signal (DesignUnit.signals u)
  && valid_list valid_generate (DesignUnit.generate_blocks u)
  && valid_list valid_labeled (DesignUnit.labeled_blocks u)
  && valid_pos (DesignUnit.pos u).

Definition valid_diagnostic (d : Diagnostic.t) : bool :=
  valid_string (Diagnostic.message d) && valid_string (Diagnostic.file d)
  && valid_int (Diagnostic.line d) && valid_int (Diagnostic.col d).

Definition valid_parse_result (pr : ParseResult.t) : bool :=
  valid_list valid_unit (ParseResult.units pr)
  && valid_list valid_diagnostic (ParseResult.diagnostics pr).

(** ** Round trips *)

Ltac split_valid :=
  repeat match goal with
  | H : _ && _ = true |- _ => apply andb_prop in H; destruct H
  end.

Ltac read_back :=
  repeat rewrite <- app_assoc;
  unfold expect; cbn beta;
  repeat first
    [ rewrite read_string_write by assumption
    | rewrite read_int_write by assumption
    | rewrite read_bool_write
    | rewrite (read_byte_write PortDirection.last) by (reflexivity || assumption)
    | rewrite (read_byte_write CaseKind.last) by (reflexivity || assumption)
    | rewrite (read_byte_write AlwaysKind.last) by (reflexivity || assumption)
    | progress cbn [mbind option_bind and_then fst snd] ].

Lemma read_pos_write (pos : SourcePos.t) (rest : list ascii) :
  valid_pos pos = true -> read_pos (write_pos pos ++ rest) = Some (erase_pos pos, rest).
Proof.
  unfold valid_pos, read_pos, write_pos. intros H. split_valid. now read_back.
Qed.

Ltac read_elem :=
  intros; split_valid; read_back;
  rewrite read_pos_write by assumption; read_back; reflexivity.

Lemma read_port_write (x : PortDecl.t) (rest : list ascii) :
  valid_port x = true -> read_port (write_port x ++ rest) = Some (erase_port x, rest).
Proof. unfold valid_port, read_port, write_port. read_elem. Qed.

Lemma read_param_write (x : ParamDecl.t) (rest : list ascii) :
  valid_param x = true -> read_param (write_param x ++ rest) = Some (erase_param x, rest).
Proof. unfold valid_param, read_param, write_param. read_elem. Qed.

Lemma read_instantiation_write (x : Instantiation.t) (rest : list ascii) :
  valid_instantiation x = true ->
  read_instantiation (write_instantiation x ++ rest) = Some (erase_instantiation x, rest).
Proof. unfold valid_instantiation, read_instantiation, write_instantiation. read_elem. Qed.

Lemma read_import_write (x : ImportDecl.t) (rest : list ascii) :
  valid_import x = true -> read_import (write_import x ++ rest) = Some (erase_import x, rest).
Proof. unfold valid_import, read_import, write_import. read_elem. Qed.

Lemma read_assignment_write (x : Assignment.t) (rest : list ascii) :
  valid_assignment x = true ->
  read_assignment (write_assignment x ++ rest) = Some (erase_assignment x, rest).
Proof. unfold valid_assignment, read_assignment, write_assignment. read_elem. Qed.

Lemma read_case_write (x : CaseStatement.t) (rest : list ascii) :
  valid_case x = true -> read_case (write_case x ++ rest) = Some (erase_case x, rest).
Proof. unfold valid_case, read_case, write_case. read_elem. Qed.

Lemma read_signal_write (x : SignalDecl.t) (rest : list ascii) :
  valid_signal x = true -> read_signal (write_signal x ++ rest) = Some (erase_signal x, rest).
Proof. unfold valid_signal, read_signal, write_signal. read_elem. Qed.

Lemma read_generate_write (x : GenerateBlock.t) (rest : list ascii) :
  valid_generate x = true ->
  read_generate (write_generate x ++ rest) = Some (erase_generate x, rest).
Proof. unfold valid_generate, read_generate, write_generate. read_elem. Qed.

Lemma read_labeled_write (x : LabeledBlock.t) (rest : list ascii) :
  valid_labeled x = true ->
  read_labeled (write_labeled x ++ rest) = Some (erase_labeled x, rest).
Proof. unfold valid_labeled, read_labeled, write_labeled. read_elem. Qed.

Lemma read_diagnostic_write (x : Diagnostic.t) (rest : list ascii) :
  valid_diagnostic x = true ->
  read_diagnostic (write_diagnostic x ++ rest) = Some (x, rest).
Proof.
  unfold valid_diagnostic, read_diagnostic, write_diagnostic.
  intros. split_valid. read_back. now destruct x.
Qed.

Lemma read_vec_write {T} (w : T -> list ascii) (step : Step T) (norm : T -> T)
    (v : T -> bool) (l : list T) :
  (forall x rest, v x = true -> step (w x ++ rest) = Ok (norm x, rest)) ->
  forallb v l = true ->
  forall rest,
    read_vec (length l) step (concat (map w l) ++ rest) = Ok (map norm l, rest).
Proof.
  intros Hstep. induction l as [|x l IH]; intros Hv rest; [reflexivity|].
  cbn [forallb] in Hv. apply andb_prop in Hv as [Hx Hl].
  cbn [length map concat read_vec]. rewrite <- app_assoc.
  rewrite (Hstep x _ Hx). cbn [and_then]. rewrite (IH Hl). reflexivity.
Qed.

Lemma read_list_write {T} (w : T -> list ascii) (r : Reader T) (norm : T -> T)
    (v : T -> bool) (count_msg item_msg : string) (l : list T) (rest : list ascii) :
  (forall x rest, v x = true -> r (w x ++ rest) = Some (norm x, rest)) ->
  valid_list v l = true ->
  read_list count_msg item_msg r (write_list w l ++ rest) = Ok (map norm l, rest).
Proof.
  intros Hr Hv. unfold valid_list in Hv. apply andb_prop in Hv as [Hn Hl].
  unfold read_list, write_list, expect. rewrite <- app_assoc.
  rewrite read_size_write by exact Hn. cbn [and_then]. rewrite Nat2Z.id.
  apply (read_vec_write w _ norm v); [|exact Hl].
  intros x rest' Hx. now rewrite (Hr x rest' Hx).
Qed.

Lemma read_always_write (x : AlwaysBlock.t) (rest : list ascii) :
  valid_always x = true ->
  read_always (write_always x ++ rest) = Ok (erase_always x, rest).
Proof.
  unfold valid_always, read_always, write_always. intros. split_valid. read_back.
  rewrite (read_list_write write_assignment read_assignment erase_assignment
             valid_assignment) by (assumption || exact read_assignment_write).
  read_back. rewrite read_pos_write by assumption. read_back. reflexivity.
Qed.

Lemma read_unit_write (u : DesignUnit.t) (rest : list ascii) :
  valid_unit u = true -> read_unit (write_unit u ++ rest) = Ok (erase_unit u, rest).
Proof.
  unfold valid_unit, read_unit, read_unit_header, write_unit. intros. split_valid.
  repeat rewrite <- app_assoc. unfold expect. cbn beta.
  rewrite (read_byte_write DesignUnitKind.last) by (reflexivity || assumption).
  read_back.
  rewrite (read_list_write write_port read_port erase_port valid_port)
    by (assumption || exact read_port_write). read_back.
  rewrite (read_list_write write_param read_param erase_param valid_param)
    by (assumption || exact read_param_write). read_back.
  rewrite (read_list_write write_instantiation read_instantiation erase_instantiation
             valid_instantiation)
    by (assumption || exact read_instantiation_write). read_back.
  rewrite (read_list_write write_import read_import erase_import valid_import)
    by (assumption || exact read_import_write). read_back.
  match goal with
  | H : valid_list valid_always _ = true |- _ =>
      unfold valid_list in H; apply andb_prop in H as [Hn Hl]
  end.
  unfold write_list at 1. rewrite <- app_assoc.
  rewrite read_size_write by exact Hn. read_back. rewrite Nat2Z.id.
  rewrite (read_vec_write write_always read_always erase_always valid_always)
    by (assumption || exact read_always_write). read_back.
  rewrite (read_list_write write_case read_case erase_case valid_case)
    by (assumption || exact read_case_write). read_back.
  rewrite (read_list_write write_signal read_signal erase_signal valid_signal)
    by (assumption || exact read_signal_write). read_back.
  rewrite (read_list_write write_generate read_generate erase_generate valid_generate)
    by (assumption || exact read_generate_write). read_back.
  rewrite (read_list_write write_labeled read_labeled erase_labeled valid_labeled)
    by (assumption || exact read_labeled_write). read_back.
  rewrite read_pos_write by assumption. read_back. reflexivity.
Qed.

Lemma map_id_ext {T} (l : list T) : map (fun x => x) l = l.
Proof. induction l as [|x l IH]; simpl; [reflexivity|]. now rewrite IH. Qed.

Lemma deserialize_serialize (pr : ParseResult.t) :
  valid_parse_result pr = true ->
  deserialize_parse_result (serialize_parse_result pr) = Ok (erase_files pr).
Proof.
  unfold valid_parse_result. intros H. apply andb_prop in H as [Hu Hd].
  unfold deserialize_parse_result, serialize_parse_result.
  change (take MAGIC_LEN (MAGIC ++ ?l)) with MAGIC.
  change (drop MAGIC_LEN (MAGIC ++ ?l)) with l.
  rewrite bool_decide_eq_true_2 by reflexivity. cbn [negb].
  unfold valid_list in Hu. apply andb_prop in Hu as [Hn Hl].
  unfold write_list at 1. rewrite <- app_assoc. unfold expect at 1.
  rewrite read_size_write by exact Hn. cbn [and_then]. rewrite Nat2Z.id.
  rewrite (read_vec_write write_unit read_unit erase_unit valid_unit)
    by (assumption || exact read_unit_write).
  cbn [and_then].
  rewrite <- (app_nil_r (write_list write_diagnostic _)).
  rewrite (read_list_write write_diagnostic read_diagnostic (fun x => x) valid_diagnostic)
    by (assumption || exact read_diagnostic_write).
  cbn [and_then]. unfold erase_files. now rewrite map_id_ext.
Qed.

Lemma wrong_magic (blob : list ascii) :
  take MAGIC_LEN blob <> MAGIC ->
  deserialize_parse_result blob
  = Err (error2 LoomError.Checksum "Invalid cache magic bytes").
Proof.
  intros H. unfold deserialize_parse_result.
  now rewrite bool_decide_eq_false_2 by exact H.
Qed.

(** A result whose only unit was parsed from [a.v]. *)
Definition unit_a : DesignUnit.t :=
  DesignUnit.mk DesignUnitKind.Module_ "a" 1 3 0
    [PortDecl.mk "clk" PortDirection.Input "wire" (SourcePos.mk "a.v" 1 10)]
    [] [] []
    [AlwaysBlock.mk AlwaysKind.Ff "p"
       [Assignment.mk false "q" (SourcePos.mk "a.v" 2 5)] (SourcePos.mk "a.v" 2 1)]
    [] [] [] [] false (SourcePos.mk "a.v" 1 1).

Definition result_a : ParseResult.t :=
  ParseResult.mk [unit_a] [Diagnostic.mk "unused signal" "a.v" 2 (-1)].

(** C4, as stated, fails: the [file] of the stored positions does not
    survive the round trip. *)
Lemma roundtrip_loses_file :
  valid_parse_result result_a = true
  /\ deserialize_parse_result (serialize_parse_result result_a) = Ok (erase_files result_a)
  /\ SourcePos.file (DesignUnit.pos unit_a) = "a.v"
  /\ (forall u, u ∈ ParseResult.units (erase_files result_a) ->
        SourcePos.file (DesignUnit.pos u) = EmptyString)
  /\ erase_files result_a <> result_a.
Proof.
  split; [vm_compute; reflexivity|]. split; [vm_compute; reflexivity|].
  split; [reflexivity|]. split; [|discriminate].
  intros u Hu. apply list_elem_of_singleton in Hu. now subst u.
Qed.

(** C4, amended.  For every valid [ParseResult] [x],
    [deserialize(serialize(x))] succeeds and equals [x] with the [file] of
    every source position emptied (line and column, all other fields and
    the diagnostics with their file names are kept); and a blob whose
    first four bytes are not the magic yields the Checksum error. *)
Theorem parse_result_roundtrip (x : ParseResult.t) :
  valid_parse_result x = true ->
  deserialize_parse_result (serialize_parse_result x) = Ok (erase_files x)
  /\ ParseResult.diagnostics (erase_files x) = ParseResult.diagnostics x
  /\ forall blob, take MAGIC_LEN blob <> MAGIC ->
        deserialize_parse_result blob
        = Err (error2 LoomError.Checksum "Invalid cache magic bytes").
Proof.
  intros Hv. split; [now apply deserialize_serialize|]. split; [reflexivity|].
  exact wrong_magic.
Qed.

Lemma parse_result_roundtrip_witness :
  deserialize_parse_result (serialize_parse_result result_a) = Ok (erase_files result_a)
  /\ ParseResult.diagnostics (erase_files result_a) = ParseResult.diagnostics result_a
  /\ forall blob, take MAGIC_LEN blob <> MAGIC ->
        deserialize_parse_result blob
        = Err (error2 LoomError.Checksum "Invalid cache magic bytes").
Proof. apply (parse_result_roundtrip result_a). vm_compute. reflexivity. Defined.

End Blob.

(* ===================================================================== *)
(** * Ranges of the caret and tilde constraints ([version.cpp]) *)
(* ===================================================================== *)

Module ConstraintRange.

Import VersionOrder.

(** The exclusive upper bounds the comments of [VersionConstraint::matches]
    give: [^X.Y.Z (X>0): <(X+1).0.0], [^0.Y.Z (Y>0): <0.(Y+1).0],
    [^0.0.Z]: only [0.0.Z], and [~X.Y.Z: <X.(Y+1).0]. *)
Definition caret_upper (c : VersionConstraint.t) : Version.t :=
  if VersionConstraint.req_major c >? 0
  then Version.mk (VersionConstraint.req_major c + 1) 0 0 EmptyString
  else if VersionConstraint.req_minor c >? 0
  then Version.mk 0 (VersionConstraint.req_minor c + 1) 0 EmptyString
  else Version.mk 0 0 (VersionConstraint.req_micro c + 1) EmptyString.

Definition tilde_upper (c : VersionConstraint.t) : Version.t :=
  Version.mk (VersionConstraint.req_major c) (VersionConstraint.req_minor c + 1) 0
             EmptyString.

Lemma req_minor_nonneg (c : VersionConstraint.t) : 0 <= VersionConstraint.req_minor c.
Proof.
  unfold VersionConstraint.req_minor.
  destruct (Z.geb_spec (PartialVersion.minor (VersionConstraint.version c)) 0); lia.
Qed.

Lemma req_micro_nonneg (c : VersionConstraint.t) : 0 <= VersionConstraint.req_micro c.
Proof.
  unfold VersionConstraint.req_micro.
  destruct (Z.geb_spec (PartialVersion.micro (VersionConstraint.version c)) 0); lia.
Qed.

(** X1. On a release whose minor and micro components are not negative, a
    caret constraint with a non-negative major matches exactly the
    half-open range from the requirement up to the next breaking
    version. *)
Theorem caret_range (c : VersionConstraint.t) (v : Version.t) :
  VersionConstraint.op c = Caret ->
  0 <= VersionConstraint.req_major c ->
  Version.label v = EmptyString ->
  0 <= Version.minor v -> 0 <= Version.micro v ->
  VersionConstraint.matches c v
  = Version.geb v (VersionConstraint.req c) && Version.ltb v (caret_upper c).
Proof.
  intros Hop Hmaj Hl Hmin Hmic.
  pose proof (req_minor_nonneg c) as Hrm. pose proof (req_micro_nonneg c) as Hrc.
  unfold VersionConstraint.matches, caret_upper, Version.geb, VersionConstraint.req.
  rewrite Hop. destruct v as [a b m l]. simpl in *. subst l.
  set (X := VersionConstraint.req_major c) in *.
  set (Y := VersionConstraint.req_minor c) in *.
  set (Z' := VersionConstraint.req_micro c) in *.
  unfold Version.ltb; simpl.
  destruct (Z.gtb_spec X 0); [|destruct (Z.gtb_spec Y 0)]; simpl;
    zcases; try lia; try reflexivity.
Qed.

Lemma caret_range_witness :
  VersionConstraint.matches (VersionConstraint.mk Caret (PartialVersion.mk 0 2 (-1)))
                            (Version.mk 0 2 9 EmptyString) = true
  /\ VersionConstraint.matches (VersionConstraint.mk Caret (PartialVersion.mk 0 2 (-1)))
                               (Version.mk 0 3 0 EmptyString) = false.
Proof.
  split.
  - rewrite (caret_range (VersionConstraint.mk Caret (PartialVersion.mk 0 2 (-1)))
               (Version.mk 0 2 9 EmptyString)); simpl; try reflexivity; lia.
  - rewrite (caret_range (VersionConstraint.mk Caret (PartialVersion.mk 0 2 (-1)))
               (Version.mk 0 3 0 EmptyString)); simpl; try reflexivity; lia.
Defined.

(** X2. On a release whose micro component is not negative, a tilde
    constraint matches exactly the versions from the requirement up to,
    and excluding, the next minor version. *)
Theorem tilde_range (c : VersionConstraint.t) (v : Version.t) :
  VersionConstraint.op c = Tilde ->
  Version.label v = EmptyString ->
  0 <= Version.micro v ->
  VersionConstraint.matches c v
  = Version.geb v (VersionConstraint.req c) && Version.ltb v (tilde_upper c).
Proof.
  intros Hop Hl Hmic.
  unfold VersionConstraint.matches, tilde_upper, Version.geb, VersionConstraint.req.
  rewrite Hop. destruct v as [a b m l]. simpl in *. subst l.
  unfold Version.ltb; simpl.
  zcases; try lia; try reflexivity.
Qed.

Lemma tilde_range_witness :
  VersionConstraint.matches (VersionConstraint.mk Tilde (PartialVersion.mk 1 2 3))
                            (Version.mk 1 2 7 EmptyString) = true
  /\ VersionConstraint.matches (VersionConstraint.mk Tilde (PartialVersion.mk 1 2 3))
                               (Version.mk 1 3 0 EmptyString) = false.
Proof.
  split.
  - rewrite (tilde_range (VersionConstraint.mk Tilde (PartialVersion.mk 1 2 3))
               (Version.mk 1 2 7 EmptyString)); simpl; try reflexivity; lia.
  - rewrite (tilde_range (VersionConstraint.mk Tilde (PartialVersion.mk 1 2 3))
               (Version.mk 1 3 0 EmptyString)); simpl; try reflexivity; lia.
Defined.

End ConstraintRange.

(* ===================================================================== *)
(** * Parsing of version requirements ([version.cpp]) *)
(* ===================================================================== *)

Module VersionReqParse.

Local Open Scope list_scope.

(** [while (pos < s.size() && s[pos] == ' ') ++pos;] *)
Fixpoint skip_blanks (s : string) : string :=
  match s with
  | String c r => if Ascii.eqb c " " then skip_blanks r else s
  | EmptyString => s
  end.

(** [while (!ver_str.empty() && ver_str.back() == ' ') ver_str.pop_back();] *)
Fixpoint trim_back (s : string) : string :=
  match s with
  | EmptyString => EmptyString
  | String c r =>
      let r' := trim_back r in
      if Str.empty r' && Ascii.eqb c " " then EmptyString else String c r'
  end.

(** The operator prefix; without one the operator is the caret. *)
Definition read_op (s : string) : ConstraintOp * string :=
  match s with
  | String "^" r => (Caret, r)
  | String "~" r => (Tilde, r)
  | String "=" r => (Exact, r)
  | String ">" (String "=" r) => (GreaterEq, r)
  | String ">" r => (Greater, r)
  | String "<" (String "=" r) => (LessEq, r)
  | String "<" r => (Less, r)
  | _ => (Caret, s)
  end.

(** [parse_single_constraint]. *)
Definition parse_single_constraint (s : string) : Result VersionConstraint.t :=
  let '(op, rest) := read_op (skip_blanks s) in
  let ver_str := trim_back (skip_blanks rest) in
  if Str.empty ver_str
  then Err (error2 LoomError.Version ("missing version in constraint '" ++ s ++ "'")%string)
  else
    match PartialVersion.parse ver_str with
    | Err e => Err e
    | Ok pv => Ok (VersionConstraint.mk op pv)
    end.

(** The tokens [std::getline(stream, token, ',')] yields: [token] is the
    one being read and [started] tells whether a character was extracted
    for it (at the end of the input a token is returned only then). *)
Fixpoint tokens (s token : string) (started : bool) : list string :=
  match s with
  | EmptyString => if started then [token] else []
  | String c r =>
      if Ascii.eqb c "," then token :: tokens r EmptyString false
      else tokens r (token ++ String c EmptyString)%string true
  end.

(** The [while] loop of [VersionReq::parse]. *)
Fixpoint parse_tokens (ts : list string) (acc : list VersionConstraint.t)
    : Result (list VersionConstraint.t) :=
  match ts with
  | [] => Ok acc
  | tok :: ts' =>
      match parse_single_constraint tok with
      | Err e => Err e
      | Ok c => parse_tokens ts' (acc ++ [c])
      end
  end.

(** [VersionReq::parse]. *)
Definition parse (s : string) : Result VersionReq.t :=
  if Str.empty s then Err (error2 LoomError.Version "empty version requirement") else
  match parse_tokens (tokens s EmptyString false) [] with
  | Err e => Err e
  | Ok cs =>
      match cs with
      | [] => Err (error2 LoomError.Version
                     ("no constraints in version requirement '" ++ s ++ "'")%string)
      | _ => Ok (VersionReq.mk cs)
      end
  end.

Lemma partial_parse_code (s : string) (e : LoomError.t) :
  PartialVersion.parse s = Err e ->
  LoomError.code e = LoomError.Version /\ Str.starts_with "no " (LoomError.message e) = false.
Proof.
  unfold PartialVersion.parse. intros H.
  repeat match type of H with
  | (if ?b then _ else _) = _ => destruct b
  | match ?x with _ => _ end = _ => destruct x
  end; try discriminate; injection H as <-; split; reflexivity.
Qed.

Lemma single_code (s : string) (e : LoomError.t) :
  parse_single_constraint s = Err e ->
  LoomError.code e = LoomError.Version /\ Str.starts_with "no " (LoomError.message e) = false.
Proof.
  unfold parse_single_constraint. destruct (read_op (skip_blanks s)) as [o rest].
  destruct (Str.empty (trim_back (skip_blanks rest))).
  - intros H. injection H as <-. split; reflexivity.
  - destruct (PartialVersion.parse (trim_back (skip_blanks rest))) as [pv|e'] eqn:E;
      [discriminate|].
    intros H. injection H as <-. exact (partial_parse_code _ _ E).
Qed.

Lemma tokens_started (s token : string) : tokens s token true <> [].
Proof.
  revert token. induction s as [|c s IH]; intros token; simpl; [discriminate|].
  destruct (Ascii.eqb c ","); [discriminate | apply IH].
Qed.

Lemma tokens_nonempty (s : string) : s <> EmptyString -> tokens s EmptyString false <> [].
Proof.
  destruct s as [|c s]; [congruence|]. intros _. simpl.
  destruct (Ascii.eqb c ","); [discriminate | apply tokens_started].
Qed.

Lemma parse_tokens_length (ts : list string) : forall acc cs,
  parse_tokens ts acc = Ok cs -> length cs = (length acc + length ts)%nat.
Proof.
  induction ts as [|tok ts IH]; intros acc cs H; simpl in *.
  - injection H as <-. lia.
  - destruct (parse_single_constraint tok) as [c|e]; [|discriminate].
    rewrite (IH _ _ H), length_app. simpl. lia.
Qed.

Lemma parse_tokens_code (ts : list string) : forall acc e,
  parse_tokens ts acc = Err e ->
  LoomError.code e = LoomError.Version /\ Str.starts_with "no " (LoomError.message e) = false.
Proof.
  induction ts as [|tok ts IH]; intros acc e H; simpl in *; [discriminate|].
  destruct (parse_single_constraint tok) as [c|e'] eqn:E.
  - exact (IH _ _ H).
  - injection H as <-. exact (single_code _ _ E).
Qed.

(** X3. [VersionReq::parse] fails with the Version code only, and what it
    accepts has one constraint per comma-separated token, at least one.
    The closing test for an empty constraint list never fires: its
    message, which starts with "no constraints", is never returned. *)
Theorem parse_outcome (s : string) :
  match parse s with
  | Ok r =>
      VersionReq.constraints r <> []
      /\ length (VersionReq.constraints r) = length (tokens s EmptyString false)
  | Err e =>
      LoomError.code e = LoomError.Version
      /\ Str.starts_with "no " (LoomError.message e) = false
  end.
Proof.
  unfold parse. destruct (Str.empty s) eqn:Es; [split; reflexivity|].
  assert (Hne : s <> EmptyString) by (intros ->; discriminate).
  pose proof (tokens_nonempty s Hne) as Htok.
  destruct (parse_tokens (tokens s EmptyString false) []) as [cs|e] eqn:E.
  - pose proof (parse_tokens_length _ _ _ E) as Hlen. simpl in Hlen.
    destruct cs as [|c cs].
    + destruct (tokens s EmptyString false); [congruence|discriminate].
    + split; [discriminate|exact Hlen].
  - exact (parse_tokens_code _ _ _ E).
Qed.


End VersionReqParse.

Module TrailingComma.

Import VersionReqParse.
Local Open Scope list_scope.

(** [!s.empty() && s.back() == ','] *)
Fixpoint ends_with_comma (s : string) : bool :=
  match s with
  | EmptyString => false
  | String c r =>
      match r with
      | EmptyString => Ascii.eqb c ","
      | String _ _ => ends_with_comma r
      end
  end.

Lemma tokens_trailing_comma (s : string) :
  ends_with_comma s = false ->
  (forall tok, tokens (s ++ ",") tok true = tokens s tok true)
  /\ (s <> EmptyString ->
      forall tok, tokens (s ++ ",") tok false = tokens s tok false).
Proof.
  induction s as [|c r IH]; intros He.
  - split; [reflexivity|congruence].
  - assert (Hr : ends_with_comma r = false /\ (Ascii.eqb c "," = true -> r <> EmptyString)).
    { simpl in He. destruct r as [|d r]; [|split; [exact He|discriminate]].
      split; [reflexivity|]. congruence. }
    destruct Hr as [Hr Hne]. destruct (IH Hr) as [IH1 IH2].
    split; [|intros _]; intros tok; rewrite CacheManager.append_cons; simpl;
      destruct (Ascii.eqb c ",") eqn:Ec;
      solve [ f_equal; apply IH2; auto | apply IH1 ].
Qed.

(** X4. A single comma at the very end of a requirement is ignored:
    [VersionReq::parse] gives the same result with and without it. *)
Theorem trailing_comma_ignored (s : string) :
  s <> EmptyString -> ends_with_comma s = false ->
  parse (s ++ ",") = parse s.
Proof.
  intros Hne He. unfold parse.
  assert (E1 : Str.empty (s ++ ",") = false) by (destruct s; [congruence|reflexivity]).
  assert (E2 : Str.empty s = false) by (destruct s; [congruence|reflexivity]).
  rewrite E1, E2, (proj2 (tokens_trailing_comma s He) Hne).
  destruct (parse_tokens (tokens s EmptyString false) []) as [cs|e] eqn:E; [|reflexivity].
  destruct cs as [|c cs]; [|reflexivity].
  apply parse_tokens_length in E. simpl in E.
  pose proof (tokens_nonempty s Hne) as Ht.
  destruct (tokens s EmptyString false); [congruence|discriminate].
Qed.

Lemma trailing_comma_ignored_witness :
  parse ">=1.2, <2," = parse ">=1.2, <2".
Proof. apply (trailing_comma_ignored ">=1.2, <2"); [discriminate|reflexivity]. Defined.

(** An empty token anywhere else is refused. *)
Example inner_empty_token :
  is_err (parse ">=1.2,, <2") = true /\ is_err (parse ",") = true.
Proof. split; reflexivity. Qed.

End TrailingComma.

(* ===================================================================== *)
(** * Printing and re-reading numbers and versions ([version.cpp]) *)
(* ===================================================================== *)

Module Numerals.

Local Open Scope list_scope.

(** Every character of [s] satisfies [p]. *)
Fixpoint all_chars (p : ascii -> bool) (s : string) : bool :=
  match s with
  | EmptyString => true
  | String c r => p c && all_chars p r
  end.

Definition is_digit (c : ascii) : bool :=
  match Str.digit_value c with Some _ => true | None => false end.

Lemma append_nil_l (b : string) : (EmptyString ++ b)%string = b.
Proof. reflexivity. Qed.

Lemma all_chars_app (p : ascii -> bool) (a b : string) :
  all_chars p (a ++ b) = all_chars p a && all_chars p b.
Proof.
  induction a as [|c a IH]; [reflexivity|].
  rewrite CacheManager.append_cons. simpl. now rewrite IH, andb_assoc.
Qed.

Lemma all_chars_weaken (p q : ascii -> bool) (s : string) :
  (forall c, p c = true -> q c = true) -> all_chars p s = true -> all_chars q s = true.
Proof.
  intros Hpq. induction s as [|c s IH]; simpl; [reflexivity|].
  intros H. apply andb_prop in H as [Hc Hs]. now rewrite (Hpq c Hc), IH.
Qed.

(** [digits] runs through a block of digits and goes on behind it. *)
Lemma digits_app (a rest : string) : forall acc,
  all_chars is_digit a = true ->
  Str.digits (a ++ rest) acc = Str.digits rest (Str.digits a acc).
Proof.
  induction a as [|c a IH]; intros acc H; [reflexivity|].
  rewrite CacheManager.append_cons. simpl in *. apply andb_prop in H as [Hc Ha].
  unfold is_digit in Hc. destruct (Str.digit_value c) as [d|]; [|discriminate].
  now apply IH.
Qed.

(** Value of a decimal numeral read from the left. *)
Fixpoint uint_value (d : Decimal.uint) (acc : Z) : Z :=
  match d with
  | Decimal.Nil => acc
  | Decimal.D0 l => uint_value l (10 * acc + 0)
  | Decimal.D1 l => uint_value l (10 * acc + 1)
  | Decimal.D2 l => uint_value l (10 * acc + 2)
  | Decimal.D3 l => uint_value l (10 * acc + 3)
  | Decimal.D4 l => uint_value l (10 * acc + 4)
  | Decimal.D5 l => uint_value l (10 * acc + 5)
  | Decimal.D6 l => uint_value l (10 * acc + 6)
  | Decimal.D7 l => uint_value l (10 * acc + 7)
  | Decimal.D8 l => uint_value l (10 * acc + 8)
  | Decimal.D9 l => uint_value l (10 * acc + 9)
  end.

Lemma uint_value_acc (d : Decimal.uint) : forall acc : positive,
  Z.pos (Pos.of_uint_acc d acc) = uint_value d (Z.pos acc).
Proof.
  induction d; intros acc; simpl; try reflexivity; rewrite IHd; f_equal; lia.
Qed.

Lemma uint_value_of_uint (d : Decimal.uint) : Z.of_N (Pos.of_uint d) = uint_value d 0.
Proof.
  induction d; simpl; try reflexivity; try exact IHd; apply uint_value_acc.
Qed.

Lemma string_of_uint_digits (d : Decimal.uint) :
  all_chars is_digit (NilEmpty.string_of_uint d) = true.
Proof. induction d; simpl; try reflexivity; exact IHd. Qed.

Lemma digits_string_of_uint (d : Decimal.uint) : forall a,
  Str.digits (NilEmpty.string_of_uint d) (Some a) = Some (uint_value d a).
Proof. induction d; intros a; simpl; try reflexivity; apply IHd. Qed.

Lemma digits_string_of_uint_start (d : Decimal.uint) :
  d <> Decimal.Nil ->
  Str.digits (NilEmpty.string_of_uint d) None = Some (uint_value d 0).
Proof. destruct d; intros H; try congruence; simpl; apply digits_string_of_uint. Qed.

(** What [std::to_string] prints for a number that is not negative: a
    non-empty block of digits whose value is the number. *)
Lemma to_string_int_spec (z : Z) :
  0 <= z ->
  to_string_int z <> EmptyString
  /\ all_chars is_digit (to_string_int z) = true
  /\ Str.digits (to_string_int z) None = Some z.
Proof.
  intros Hz. unfold to_string_int. destruct z as [|p|p]; [| |lia].
  - repeat split. discriminate.
  - simpl. pose proof (DecimalPos.Unsigned.to_uint_nonnil p) as Hnn.
    assert (E : NilZero.string_of_uint (Pos.to_uint p)
                = NilEmpty.string_of_uint (Pos.to_uint p)).
    { destruct (Pos.to_uint p); try reflexivity. congruence. }
    rewrite E. split; [|split].
    + destruct (Pos.to_uint p); solve [discriminate | congruence].
    + apply string_of_uint_digits.
    + rewrite (digits_string_of_uint_start _ Hnn), <- uint_value_of_uint.
      now rewrite DecimalPos.Unsigned.of_to.
Qed.

(** [std::stoi] on a block of digits. *)
Lemma stoi_digits (a : string) (z : Z) :
  a <> EmptyString -> all_chars is_digit a = true ->
  Str.digits a None = Some z -> 0 <= z <= Str.INT_MAX ->
  Str.stoi a = Some z.
Proof.
  intros Hne Hd Hv Hr. destruct a as [|c a]; [congruence|].
  simpl in Hd. apply andb_prop in Hd as [Hc _].
  assert (Hs : Str.skip_space (String c a) = String c a
               /\ match String c a with
                  | String "-" r => (true, r)
                  | String "+" r => (false, r)
                  | _ => (false, String c a)
                  end = (false, String c a)).
  { destruct c as [[] [] [] [] [] [] [] []]; try discriminate Hc; split; reflexivity. }
  destruct Hs as [Hs1 Hs2]. unfold Str.stoi. rewrite Hs1.
  cbv zeta. rewrite Hs2, Hv.
  unfold Str.INT_MIN, Str.INT_MAX in *.
  destruct (Z.leb_spec (-2147483648) z); [|lia].
  destruct (Z.leb_spec z 2147483647); [reflexivity|lia].
Qed.

Lemma stoi_to_string_int (z : Z) :
  0 <= z <= Str.INT_MAX -> Str.stoi (to_string_int z) = Some z.
Proof.
  intros Hz. destruct (to_string_int_spec z) as (H1 & H2 & H3); [lia|].
  now apply stoi_digits.
Qed.

End Numerals.

Module StrFacts.

Import Numerals.
Local Open Scope nat_scope.

Definition differs (c : ascii) (x : ascii) : bool := negb (Ascii.eqb x c).

Lemma drop_app_length (a b : string) : Str.drop (String.length a) (a ++ b) = b.
Proof. induction a as [|c a IH]; [reflexivity|]. rewrite CacheManager.append_cons. exact IH. Qed.

Lemma length_append (a b : string) :
  String.length (a ++ b) = String.length a + String.length b.
Proof.
  induction a as [|c a IH]; [reflexivity|].
  rewrite CacheManager.append_cons. simpl. now rewrite IH.
Qed.

Lemma drop_drop (p q : nat) : forall s, Str.drop (p + q) s = Str.drop q (Str.drop p s).
Proof.
  induction p as [|p IH]; intros s; [reflexivity|].
  destruct s as [|c s]; simpl; [now destruct q|apply IH].
Qed.

Lemma substring_drop (pos n : nat) : forall s,
  substring pos n s = substring 0 n (Str.drop pos s).
Proof.
  induction pos as [|pos IH]; intros s; [reflexivity|].
  destruct s as [|c s]; simpl; [now destruct n|apply IH].
Qed.

Lemma substring_app_length (a b : string) : substring 0 (String.length a) (a ++ b) = a.
Proof.
  induction a as [|c a IH]; [now destruct b|].
  rewrite CacheManager.append_cons. simpl. now rewrite IH.
Qed.

Lemma find_from_head_app (c : ascii) (a r : string) :
  all_chars (differs c) a = true ->
  Str.find_from_head c (a ++ r)
  = match Str.find_from_head c r with
    | Some k => Some (String.length a + k)
    | None => None
    end.
Proof.
  induction a as [|x a IH]; intros H.
  - rewrite append_nil_l. now destruct (Str.find_from_head c r).
  - rewrite CacheManager.append_cons. simpl in *. apply andb_prop in H as [Hx Ha].
    unfold differs in Hx. destruct (Ascii.eqb x c); [discriminate|].
    rewrite (IH Ha). now destruct (Str.find_from_head c r).
Qed.

(** [s.find(c, pos)] when the text from [pos] on is [a], then [c]. *)
Lemma find_at (s a r : string) (c : ascii) (pos : nat) :
  Str.drop pos s = (a ++ String c r)%string -> all_chars (differs c) a = true ->
  Str.find s c pos = Some (pos + String.length a).
Proof.
  intros Hd Ha. unfold Str.find. rewrite Hd, (find_from_head_app c a _ Ha). simpl.
  rewrite Ascii.eqb_refl. f_equal. lia.
Qed.

Lemma find_none (s : string) (c : ascii) (pos : nat) :
  all_chars (differs c) (Str.drop pos s) = true -> Str.find s c pos = None.
Proof.
  intros Ha. unfold Str.find.
  rewrite <- (CacheManager.append_empty_r (Str.drop pos s)).
  now rewrite (find_from_head_app c _ _ Ha).
Qed.

(** [s.substr(pos, n)] when the text from [pos] on starts with [a], of
    length [n]. *)
Lemma substr_at (s a r : string) (pos n : nat) :
  Str.drop pos s = (a ++ r)%string -> n = String.length a ->
  Str.substr s pos n = a.
Proof.
  intros Hd ->. unfold Str.substr.
  now rewrite substring_drop, Hd, substring_app_length.
Qed.

Lemma drop_past (s a r : string) (c : ascii) (pos : nat) :
  Str.drop pos s = (a ++ String c r)%string ->
  Str.drop (pos + String.length a + 1) s = r.
Proof.
  intros Hd. rewrite <- Nat.add_assoc, drop_drop, Hd, drop_drop, drop_app_length.
  reflexivity.
Qed.

Lemma digit_differs (c : ascii) (s : string) :
  is_digit c = false -> all_chars is_digit s = true -> all_chars (differs c) s = true.
Proof.
  intros Hc. apply all_chars_weaken. intros x Hx. unfold differs.
  destruct (Ascii.eqb_spec x c) as [->|]; [congruence|reflexivity].
Qed.

End StrFacts.

Module VersionRoundTrip.

Import Numerals StrFacts.

(** A component [std::stoi] reads back: not negative and within [int]. *)
Definition component (z : Z) : Prop := 0 <= z <= Str.INT_MAX.

Definition valid (v : Version.t) : Prop :=
  component (Version.major v) /\ component (Version.minor v)
  /\ component (Version.micro v).

Lemma to_string_shape (v : Version.t) :
  Version.to_string v
  = (to_string_int (Version.major v)
     ++ String "." (to_string_int (Version.minor v)
     ++ String "." (to_string_int (Version.micro v)
     ++ (if Str.empty (Version.label v) then EmptyString
         else String "-" (Version.label v)))))%string.
Proof.
  unfold Version.to_string. destruct (Str.empty (Version.label v)); simpl negb; cbv iota.
  - rewrite !CacheManager.append_cons, !append_nil_l.
    now rewrite CacheManager.append_empty_r.
  - rewrite !CacheManager.append_cons, !append_nil_l.
    repeat (rewrite CacheManager.append_assoc || rewrite CacheManager.append_cons).
    reflexivity.
Qed.

Lemma parse_printed (v : Version.t) :
  valid v -> Version.parse (Version.to_string v) = Ok v.
Proof.
  intros (Ha & Hb & Hc). unfold component in *.
  destruct (to_string_int_spec (Version.major v)) as (A1 & A2 & A3); [lia|].
  destruct (to_string_int_spec (Version.minor v)) as (B1 & B2 & B3); [lia|].
  destruct (to_string_int_spec (Version.micro v)) as (C1 & C2 & C3); [lia|].
  rewrite to_string_shape.
  set (A := to_string_int (Version.major v)) in *.
  set (B := to_string_int (Version.minor v)) in *.
  set (C := to_string_int (Version.micro v)) in *.
  set (T := if Str.empty (Version.label v) then EmptyString
            else String "-" (Version.label v)).
  set (s := (A ++ String "." (B ++ String "." (C ++ T)))%string).
  assert (D0 : Str.drop 0 s = (A ++ String "." (B ++ String "." (C ++ T)))%string)
    by reflexivity.
  pose proof (drop_past s A _ "." 0 D0) as D1. simpl Nat.add in D1.
  pose proof (drop_past s B _ "." _ D1) as D2.
  unfold Version.parse.
  assert (Es : Str.empty s = false).
  { unfold s. destruct A; [congruence|reflexivity]. }
  rewrite Es.
  rewrite (find_at s A _ "." 0 D0) by (now apply digit_differs).
  cbv zeta. simpl Nat.add.
  rewrite (substr_at s A _ 0 _ D0) by lia.
  rewrite (stoi_digits A _ A1 A2 A3) by lia.
  rewrite (find_at s B _ "." _ D1) by (now apply digit_differs).
  rewrite (substr_at s B _ _ _ D1) by lia.
  rewrite (stoi_digits B _ B1 B2 B3) by lia.
  set (pos := (String.length A + 1 + String.length B + 1)%nat) in *.
  unfold T in *. destruct (Str.empty (Version.label v)) eqn:El.
  - rewrite CacheManager.append_empty_r in D2.
    rewrite (find_none s "-" pos) by (rewrite D2; now apply digit_differs).
    rewrite D2, (stoi_digits C _ C1 C2 C3) by lia.
    unfold Version.finish. simpl.
    destruct (Z.ltb_spec (Version.major v) 0); [lia|].
    destruct (Z.ltb_spec (Version.minor v) 0); [lia|].
    destruct (Z.ltb_spec (Version.micro v) 0); [lia|]. simpl.
    destruct v as [a b c l]. simpl in *. destruct l; [reflexivity|discriminate].
  - rewrite (find_at s C _ "-" _ D2) by (now apply digit_differs).
    rewrite (substr_at s C _ _ _ D2) by lia.
    rewrite (stoi_digits C _ C1 C2 C3) by lia.
    rewrite (drop_past s C _ "-" _ D2), El.
    unfold Version.finish. simpl.
    destruct (Z.ltb_spec (Version.major v) 0); [lia|].
    destruct (Z.ltb_spec (Version.minor v) 0); [lia|].
    destruct (Z.ltb_spec (Version.micro v) 0); [lia|]. simpl.
    now destruct v.
Qed.

(** X5. [Version::parse] reads back what [Version::to_string] prints, for
    every version whose three components are not negative and fit an
    [int], whatever the label. *)
Theorem parse_to_string (v : Version.t) :
  valid v -> Version.parse (Version.to_string v) = Ok v.
Proof. apply parse_printed. Qed.

Lemma parse_to_string_witness :
  Version.parse (Version.to_string (Version.mk 1 20 3 "rc-1"))
  = Ok (Version.mk 1 20 3 "rc-1").
Proof.
  apply parse_to_string. unfold valid, component, Str.INT_MAX. simpl. lia.
Defined.

Lemma stoi_range (s : string) (z : Z) :
  Str.stoi s = Some z -> Str.INT_MIN <= z <= Str.INT_MAX.
Proof.
  unfold Str.stoi.
  destruct (match Str.skip_space s with
            | String "-" r => (true, r)
            | String "+" r => (false, r)
            | _ => (false, Str.skip_space s)
            end) as [neg s2].
  destruct (Str.digits s2 None) as [n|]; [|discriminate].
  destruct (Z.leb_spec Str.INT_MIN (if neg then - n else n)) as [Hlo|]; [|discriminate].
  destruct (Z.leb_spec (if neg then - n else n) Str.INT_MAX) as [Hhi|]; [|discriminate].
  simpl. intros E. injection E as <-. lia.
Qed.

Lemma finish_valid (s : string) (v w : Version.t) :
  Version.major v <= Str.INT_MAX -> Version.minor v <= Str.INT_MAX ->
  Version.micro v <= Str.INT_MAX ->
  Version.finish s v = Ok w -> valid w.
Proof.
  unfold Version.finish, valid, component. intros H1 H2 H3.
  destruct (Z.ltb_spec (Version.major v) 0) as [|Ha]; [discriminate|].
  destruct (Z.ltb_spec (Version.minor v) 0) as [|Hb]; [discriminate|].
  destruct (Z.ltb_spec (Version.micro v) 0) as [|Hc]; [discriminate|].
  simpl. intros E. injection E as <-. lia.
Qed.

(** X30. Whatever [Version::parse] accepts has three components that are
    not negative and fit an [int], and is read back from its own printed
    form: printing normalizes (leading zeros, signs, blanks and text behind
    the digits of a component are gone) and parsing the printed form is
    stable. *)
Theorem parse_normalizes (s : string) (v : Version.t) :
  Version.parse s = Ok v ->
  valid v /\ Version.parse (Version.to_string v) = Ok v.
Proof.
  intros H. assert (Hv : valid v); [|split; [exact Hv|now apply parse_printed]].
  revert H. unfold Version.parse.
  destruct (Str.empty s); [discriminate|].
  destruct (Str.find s "." 0) as [dot1|]; [|discriminate].
  destruct (Str.stoi _) as [a|] eqn:Ea; [|discriminate].
  destruct (Str.find s "." (dot1 + 1)) as [dot2|]; [|discriminate].
  destruct (Str.stoi (Str.substr s (dot1 + 1) _)) as [b|] eqn:Eb; [|discriminate].
  apply stoi_range in Ea, Eb.
  destruct (Str.find s "-" (dot2 + 1)) as [dash|].
  - destruct (Str.stoi _) as [c|] eqn:Ec; [|discriminate]. apply stoi_range in Ec.
    destruct (Str.empty _); [discriminate|].
    apply finish_valid; simpl; lia.
  - destruct (Str.stoi _) as [c|] eqn:Ec; [|discriminate]. apply stoi_range in Ec.
    apply finish_valid; simpl; lia.
Qed.

Lemma parse_normalizes_witness :
  valid (Version.mk 1 2 3 EmptyString)
  /\ Version.parse (Version.to_string (Version.mk 1 2 3 EmptyString))
     = Ok (Version.mk 1 2 3 EmptyString).
Proof. apply (parse_normalizes " +01.002.3abc"). vm_compute. reflexivity. Defined.

End VersionRoundTrip.

Module ReqRoundTrip.

Import Numerals StrFacts VersionReqParse.
Import VersionRoundTrip.
Local Open Scope list_scope.

(** The partial versions [PartialVersion::to_string] prints in full: set
    components are not negative and fit an [int], unset ones are [-1], and
    no component is set behind an unset one. *)
Definition valid_partial (p : PartialVersion.t) : Prop :=
  component (PartialVersion.major p)
  /\ ((PartialVersion.minor p = -1 /\ PartialVersion.micro p = -1)
      \/ (component (PartialVersion.minor p)
          /\ (PartialVersion.micro p = -1 \/ component (PartialVersion.micro p)))).

Definition version_char (c : ascii) : bool := is_digit c || Ascii.eqb c ".".

Lemma digits_version_chars (s : string) :
  all_chars is_digit s = true -> all_chars version_char s = true.
Proof. apply all_chars_weaken. intros c H. unfold version_char. now rewrite H. Qed.

(** What [PartialVersion::to_string] prints starts with a digit and holds
    digits and dots only. *)
Lemma partial_to_string_chars (p : PartialVersion.t) :
  valid_partial p ->
  all_chars version_char (PartialVersion.to_string p) = true
  /\ exists d r, PartialVersion.to_string p = String d r /\ is_digit d = true.
Proof.
  intros (Ha & Hrest). unfold component in *.
  destruct (to_string_int_spec (PartialVersion.major p)) as (A1 & A2 & A3); [lia|].
  assert (Hhead : forall t, exists d r,
            (to_string_int (PartialVersion.major p) ++ t)%string = String d r
            /\ is_digit d = true).
  { intros t. destruct (to_string_int (PartialVersion.major p)) as [|d r]; [congruence|].
    exists d, (r ++ t)%string. split; [reflexivity|].
    simpl in A2. now apply andb_prop in A2 as [? _]. }
  unfold PartialVersion.to_string.
  destruct Hrest as [[-> ->]|[Hb Hc]].
  - simpl. split; [now apply digits_version_chars|].
    destruct (Hhead EmptyString) as (d & r & E & Hd).
    rewrite CacheManager.append_empty_r in E. eauto.
  - destruct (to_string_int_spec (PartialVersion.minor p)) as (B1 & B2 & B3); [lia|].
    destruct (Z.geb_spec (PartialVersion.minor p) 0); [|lia].
    destruct Hc as [->|Hc].
    + simpl. split; [|apply Hhead].
      rewrite all_chars_app, CacheManager.append_cons, append_nil_l. simpl.
      now rewrite !digits_version_chars.
    + destruct (to_string_int_spec (PartialVersion.micro p)) as (C1 & C2 & C3); [lia|].
      destruct (Z.geb_spec (PartialVersion.micro p) 0); [|lia].
      split.
      * rewrite !all_chars_app. simpl.
        now rewrite !digits_version_chars.
      * rewrite CacheManager.append_assoc. apply Hhead.
Qed.

(** [PartialVersion::parse] reads back what [PartialVersion::to_string]
    prints. *)
Lemma partial_parse_to_string (p : PartialVersion.t) :
  valid_partial p -> PartialVersion.parse (PartialVersion.to_string p) = Ok p.
Proof.
  intros (Ha & Hrest). unfold component in *.
  destruct (to_string_int_spec (PartialVersion.major p)) as (A1 & A2 & A3); [lia|].
  destruct p as [a b c]. simpl in *.
  unfold PartialVersion.to_string. simpl.
  set (A := to_string_int a) in *.
  destruct Hrest as [[-> ->]|[Hb Hc]].
  - simpl. unfold PartialVersion.parse.
    assert (Es : Str.empty A = false) by (destruct A; [congruence|reflexivity]).
    rewrite Es, (find_none A "." 0) by (now apply digit_differs).
    now rewrite (stoi_digits A _ A1 A2 A3) by lia.
  - destruct (to_string_int_spec b) as (B1 & B2 & B3); [lia|].
    set (B := to_string_int b) in *.
    destruct (Z.geb_spec b 0); [|lia].
    destruct Hc as [->|Hc].
    + simpl. rewrite CacheManager.append_cons, append_nil_l.
      set (s := (A ++ String "." B)%string).
      assert (D0 : Str.drop 0 s = (A ++ String "." B)%string) by reflexivity.
      pose proof (drop_past s A _ "." 0 D0) as D1. simpl Nat.add in D1.
      unfold PartialVersion.parse.
      assert (Es : Str.empty s = false) by (unfold s; destruct A; [congruence|reflexivity]).
      rewrite Es, (find_at s A _ "." 0 D0) by (now apply digit_differs).
      simpl Nat.add.
      rewrite (substr_at s A _ 0 _ D0) by lia.
      rewrite (stoi_digits A _ A1 A2 A3) by lia.
      rewrite (find_none s "." _) by (rewrite D1; now apply digit_differs).
      now rewrite D1, (stoi_digits B _ B1 B2 B3) by lia.
    + destruct (to_string_int_spec c) as (C1 & C2 & C3); [lia|].
      set (C := to_string_int c) in *.
      destruct (Z.geb_spec c 0); [|lia].
      rewrite !CacheManager.append_cons, !append_nil_l.
      rewrite CacheManager.append_assoc, CacheManager.append_cons.
      set (s := (A ++ String "." (B ++ String "." C))%string).
      assert (D0 : Str.drop 0 s = (A ++ String "." (B ++ String "." C))%string)
        by reflexivity.
      pose proof (drop_past s A _ "." 0 D0) as D1. simpl Nat.add in D1.
      pose proof (drop_past s B _ "." _ D1) as D2.
      unfold PartialVersion.parse.
      assert (Es : Str.empty s = false) by (unfold s; destruct A; [congruence|reflexivity]).
      rewrite Es, (find_at s A _ "." 0 D0) by (now apply digit_differs).
      simpl Nat.add.
      rewrite (substr_at s A _ 0 _ D0) by lia.
      rewrite (stoi_digits A _ A1 A2 A3) by lia.
      rewrite (find_at s B _ "." _ D1) by (now apply digit_differs).
      rewrite (substr_at s B _ _ _ D1) by lia.
      rewrite (stoi_digits B _ B1 B2 B3) by lia.
      now rewrite D2, (stoi_digits C _ C1 C2 C3) by lia.
Qed.

Definition blank (c : ascii) : bool := Ascii.eqb c " ".

Lemma skip_blanks_pad (pad s : string) :
  all_chars blank pad = true -> skip_blanks (pad ++ s) = skip_blanks s.
Proof.
  induction pad as [|c pad IH]; intros H; [reflexivity|].
  rewrite CacheManager.append_cons. simpl in *. apply andb_prop in H as [Hc Hp].
  unfold blank in Hc. rewrite Hc. now apply IH.
Qed.

Lemma trim_back_id (s : string) :
  all_chars version_char s = true -> trim_back s = s.
Proof.
  induction s as [|c s IH]; intros H; [reflexivity|].
  simpl in *. apply andb_prop in H as [Hc Hs]. rewrite (IH Hs).
  assert (Hb : Ascii.eqb c " " = false).
  { destruct (Ascii.eqb_spec c " ") as [->|]; [discriminate|reflexivity]. }
  now rewrite Hb, andb_false_r.
Qed.

Definition op_prefix (o : ConstraintOp) : string :=
  match o with
  | Exact => "=" | Caret => "^" | Tilde => "~" | GreaterEq => ">="
  | Greater => ">" | LessEq => "<=" | Less => "<"
  end.

Lemma read_op_prefix (o : ConstraintOp) (d : ascii) (r : string) :
  is_digit d = true ->
  read_op (op_prefix o ++ String d r) = (o, String d r)
  /\ skip_blanks (op_prefix o ++ String d r) = (op_prefix o ++ String d r)%string.
Proof.
  intros Hd.
  destruct d as [[] [] [] [] [] [] [] []]; try discriminate Hd;
    destruct o; split; reflexivity.
Qed.

(** One constraint, printed and read back behind any run of blanks. *)
Lemma single_to_string (pad : string) (c : VersionConstraint.t) :
  all_chars blank pad = true -> valid_partial (VersionConstraint.version c) ->
  parse_single_constraint (pad ++ VersionConstraint.to_string c) = Ok c.
Proof.
  intros Hpad Hv.
  destruct (partial_to_string_chars _ Hv) as (Hch & d & r & E & Hd).
  pose proof (partial_parse_to_string _ Hv) as Hp.
  assert (Ets : VersionConstraint.to_string c
                = (op_prefix (VersionConstraint.op c) ++ String d r)%string).
  { unfold VersionConstraint.to_string. rewrite E. now destruct (VersionConstraint.op c). }
  destruct (read_op_prefix (VersionConstraint.op c) d r Hd) as [Hop Hsk].
  unfold parse_single_constraint.
  rewrite (skip_blanks_pad _ _ Hpad), Ets, Hsk, Hop.
  assert (Hsk2 : skip_blanks (String d r) = String d r).
  { simpl. destruct (Ascii.eqb_spec d " ") as [->|]; [discriminate|reflexivity]. }
  rewrite Hsk2, <- E, (trim_back_id _ Hch), Hp, E. simpl. now destruct c.
Qed.

Definition no_comma : string -> bool := all_chars (differs ",").

Lemma tokens_block (a r : string) : forall tok st,
  no_comma a = true ->
  tokens (a ++ String "," r) tok st = (tok ++ a)%string :: tokens r EmptyString false.
Proof.
  induction a as [|c a IH]; intros tok st H.
  - rewrite append_nil_l, CacheManager.append_empty_r. reflexivity.
  - rewrite CacheManager.append_cons. simpl in *. apply andb_prop in H as [Hc Ha].
    unfold differs in Hc. destruct (Ascii.eqb c ","); [discriminate|].
    rewrite (IH _ _ Ha), CacheManager.append_assoc. reflexivity.
Qed.

Lemma tokens_last (a : string) : forall tok,
  no_comma a = true -> tokens a tok true = [(tok ++ a)%string].
Proof.
  induction a as [|c a IH]; intros tok H.
  - now rewrite CacheManager.append_empty_r.
  - simpl in *. apply andb_prop in H as [Hc Ha].
    unfold differs in Hc. destruct (Ascii.eqb c ","); [discriminate|].
    rewrite (IH _ Ha), CacheManager.append_assoc. reflexivity.
Qed.

Lemma constraint_no_comma (pad : string) (c : VersionConstraint.t) :
  all_chars blank pad = true -> valid_partial (VersionConstraint.version c) ->
  no_comma (pad ++ VersionConstraint.to_string c) = true
  /\ exists x r, (pad ++ VersionConstraint.to_string c)%string = String x r
                 /\ Ascii.eqb x "," = false.
Proof.
  intros Hpad Hv.
  destruct (partial_to_string_chars _ Hv) as (Hch & d & r & E & Hd).
  assert (Hp : no_comma pad = true).
  { revert Hpad. apply all_chars_weaken. intros x Hx. unfold blank in Hx.
    apply Ascii.eqb_eq in Hx. now subst. }
  assert (Hpv : no_comma (PartialVersion.to_string (VersionConstraint.version c)) = true).
  { revert Hch. apply all_chars_weaken. intros x Hx. unfold differs.
    destruct (Ascii.eqb_spec x ",") as [->|]; [discriminate|reflexivity]. }
  assert (Hc : no_comma (VersionConstraint.to_string c) = true).
  { unfold VersionConstraint.to_string, no_comma. rewrite all_chars_app. fold no_comma.
    rewrite Hpv, andb_true_r. now destruct (VersionConstraint.op c). }
  split; [unfold no_comma; rewrite all_chars_app; fold no_comma; now rewrite Hp, Hc|].
  destruct pad as [|x pad].
  - rewrite append_nil_l. unfold VersionConstraint.to_string.
    destruct (VersionConstraint.op c); eexists _, _; (split; [reflexivity|reflexivity]).
  - exists x, (pad ++ VersionConstraint.to_string c)%string. split; [reflexivity|].
    simpl in Hp. apply andb_prop in Hp as [Hx _]. unfold differs in Hx.
    now destruct (Ascii.eqb x ",").
Qed.

(** The tokens of a printed requirement: the printed constraints, all but
    the first behind one blank. *)
Lemma tokens_to_string (cs : list VersionConstraint.t) : forall pad c,
  all_chars blank pad = true ->
  Forall (fun c => valid_partial (VersionConstraint.version c)) (c :: cs) ->
  tokens (pad ++ VersionConstraint.to_string c ++ VersionReq.to_string_from false cs)
         EmptyString false
  = (pad ++ VersionConstraint.to_string c)%string
    :: map (fun c => (" " ++ VersionConstraint.to_string c)%string) cs.
Proof.
  induction cs as [|c' cs IH]; intros pad c Hpad Hall.
  - apply Forall_cons in Hall as [Hc _].
    destruct (constraint_no_comma pad c Hpad Hc) as (Hnc & x & r & E & Hx).
    simpl VersionReq.to_string_from. rewrite CacheManager.append_empty_r, E.
    rewrite E in Hnc. simpl in Hnc. apply andb_prop in Hnc as [_ Hr].
    simpl. rewrite Hx. now rewrite (tokens_last r _ Hr).
  - apply Forall_cons in Hall as [Hc Hall].
    destruct (constraint_no_comma pad c Hpad Hc) as (Hnc & _).
    cbn [VersionReq.to_string_from map].
    rewrite <- CacheManager.append_assoc.
    change (", " ++ VersionConstraint.to_string c' ++ VersionReq.to_string_from false cs)%string
      with (String "," (" " ++ VersionConstraint.to_string c'
                        ++ VersionReq.to_string_from false cs)%string).
    rewrite (tokens_block _ _ _ _ Hnc), append_nil_l.
    now rewrite (IH " " c' eq_refl Hall).
Qed.

Lemma parse_tokens_printed (cs : list VersionConstraint.t) : forall acc,
  Forall (fun c => valid_partial (VersionConstraint.version c)) cs ->
  parse_tokens (map (fun c => (" " ++ VersionConstraint.to_string c)%string) cs) acc
  = Ok (acc ++ cs).
Proof.
  induction cs as [|c cs IH]; intros acc Hall; simpl.
  - now rewrite app_nil_r.
  - apply Forall_cons in Hall as [Hc Hall].
    rewrite (single_to_string " " c eq_refl Hc), (IH _ Hall), <- app_assoc.
    reflexivity.
Qed.

(** X6. [VersionReq::parse] reads back what [VersionReq::to_string]
    prints, for every requirement with at least one constraint whose
    partial versions are printed in full. *)
Theorem req_parse_to_string (r : VersionReq.t) :
  VersionReq.constraints r <> [] ->
  Forall (fun c => valid_partial (VersionConstraint.version c)) (VersionReq.constraints r) ->
  parse (VersionReq.to_string r) = Ok r.
Proof.
  destruct r as [cs]. simpl. intros Hne Hall.
  destruct cs as [|c cs]; [congruence|].
  unfold VersionReq.to_string. cbn [VersionReq.constraints VersionReq.to_string_from].
  pose proof (tokens_to_string cs EmptyString c eq_refl Hall) as Htok.
  pose proof Hall as Hall'. apply Forall_cons in Hall' as [Hc Hcs].
  destruct (constraint_no_comma EmptyString c eq_refl Hc) as (_ & x & t & E & _).
  unfold parse.
  assert (Es : Str.empty (EmptyString ++ VersionConstraint.to_string c
                          ++ VersionReq.to_string_from false cs) = false).
  { rewrite <- CacheManager.append_assoc, E. reflexivity. }
  rewrite Es, Htok. cbn [parse_tokens].
  rewrite (single_to_string EmptyString c eq_refl Hc).
  now rewrite (parse_tokens_printed cs ([] ++ [c]) Hcs).
Qed.

Lemma req_parse_to_string_witness :
  parse (VersionReq.to_string
           (VersionReq.mk [VersionConstraint.mk GreaterEq (PartialVersion.mk 1 2 (-1));
                           VersionConstraint.mk Less (PartialVersion.mk 2 (-1) (-1))]))
  = Ok (VersionReq.mk [VersionConstraint.mk GreaterEq (PartialVersion.mk 1 2 (-1));
                       VersionConstraint.mk Less (PartialVersion.mk 2 (-1) (-1))]).
Proof.
  apply req_parse_to_string; [discriminate|].
  repeat constructor; unfold component, Str.INT_MAX; simpl; lia.
Defined.

End ReqRoundTrip.

(* ===================================================================== *)
(** * File lists and the filelist key ([build_cache.cpp]) *)
(* ===================================================================== *)

Module FileList.

Import Numerals StrFacts.
Local Open Scope list_scope.
Local Open Scope nat_scope.

(** [join_strings]: the loop over [i], with [out] the text so far. *)
Fixpoint join_from (i : nat) (v : list string) (out : string) : string :=
  match v with
  | [] => out
  | x :: v' =>
      let out := if 0 <? i then (out ++ ",")%string else out in
      join_from (S i) v' (out ++ x)%string
  end.

Definition join_strings (v : list string) : string := join_from 0 v EmptyString.

(** The [while (true)] loop of [split_strings]; [None] when the fuel runs
    out. *)
Fixpoint split_loop (fuel : nat) (s : string) (start : nat) (out : list string)
    : option (list string) :=
  match fuel with
  | O => None
  | S fuel' =>
      match Str.find s "," start with
      | None => Some (out ++ [Str.drop start s])
      | Some pos => split_loop fuel' s (pos + 1) (out ++ [Str.substr s start (pos - start)])
      end
  end.

(** [split_strings]; each turn of the loop passes one comma, so the length
    of [s] bounds the number of turns. *)
Definition split_strings (s : string) : option (list string) :=
  if Str.empty s then Some [] else split_loop (S (String.length s)) s 0 [].

(** The pieces between the commas of [s], [cur] being the piece under
    way. *)
Fixpoint pieces (s cur : string) : list string :=
  match s with
  | EmptyString => [cur]
  | String c r =>
      if Ascii.eqb c "," then cur :: pieces r EmptyString
      else pieces r (cur ++ String c EmptyString)%string
  end.

Definition comma_free : string -> bool := all_chars (differs ",").

Lemma pieces_block (a r : string) : forall cur,
  comma_free a = true ->
  pieces (a ++ String "," r) cur = (cur ++ a)%string :: pieces r EmptyString.
Proof.
  induction a as [|c a IH]; intros cur H.
  - rewrite append_nil_l, CacheManager.append_empty_r. reflexivity.
  - rewrite CacheManager.append_cons. simpl in *. apply andb_prop in H as [Hc Ha].
    unfold differs in Hc. destruct (Ascii.eqb c ","); [discriminate|].
    rewrite (IH _ Ha), CacheManager.append_assoc. reflexivity.
Qed.

Lemma pieces_last (a : string) : forall cur,
  comma_free a = true -> pieces a cur = [(cur ++ a)%string].
Proof.
  induction a as [|c a IH]; intros cur H.
  - now rewrite CacheManager.append_empty_r.
  - simpl in *. apply andb_prop in H as [Hc Ha].
    unfold differs in Hc. destruct (Ascii.eqb c ","); [discriminate|].
    rewrite (IH _ Ha), CacheManager.append_assoc. reflexivity.
Qed.

(** A text is a comma-free block, then either its end or a comma. *)
Lemma first_comma (s : string) :
  (comma_free s = true /\ Str.find_from_head "," s = None)
  \/ exists a r, s = (a ++ String "," r)%string /\ comma_free a = true.
Proof.
  induction s as [|c s IH]; [left; split; reflexivity|].
  destruct (Ascii.eqb_spec c ",") as [->|Hne].
  - right. exists EmptyString, s. split; reflexivity.
  - assert (Hc : differs "," c = true).
    { unfold differs. destruct (Ascii.eqb_spec c ","); [congruence|reflexivity]. }
    destruct IH as [[Hs Hf]|(a & r & -> & Ha)].
    + left. unfold comma_free in *. cbn [all_chars Str.find_from_head].
      rewrite Hc, Hs, Hf.
      destruct (Ascii.eqb_spec c ","); [congruence|]. split; reflexivity.
    + right. exists (String c a), r. split; [reflexivity|].
      unfold comma_free in *. cbn [all_chars]. now rewrite Hc, Ha.
Qed.

(** The loop computes the pieces of the text behind [start]. *)
Lemma split_loop_pieces (s : string) : forall fuel start out,
  String.length (Str.drop start s) < fuel ->
  split_loop fuel s start out = Some (out ++ pieces (Str.drop start s) EmptyString).
Proof.
  induction fuel as [|fuel IH]; intros start out Hf; [lia|].
  cbn [split_loop].
  destruct (first_comma (Str.drop start s)) as [[Hs Hn]|(a & r & E & Ha)].
  - rewrite (find_none s "," start Hs), (pieces_last _ _ Hs). reflexivity.
  - rewrite (find_at s a r "," start E Ha).
    rewrite (substr_at s a (String "," r) start _ E) by lia.
    rewrite IH.
    + rewrite (drop_past s a r "," start E), E, (pieces_block a r _ Ha).
      rewrite <- app_assoc. reflexivity.
    + rewrite (drop_past s a r "," start E).
      rewrite E in Hf. rewrite length_append in Hf. simpl in Hf. lia.
Qed.

Lemma split_strings_pieces (s : string) :
  split_strings s = Some (if Str.empty s then [] else pieces s EmptyString).
Proof.
  unfold split_strings. destruct (Str.empty s); [reflexivity|].
  rewrite split_loop_pieces by (simpl; lia). reflexivity.
Qed.

(** The text [join_strings] builds: each element behind the first one
    follows a comma. *)
Fixpoint tail_text (v : list string) : string :=
  match v with
  | [] => EmptyString
  | x :: v' => (String "," x ++ tail_text v')%string
  end.

Lemma join_from_tail (v : list string) : forall i out,
  0 < i -> join_from i v out = (out ++ tail_text v)%string.
Proof.
  induction v as [|x v IH]; intros i out Hi; cbn [join_from tail_text].
  - now rewrite CacheManager.append_empty_r.
  - destruct (Nat.ltb_spec 0 i); [|lia].
    rewrite IH by lia. rewrite !CacheManager.append_assoc.
    rewrite !CacheManager.append_cons, append_nil_l. reflexivity.
Qed.

Lemma join_strings_cons (x : string) (v : list string) :
  join_strings (x :: v) = (x ++ tail_text v)%string.
Proof. unfold join_strings. cbn [join_from]. simpl Nat.ltb. cbv iota.
  rewrite join_from_tail by lia. now rewrite append_nil_l. Qed.

Lemma pieces_tail_text (v : list string) : forall x cur,
  Forall (fun y => comma_free y = true) (x :: v) ->
  pieces (x ++ tail_text v) cur = (cur ++ x)%string :: v.
Proof.
  induction v as [|y v IH]; intros x cur H; cbn [tail_text].
  - apply Forall_cons in H as [Hx _].
    rewrite CacheManager.append_empty_r. now apply pieces_last.
  - apply Forall_cons in H as [Hx H].
    rewrite CacheManager.append_cons, (pieces_block x _ _ Hx).
    now rewrite (IH y EmptyString H), append_nil_l.
Qed.

(** X7. [split_strings] undoes [join_strings] on every list of comma-free
    strings other than the list of one empty string (which is joined to
    the empty text and read back as the empty list). *)
Theorem split_join (v : list string) :
  Forall (fun x => comma_free x = true) v -> v <> [EmptyString] ->
  split_strings (join_strings v) = Some v.
Proof.
  intros Hv Hne. rewrite split_strings_pieces.
  destruct v as [|x v]; [reflexivity|].
  rewrite join_strings_cons.
  assert (He : Str.empty (x ++ tail_text v) = false).
  { destruct x; [|reflexivity]. destruct v; [congruence|reflexivity]. }
  rewrite He, (pieces_tail_text v x EmptyString Hv), append_nil_l. reflexivity.
Qed.

Lemma split_join_witness :
  split_strings (join_strings ["rtl/a.v"; EmptyString; "rtl/b.v"])
  = Some ["rtl/a.v"; EmptyString; "rtl/b.v"].
Proof.
  apply split_join; [|discriminate].
  repeat constructor.
Defined.

Lemma join_pieces (s : string) : forall cur,
  exists x v, pieces s cur = x :: v /\ (x ++ tail_text v)%string = (cur ++ s)%string.
Proof.
  induction s as [|c s IH]; intros cur.
  - exists cur, []. split; reflexivity.
  - simpl. destruct (Ascii.eqb_spec c ",") as [->|Hne].
    + destruct (IH EmptyString) as (x & v & E & Ht).
      exists cur, (x :: v). rewrite E. split; [reflexivity|].
      cbn [tail_text]. rewrite CacheManager.append_cons, Ht, append_nil_l. reflexivity.
    + destruct (IH (cur ++ String c EmptyString)%string) as (x & v & E & Ht).
      exists x, v. split; [exact E|]. rewrite Ht, CacheManager.append_assoc.
      reflexivity.
Qed.

(** X8. [split_strings] returns for every text (the fuel of the model is
    enough), and [join_strings] of its result is the text again. *)
Theorem join_split (s : string) :
  exists v, split_strings s = Some v /\ join_strings v = s.
Proof.
  rewrite split_strings_pieces. eexists. split; [reflexivity|].
  destruct s as [|c s]; [reflexivity|]. cbn [Str.empty].
  destruct (join_pieces (String c s) EmptyString) as (x & v & E & Ht).
  rewrite E, join_strings_cons, Ht. reflexivity.
Qed.

Section Key.
Variable digest_hex : string -> string.

(** [BuildCache::compute_filelist_key]. *)
Definition compute_filelist_key (loom_version manifest_hash : string)
    (effective_hashes : list string) : string :=
  let sorted := sort_strings effective_hashes in
  let combined := (loom_version ++ "|" ++ manifest_hash)%string in
  let combined := BuildCacheHash.append_all combined sorted in
  SHA256.hash_hex digest_hex combined.

(** X9. The filelist key does not depend on the order of the effective
    hashes. *)
Theorem compute_filelist_key_permutation (loom_version manifest_hash : string)
    (hashes hashes' : list string) :
  hashes ≡ₚ hashes' ->
  compute_filelist_key loom_version manifest_hash hashes
  = compute_filelist_key loom_version manifest_hash hashes'.
Proof.
  intros Hp. unfold compute_filelist_key.
  now rewrite (StringOrder.sort_strings_unique _ _ Hp).
Qed.

End Key.

Lemma compute_filelist_key_permutation_witness :
  compute_filelist_key (fun m => m) "0.1.0" "mh" ["h2"; "h3"; "h1"]
  = compute_filelist_key (fun m => m) "0.1.0" "mh" ["h1"; "h2"; "h3"].
Proof.
  apply compute_filelist_key_permutation.
  apply (Permutation_sym (Permutation_cons_append ["h2"; "h3"] "h1")).
Defined.

Example filelist_key_message :
  compute_filelist_key (fun m => m) "0.1.0" "mh" ["h2"; "h3"; "h1"] = "0.1.0|mh|h1|h2|h3".
Proof. reflexivity. Qed.

End FileList.

(* ===================================================================== *)
(** * Failures and leftovers of [deserialize_parse_result]
      ([build_cache.cpp]) *)
(* ===================================================================== *)

Module BlobErrors.

Import Ser Blob.
Local Open Scope list_scope.

(** ** Reading a blob that was cut short *)

(** A reader run on [p] instead of [p ++ q]: if it succeeds on the longer
    input, on the shorter one it fails, or reads the same value from the
    same bytes. *)
Definition cut_reader {T} (r : Reader T) : Prop :=
  forall p q v rest, r (p ++ q) = Some (v, rest) ->
    r p = None \/ exists rest0, rest = rest0 ++ q /\ r p = Some (v, rest0).

(** The same for a step; its failure carries the IO code. *)
Definition cut_step {T} (s : Step T) : Prop :=
  forall p q v rest, s (p ++ q) = Ok (v, rest) ->
    (exists e, s p = Err e /\ LoomError.code e = LoomError.IO)
    \/ exists rest0, rest = rest0 ++ q /\ s p = Ok (v, rest0).

Lemma cut_varint_loop (q : list ascii) : forall p val shift v rest,
  read_varint_loop (p ++ q) val shift = Some (v, rest) ->
  read_varint_loop p val shift = None
  \/ exists rest0, rest = rest0 ++ q /\ read_varint_loop p val shift = Some (v, rest0).
Proof.
  induction p as [|b p IH]; intros val shift v rest H; [now left|].
  cbn [app read_varint_loop] in *.
  destruct (Z.land (Z_of_byte b) 128 =? 0)%Z.
  - injection H as <- <-. right. now exists p.
  - destruct (shift + 7 >=? 64)%Z; [discriminate|]. now apply IH.
Qed.

Lemma cut_varint : cut_reader read_varint.
Proof. intros p q v rest. apply cut_varint_loop. Qed.

Lemma cut_string : cut_reader read_string.
Proof.
  intros p q v rest. unfold read_string.
  destruct (read_varint (p ++ q)) as [[len r1]|] eqn:E; [|discriminate].
  destruct (cut_varint _ _ _ _ E) as [->|(r0 & -> & ->)]; [now left|].
  rewrite length_app.
  destruct (Z.ltb_spec (Z.of_nat (length r0 + length q)) len) as [|Hge]; [discriminate|].
  intros H. injection H as <- <-.
  destruct (Z.ltb_spec (Z.of_nat (length r0)) len) as [|Hle]; [now left|].
  right. exists (drop (Z.to_nat len) r0).
  rewrite take_app_le, drop_app_le by lia. auto.
Qed.

Lemma cut_bool : cut_reader read_bool.
Proof.
  intros [|b p] q v rest H; [now left|]. cbn [app read_bool] in *.
  injection H as <- <-. right. now exists p.
Qed.

Lemma cut_byte : cut_reader read_byte.
Proof.
  intros [|b p] q v rest H; [now left|]. cbn [app read_byte] in *.
  injection H as <- <-. right. now exists p.
Qed.

Lemma cut_int : cut_reader read_int.
Proof.
  intros p q v rest. unfold read_int.
  destruct (read_varint (p ++ q)) as [[raw r1]|] eqn:E; [|discriminate].
  destruct (cut_varint _ _ _ _ E) as [->|(r0 & -> & ->)]; [now left|].
  intros H. injection H as <- <-. right. now exists r0.
Qed.

Create HintDb cut discriminated.
#[local] Hint Resolve cut_varint cut_string cut_bool cut_byte cut_int : cut.

(** One read of a chain: the read on the longer input succeeded, so on
    the shorter one it failed, or the chain goes on from the same bytes. *)
Ltac cut_read H :=
  match type of H with
  | context [?r (?p ++ ?q)] =>
      let C := fresh "C" in
      let E := fresh "E" in
      assert (C : cut_reader r) by auto with cut;
      destruct (r (p ++ q)) as [[? ?]|] eqn:E; [|discriminate H];
      destruct (C _ _ _ _ E) as [->|(? & -> & ->)]; [now left|];
      clear C E; cbn [mbind option_bind] in H |- *
  end.

Ltac cut_reads :=
  let H := fresh "H" in
  intros ? ? ? ? H; repeat cut_read H;
  injection H as <- <-; right; eexists; split; reflexivity.

Lemma cut_pos : cut_reader read_pos.
Proof. unfold read_pos. cut_reads. Qed.

#[local] Hint Resolve cut_pos : cut.

Lemma cut_port : cut_reader read_port.
Proof. unfold read_port. cut_reads. Qed.

Lemma cut_param : cut_reader read_param.
Proof. unfold read_param. cut_reads. Qed.

Lemma cut_instantiation : cut_reader read_instantiation.
Proof. unfold read_instantiation. cut_reads. Qed.

Lemma cut_import : cut_reader read_import.
Proof. unfold read_import. cut_reads. Qed.

Lemma cut_assignment : cut_reader read_assignment.
Proof. unfold read_assignment. cut_reads. Qed.

Lemma cut_case : cut_reader read_case.
Proof. unfold read_case. cut_reads. Qed.

Lemma cut_signal : cut_reader read_signal.
Proof. unfold read_signal. cut_reads. Qed.

Lemma cut_generate : cut_reader read_generate.
Proof. unfold read_generate. cut_reads. Qed.

Lemma cut_labeled : cut_reader read_labeled.
Proof. unfold read_labeled. cut_reads. Qed.

Lemma cut_diagnostic : cut_reader read_diagnostic.
Proof. unfold read_diagnostic. cut_reads. Qed.

Lemma cut_unit_header : cut_reader read_unit_header.
Proof. unfold read_unit_header. cut_reads. Qed.

Lemma cut_always_head :
  cut_reader (fun p => '(ak, p) ← read_byte p; '(l, p) ← read_string p;
                       Some ((ak, l), p)).
Proof. cut_reads. Qed.

#[local] Hint Resolve cut_port cut_param cut_instantiation cut_import cut_assignment
  cut_case cut_signal cut_generate cut_labeled cut_diagnostic cut_unit_header
  cut_always_head : cut.

Lemma cut_expect {T} (msg : string) (r : Reader T) :
  cut_reader r -> cut_step (expect msg r).
Proof.
  intros Hr p q v rest. unfold expect.
  destruct (r (p ++ q)) as [[a r1]|] eqn:E; [|discriminate].
  intros H. injection H as <- <-.
  destruct (Hr _ _ _ _ E) as [->|(r0 & -> & ->)].
  - left. eexists. split; reflexivity.
  - right. now exists r0.
Qed.

#[local] Hint Resolve cut_expect : cut.

(** One step of a chain of steps. *)
Ltac cut_run H :=
  match type of H with
  | context [?s (?p ++ ?q)] =>
      let C := fresh "C" in
      let E := fresh "E" in
      let e := fresh "e" in
      let He := fresh "He" in
      assert (C : cut_step s) by auto with cut;
      destruct (s (p ++ q)) as [[? ?]|?] eqn:E; [|discriminate H];
      destruct (C _ _ _ _ E) as [(e & -> & He)|(? & -> & ->)];
        [left; exists e; split; [reflexivity|exact He]|];
      clear C E; cbn [and_then] in H |- *
  end.

Ltac cut_runs :=
  let H := fresh "H" in
  intros ? ? ? ? H; repeat cut_run H;
  repeat match type of H with (let '(_, _) := ?x in _) = _ => destruct x end;
  injection H as <- <-; right; eexists; split; reflexivity.

Lemma cut_read_vec {T} (step : Step T) (n : nat) :
  cut_step step -> cut_step (read_vec n step).
Proof.
  intros Hs. induction n as [|n IH]; cbn [read_vec].
  - intros p q v rest H. injection H as <- <-. right. now exists p.
  - cut_runs.
Qed.

#[local] Hint Resolve cut_read_vec : cut.

Lemma cut_read_list {T} (count_msg item_msg : string) (r : Reader T) :
  cut_reader r -> cut_step (read_list count_msg item_msg r).
Proof. intros Hr. unfold read_list. cut_runs. Qed.

#[local] Hint Resolve cut_read_list : cut.

Lemma cut_always : cut_step read_always.
Proof. unfold read_always. cut_runs. Qed.

#[local] Hint Resolve cut_always : cut.

Lemma cut_unit : cut_step read_unit.
Proof. unfold read_unit. cut_runs. Qed.

#[local] Hint Resolve cut_unit : cut.

(** The reads of [deserialize_parse_result] behind the magic, with the
    bytes they leave. *)
Definition read_body : Step ParseResult.t := fun p =>
  and_then (expect "Corrupted cache: truncated unit count" read_varint p) (fun '(num_units, p) =>
  and_then (read_vec (Z.to_nat num_units) read_unit p) (fun '(units, p) =>
  and_then (read_list "Corrupted cache: truncated diag count"
                   "Corrupted cache: truncated diagnostic" read_diagnostic p) (fun '(diags, p) =>
  Ok (ParseResult.mk units diags, p)))).

Lemma deserialize_body (p : list ascii) :
  deserialize_parse_result (MAGIC ++ p)
  = and_then (read_body p) (fun '(pr, _) => Ok pr).
Proof.
  unfold deserialize_parse_result, read_body.
  change (take MAGIC_LEN (MAGIC ++ p)) with MAGIC.
  change (drop MAGIC_LEN (MAGIC ++ p)) with p.
  rewrite bool_decide_eq_true_2 by reflexivity. cbn [negb].
  destruct (expect _ read_varint p) as [[n p1]|e]; cbn [and_then]; [|reflexivity].
  destruct (read_vec _ read_unit p1) as [[units p2]|e]; cbn [and_then]; [|reflexivity].
  destruct (read_list _ _ read_diagnostic p2) as [[diags p3]|e]; reflexivity.
Qed.

Lemma cut_body : cut_step read_body.
Proof. unfold read_body. cut_runs. Qed.

(** The bytes behind the magic. *)
Definition body (x : ParseResult.t) : list ascii :=
  write_list write_unit (ParseResult.units x)
  ++ write_list write_diagnostic (ParseResult.diagnostics x).

Lemma read_body_write (x : ParseResult.t) :
  valid_parse_result x = true -> read_body (body x ++ []) = Ok (erase_files x, []).
Proof.
  unfold valid_parse_result. intros H. apply andb_prop in H as [Hu Hd].
  unfold read_body, body. rewrite <- !app_assoc.
  unfold valid_list in Hu. apply andb_prop in Hu as [Hn Hl].
  unfold write_list at 1. rewrite <- app_assoc. unfold expect at 1.
  rewrite read_size_write by exact Hn. cbn [and_then]. rewrite Nat2Z.id.
  rewrite (read_vec_write write_unit read_unit erase_unit valid_unit)
    by (assumption || exact read_unit_write).
  cbn [and_then].
  rewrite (read_list_write write_diagnostic read_diagnostic (fun x => x) valid_diagnostic)
    by (assumption || exact read_diagnostic_write).
  cbn [and_then]. unfold erase_files. now rewrite map_id_ext.
Qed.

(** X10. A blob that was cut short is never accepted: the first [k]
    bytes of the blob of a valid result, for [k] below its length, are
    rejected with the Checksum code when the magic is incomplete and with
    the IO code otherwise.  (The blob is shorter than 2^63 bytes, as any
    buffer of a 64-bit process is; every count and length read from the
    cut blob is one of the result itself.) *)
Theorem deserialize_truncated (x : ParseResult.t) (k : nat) :
  valid_parse_result x = true ->
  (Z.of_nat (length (serialize_parse_result x)) < 2 ^ 63)%Z ->
  (k < length (serialize_parse_result x))%nat ->
  exists e,
    deserialize_parse_result (take k (serialize_parse_result x)) = Err e
    /\ LoomError.code e
       = if (k <? MAGIC_LEN)%nat then LoomError.Checksum else LoomError.IO.
Proof.
  intros Hv _ Hk.
  change (serialize_parse_result x) with (MAGIC ++ body x) in *.
  destruct (Nat.ltb_spec k MAGIC_LEN) as [Hlt|Hge].
  - exists (error2 LoomError.Checksum "Invalid cache magic bytes").
    split; [|reflexivity]. apply wrong_magic.
    intros E. apply (f_equal length) in E. rewrite !length_take in E.
    change (length MAGIC) with MAGIC_LEN in E. lia.
  - rewrite length_app in Hk. change (length MAGIC) with MAGIC_LEN in *.
    rewrite take_app_ge by (change (length MAGIC) with MAGIC_LEN; lia).
    change (length MAGIC) with MAGIC_LEN.
    rewrite deserialize_body.
    pose proof (read_body_write x Hv) as Hfull.
    rewrite <- (take_drop (k - MAGIC_LEN) (body x)) in Hfull at 1.
    rewrite <- app_assoc in Hfull.
    destruct (cut_body _ _ _ _ Hfull) as [(e & -> & He)|(rest0 & Hrest & _)].
    + exists e. split; [reflexivity|exact He].
    + exfalso. symmetry in Hrest. apply app_eq_nil in Hrest as [_ Hrest].
      apply app_eq_nil in Hrest as [Hrest _].
      apply (f_equal length) in Hrest. rewrite length_drop in Hrest.
      simpl in Hrest. lia.
Qed.

Lemma deserialize_truncated_witness :
  exists e,
    deserialize_parse_result (take 20 (serialize_parse_result result_a)) = Err e
    /\ LoomError.code e = LoomError.IO.
Proof.
  apply (deserialize_truncated result_a 20).
  - vm_compute. reflexivity.
  - vm_compute. reflexivity.
  - vm_compute. lia.
Defined.

Example truncated_magic :
  deserialize_parse_result (take 3 (serialize_parse_result result_a))
  = Err (error2 LoomError.Checksum "Invalid cache magic bytes").
Proof. vm_compute. reflexivity. Qed.

(** X11. Bytes behind a serialized result are not looked at: the blob of
    a valid result, followed by anything, is read back as the result with
    its position files emptied. *)
Theorem deserialize_ignores_trailing_bytes (x : ParseResult.t) (junk : list ascii) :
  valid_parse_result x = true ->
  deserialize_parse_result (serialize_parse_result x ++ junk) = Ok (erase_files x).
Proof.
  unfold valid_parse_result. intros H. apply andb_prop in H as [Hu Hd].
  unfold deserialize_parse_result, serialize_parse_result.
  rewrite <- !app_assoc.
  change (take MAGIC_LEN (MAGIC ++ ?l)) with MAGIC.
  change (drop MAGIC_LEN (MAGIC ++ ?l)) with l.
  rewrite bool_decide_eq_true_2 by reflexivity. cbn [negb].
  unfold valid_list in Hu. apply andb_prop in Hu as [Hn Hl].
  unfold write_list at 1. rewrite <- app_assoc. unfold expect at 1.
  rewrite read_size_write by exact Hn. cbn [and_then]. rewrite Nat2Z.id.
  rewrite (read_vec_write write_unit read_unit erase_unit valid_unit)
    by (assumption || exact read_unit_write).
  cbn [and_then].
  rewrite (read_list_write write_diagnostic read_diagnostic (fun x => x) valid_diagnostic)
    by (assumption || exact read_diagnostic_write).
  cbn [and_then]. unfold erase_files. now rewrite map_id_ext.
Qed.

Lemma deserialize_ignores_trailing_bytes_witness :
  deserialize_parse_result (serialize_parse_result result_a ++ ["x"; "y"]%char)
  = Ok (erase_files result_a).
Proof.
  apply (deserialize_ignores_trailing_bytes result_a). vm_compute. reflexivity.
Defined.

End BlobErrors.

(* ===================================================================== *)
(** * Adjacency and reverse adjacency, degrees, [has_cycle] ([graph.hpp]) *)
(* ===================================================================== *)

Module GraphFacts.

Import Graph Kahn.
Local Open Scope list_scope.
Local Open Scope nat_scope.

Section Facts.
Context {NodeData EdgeData : Type}.
Implicit Type g : Graph.t NodeData EdgeData.

(** [Graph::node]: an unchecked access into [nodes_]. *)
Definition node g (id : nat) : option NodeData := nodes_ g !! id.

(** [Graph::has_cycle]. *)
Definition has_cycle_fuel (fuel : nat) g : option bool :=
  match topological_sort_fuel fuel g with
  | Some r => Some (is_err r)
  | None => None
  end.

(** [radj_] holds, for each node, the tails of the edges [adj_] holds. *)
Definition mirror g : Prop :=
  forall u v, occ u (predecessors g v) = occ v (targets g u).

Definition is_add_edge (o : Graph.op NodeData EdgeData) : bool :=
  match o with AddEdge _ _ _ => true | AddNode _ => false end.

Definition edge_count (ops : list (Graph.op NodeData EdgeData)) : nat :=
  length (List.filter is_add_edge ops).

Definition total_in g : nat := sum_list_with (in_degree g) (seq 0 (node_count g)).
Definition total_out g : nat := sum_list_with (out_degree g) (seq 0 (node_count g)).

Lemma predecessors_add_node g d v :
  wf g -> predecessors (fst (add_node g d)) v = predecessors g v.
Proof.
  intros Hwf. unfold predecessors. simpl.
  destruct (decide (v < length (radj_ g))) as [Hlt|Hge].
  - now rewrite lookup_app_l.
  - rewrite lookup_app_r by lia. rewrite (lookup_ge_None_2 (radj_ g)) by lia.
    destruct (v - length (radj_ g)) as [|k]; simpl; [reflexivity|now destruct k].
Qed.

Lemma predecessors_add_edge g f v d x :
  v < node_count g -> wf g ->
  predecessors (add_edge g f v d) x
  = if decide (x = v) then predecessors g v ++ [f] else predecessors g x.
Proof.
  intros Hv Hwf. unfold predecessors. simpl.
  destruct (decide (x = v)) as [->|Hne].
  - rewrite list_lookup_alter_eq.
    destruct (radj_ g !! v) as [l|] eqn:E; simpl; [reflexivity|].
    apply lookup_ge_None_1 in E. rewrite (wf_radj g Hwf) in E. lia.
  - rewrite list_lookup_alter_ne by congruence. reflexivity.
Qed.

Lemma out_degree_targets g u : out_degree g u = length (targets g u).
Proof. unfold out_degree, targets. now rewrite length_map. Qed.

Lemma mirror_empty : mirror (@Graph.empty NodeData EdgeData).
Proof. intros u v. unfold predecessors, targets, successors. simpl. now destruct u, v. Qed.

Lemma mirror_add_node g d : wf g -> mirror g -> mirror (fst (add_node g d)).
Proof.
  intros Hwf Hm u v. rewrite predecessors_add_node, targets_add_node by exact Hwf.
  apply Hm.
Qed.

Lemma mirror_add_edge g f v d :
  f < node_count g -> v < node_count g -> wf g -> mirror g -> mirror (add_edge g f v d).
Proof.
  intros Hf Hv Hwf Hm u x.
  rewrite predecessors_add_edge, targets_add_edge by assumption.
  destruct (decide (x = v)) as [->|Hx], (decide (u = f)) as [->|Hu];
    rewrite ?occ_app, Hm; simpl.
  - destruct (decide (f = f)), (decide (v = v)); congruence.
  - destruct (decide (f = u)); [congruence|lia].
  - destruct (decide (v = x)); [congruence|lia].
  - reflexivity.
Qed.

(** Whatever [add_node] and [add_edge] keep, a built graph has. *)
Lemma build_from_ind (P : Graph.t NodeData EdgeData -> Prop) :
  (forall g d, wf g -> P g -> P (fst (add_node g d))) ->
  (forall g f v d, f < node_count g -> v < node_count g -> wf g -> P g ->
                   P (add_edge g f v d)) ->
  forall ops g g', wf g -> P g -> build_from g ops = Some g' -> P g'.
Proof.
  intros Hn He. induction ops as [|o ops IH]; intros g g' Hwf HP H; simpl in H.
  - now injection H as <-.
  - destruct o as [d|f v d]; simpl in H.
    + apply (IH _ _ (wf_add_node g d Hwf) (Hn g d Hwf HP) H).
    + destruct (Nat.ltb_spec f (node_count g)) as [Hf|]; simpl in H; [|discriminate].
      destruct (Nat.ltb_spec v (node_count g)) as [Hv|]; simpl in H; [|discriminate].
      apply (IH _ _ (wf_add_edge g f v d Hf Hv Hwf) (He g f v d Hf Hv Hwf HP) H).
Qed.

Lemma build_mirror ops g : build ops = Some g -> mirror g.
Proof.
  apply (build_from_ind mirror mirror_add_node mirror_add_edge ops _ _ wf_empty mirror_empty).
Qed.

(** X12. In a graph built through [add_node] and [add_edge], [predecessors]
    is the mirror image of [successors]: [u] occurs in [predecessors(v)] as
    often as an edge leads from [u] to [v], so it occurs there exactly when
    [has_edge(u, v)] holds. *)
Theorem predecessors_mirror_successors (ops : list (Graph.op NodeData EdgeData)) g :
  build ops = Some g ->
  forall u v,
    occ u (predecessors g v) = occ v (targets g u)
    /\ (u ∈ predecessors g v <-> has_edge g u v = true).
Proof.
  intros Hb u v. pose proof (build_mirror ops g Hb u v) as Hm.
  split; [exact Hm|].
  rewrite has_edge_targets, <- !occ_pos, Hm. reflexivity.
Qed.

Lemma in_degree_add_node g d v :
  wf g -> in_degree (fst (add_node g d)) v = in_degree g v.
Proof. intros Hwf. unfold in_degree. now rewrite predecessors_add_node. Qed.

Lemma sum_in_add_node g d :
  wf g -> total_in (fst (add_node g d)) = total_in g.
Proof.
  intros Hwf. unfold total_in.
  assert (Hn : node_count (fst (add_node g d)) = S (node_count g)).
  { unfold node_count. simpl. rewrite length_app. simpl. lia. }
  rewrite Hn, seq_S, sum_list_with_app. cbn [sum_list_with Nat.add].
  rewrite (in_degree_add_node g d _ Hwf).
  assert (Hlast : in_degree g (node_count g) = 0).
  { unfold in_degree, predecessors. rewrite lookup_ge_None_2; [reflexivity|].
    rewrite (wf_radj g Hwf). lia. }
  rewrite Hlast, !Nat.add_0_r.
  apply sum_list_with_ext_in. intros w _. now apply in_degree_add_node.
Qed.

Lemma sum_out_add_node g d :
  wf g -> total_out (fst (add_node g d)) = total_out g.
Proof.
  intros Hwf. unfold total_out.
  assert (Hn : node_count (fst (add_node g d)) = S (node_count g)).
  { unfold node_count. simpl. rewrite length_app. simpl. lia. }
  rewrite Hn, seq_S, sum_list_with_app. cbn [sum_list_with Nat.add].
  rewrite !out_degree_targets, (targets_add_node g d _ Hwf).
  assert (Hlast : targets g (node_count g) = []).
  { unfold targets, successors. rewrite lookup_ge_None_2; [reflexivity|].
    rewrite (wf_adj g Hwf). lia. }
  rewrite Hlast. cbn [length]. rewrite !Nat.add_0_r.
  apply sum_list_with_ext_in. intros w _.
  now rewrite !out_degree_targets, targets_add_node.
Qed.

Lemma sum_in_add_edge g f v d :
  f < node_count g -> v < node_count g -> wf g ->
  total_in (add_edge g f v d) = total_in g + 1.
Proof.
  intros Hf Hv Hwf. unfold total_in.
  change (node_count (add_edge g f v d)) with (node_count g).
  apply (sum_list_with_update _ _ _ v); [apply NoDup_seq|now apply seq_elem| |].
  - intros w _ Hw. unfold in_degree. rewrite predecessors_add_edge by assumption.
    destruct (decide (w = v)); [congruence|reflexivity].
  - unfold in_degree. rewrite predecessors_add_edge by assumption.
    destruct (decide (v = v)); [|congruence]. rewrite length_app. reflexivity.
Qed.

Lemma sum_out_add_edge g f v d :
  f < node_count g -> v < node_count g -> wf g ->
  total_out (add_edge g f v d) = total_out g + 1.
Proof.
  intros Hf Hv Hwf. unfold total_out.
  change (node_count (add_edge g f v d)) with (node_count g).
  apply (sum_list_with_update _ _ _ f); [apply NoDup_seq|now apply seq_elem| |].
  - intros w _ Hw. rewrite !out_degree_targets, targets_add_edge by assumption.
    destruct (decide (w = f)); [congruence|reflexivity].
  - rewrite !out_degree_targets, targets_add_edge by assumption.
    destruct (decide (f = f)); [|congruence]. rewrite length_app. reflexivity.
Qed.

Lemma degree_sums_from (ops : list (Graph.op NodeData EdgeData)) : forall g g',
  wf g -> build_from g ops = Some g' ->
  total_in g' = total_in g + edge_count ops
  /\ total_out g' = total_out g + edge_count ops.
Proof.
  induction ops as [|o ops IH]; intros g g' Hwf H; simpl in H.
  - injection H as <-. unfold edge_count. simpl. lia.
  - destruct o as [d|f v d]; simpl in H.
    + destruct (IH _ _ (wf_add_node g d Hwf) H) as [Hi Ho].
      rewrite Hi, Ho, sum_in_add_node, sum_out_add_node by exact Hwf.
      unfold edge_count. simpl. lia.
    + destruct (Nat.ltb_spec f (node_count g)) as [Hf|]; simpl in H; [|discriminate].
      destruct (Nat.ltb_spec v (node_count g)) as [Hv|]; simpl in H; [|discriminate].
      destruct (IH _ _ (wf_add_edge g f v d Hf Hv Hwf) H) as [Hi Ho].
      rewrite Hi, Ho, sum_in_add_edge, sum_out_add_edge by assumption.
      unfold edge_count. simpl. lia.
Qed.

(** X13. In a built graph the in-degrees and the out-degrees both add up
    to the number of [add_edge] calls. *)
Theorem degree_sums (ops : list (Graph.op NodeData EdgeData)) g :
  build ops = Some g ->
  total_in g = edge_count ops /\ total_out g = edge_count ops.
Proof.
  intros Hb. destruct (degree_sums_from ops _ _ wf_empty Hb) as [Hi Ho].
  rewrite Hi, Ho. split; reflexivity.
Qed.

(** What [topological_sort] returns on a well-formed graph. *)
Lemma sort_wf g :
  wf g ->
  exists r : Result (list nat),
    (forall fuel, node_count g < fuel -> topological_sort_fuel fuel g = Some r)
    /\ match r with
       | Ok order =>
           order ≡ₚ seq 0 (node_count g)
           /\ (forall u v, has_edge g u v = true -> before order u v)
           /\ ~ cyclic g
       | Err e => LoomError.code e = LoomError.Cycle /\ cyclic g
       end.
Proof.
  intros Hwf.
  destruct (kahn_loop_inv g Hwf (S (node_count g)) [] _ _ (initial_inv g Hwf))
    as (order & deg & Hloop & HI); [simpl; lia|].
  assert (Hrun : forall fuel, node_count g < fuel ->
            kahn_loop fuel g (initial_queue g (initial_in_deg g)) (initial_in_deg g) []
            = Some order).
  { intros fuel Hf. eapply kahn_loop_fuel_mono; [exact Hloop|lia]. }
  destruct (Nat.eqb_spec (length order) (node_count g)) as [Hlen|Hlen].
  - exists (Ok order). split.
    + intros fuel Hf. unfold topological_sort_fuel. rewrite (Hrun fuel Hf).
      rewrite (proj2 (Nat.eqb_eq _ _) Hlen). reflexivity.
    + exact (complete_order g order deg Hwf HI Hlen).
  - exists (Err (error2 LoomError.Cycle "graph contains a cycle")). split.
    + intros fuel Hf. unfold topological_sort_fuel. rewrite (Hrun fuel Hf).
      rewrite (proj2 (Nat.eqb_neq _ _) Hlen). reflexivity.
    + split; [reflexivity|]. exact (stuck_cyclic g order deg Hwf HI Hlen).
Qed.

(** X14. On a built graph [has_cycle] returns (with any fuel above the
    node count), and it returns [true] exactly when some node lies on a
    cycle. *)
Theorem has_cycle_decides (ops : list (Graph.op NodeData EdgeData)) g :
  build ops = Some g ->
  exists b : bool,
    (forall fuel, node_count g < fuel -> has_cycle_fuel fuel g = Some b)
    /\ (b = true <-> cyclic g).
Proof.
  intros Hb. pose proof (build_from_wf ops _ _ wf_empty Hb) as Hwf.
  destruct (sort_wf g Hwf) as (r & Hrun & Hr).
  exists (is_err r). split.
  - intros fuel Hf. unfold has_cycle_fuel. now rewrite (Hrun fuel Hf).
  - destruct r as [order|e]; simpl.
    + destruct Hr as (_ & _ & Hac). split; [discriminate|]. intros Hc. contradiction.
    + destruct Hr as [_ Hc]. split; auto.
Qed.

End Facts.

Lemma predecessors_mirror_successors_witness :
  occ 2 (predecessors diamond 3) = occ 3 (targets diamond 2)
  /\ (2 ∈ predecessors diamond 3 <-> has_edge diamond 2 3 = true).
Proof. exact (predecessors_mirror_successors diamond_ops diamond eq_refl 2 3). Defined.

Lemma degree_sums_witness :
  total_in diamond = 5 /\ total_out diamond = 5.
Proof. exact (degree_sums diamond_ops diamond eq_refl). Defined.

Lemma has_cycle_decides_witness :
  exists b : bool,
    (forall fuel, node_count diamond < fuel -> has_cycle_fuel fuel diamond = Some b)
    /\ (b = true <-> cyclic diamond).
Proof. exact (has_cycle_decides diamond_ops diamond eq_refl). Defined.

End GraphFacts.

(* ===================================================================== *)
(** * The string-keyed graph and the order of locked packages
      ([graph.hpp], [resolver.cpp]) *)
(* ===================================================================== *)

Module GraphMap.

Import Graph Kahn GraphFacts.
Local Open Scope list_scope.
Local Open Scope nat_scope.

(** [GraphMap<>]: the edge data is [std::monostate]. *)
Record t : Type := mk {
  graph_ : Graph.t string unit;
  name_to_id_ : gmap string nat
}.

Definition empty : t := mk Graph.empty ∅.

Definition add_node (m : t) (name : string) : t * nat :=
  match name_to_id_ m !! name with
  | Some id => (m, id)
  | None =>
      let '(g, id) := Graph.add_node (graph_ m) name in
      (mk g (<[name := id]> (name_to_id_ m)), id)
  end.

Definition has_node (m : t) (name : string) : bool :=
  bool_decide (is_Some (name_to_id_ m !! name)).

(** [name_to_id_.at(name)] throws for a name that is not there. *)
Definition node_id (m : t) (name : string) : option nat := name_to_id_ m !! name.

Definition add_edge (m : t) (from to : string) : t :=
  let '(m1, f) := add_node m from in
  let '(m2, v) := add_node m1 to in
  mk (Graph.add_edge (graph_ m2) f v tt) (name_to_id_ m2).

Definition node_count (m : t) : nat := Graph.node_count (graph_ m).

(** [graph_.node(id)] for the ids of the order; the access is unchecked,
    and an id out of range, which the sort never returns, reads as the
    empty name here. *)
Definition name_of (m : t) (id : nat) : string :=
  default EmptyString (node (graph_ m) id).

Definition topological_sort_fuel (fuel : nat) (m : t) : option (Result (list string)) :=
  match Graph.topological_sort_fuel fuel (graph_ m) with
  | None => None
  | Some (Err e) => Some (Err e)
  | Some (Ok ids) => Some (Ok (map (name_of m) ids))
  end.

(** The calls that build a [GraphMap]. *)
Inductive op : Type :=
  | AddNode (name : string)
  | AddEdge (from to : string).

Definition apply_op (m : t) (o : op) : t :=
  match o with
  | AddNode name => fst (add_node m name)
  | AddEdge a b => add_edge m a b
  end.

Definition build (ops : list op) : t := fold_left apply_op ops empty.

(** The names and the edges the calls mention. *)
Definition op_names (o : op) : list string :=
  match o with
  | AddNode name => [name]
  | AddEdge a b => [a; b]
  end.

Definition op_edges (o : op) : list (string * string) :=
  match o with
  | AddNode _ => []
  | AddEdge a b => [(a, b)]
  end.

Definition names (ops : list op) : list string := concat (map op_names ops).
Definition edges (ops : list op) : list (string * string) := concat (map op_edges ops).

(** A walk of at least one edge along the pairs of [E]. *)
Inductive walk (E : list (string * string)) : string -> string -> Prop :=
  | walk_edge a b : (a, b) ∈ E -> walk E a b
  | walk_step a b c : (a, b) ∈ E -> walk E b c -> walk E a c.

(** [a] stands before [b] in [l]. *)
Definition stands_before (l : list string) (a b : string) : Prop :=
  exists i j, i < j /\ l !! i = Some a /\ l !! j = Some b.

(** The state of a [GraphMap] that has seen the names [N] and the edges
    [E]. *)
Record rep (m : t) (N : list string) (E : list (string * string)) : Prop := {
  rep_wf : wf (graph_ m);
  rep_ids : forall name id,
      name_to_id_ m !! name = Some id <-> nodes_ (graph_ m) !! id = Some name;
  rep_names : forall name, is_Some (name_to_id_ m !! name) <-> name ∈ N;
  rep_edge_names : forall u v, has_edge (graph_ m) u v = true ->
      exists a b, (a, b) ∈ E /\ name_to_id_ m !! a = Some u /\ name_to_id_ m !! b = Some v;
  rep_edge_ids : forall a b, (a, b) ∈ E ->
      exists u v, name_to_id_ m !! a = Some u /\ name_to_id_ m !! b = Some v
                  /\ has_edge (graph_ m) u v = true
}.

Lemma rep_empty : rep empty [] [].
Proof.
  split; simpl.
  - apply wf_empty.
  - intros name id. rewrite lookup_empty. split; [discriminate|].
    intros H. now destruct id.
  - intros name. rewrite lookup_empty. split; [intros [x H]; discriminate|].
    intros H. inversion H.
  - intros u v H. unfold has_edge, successors in H. simpl in H.
    destruct u; discriminate.
  - intros a b H. inversion H.
Qed.

Lemma rep_weaken m N N' E E' :
  rep m N E -> (forall n, n ∈ N <-> n ∈ N') -> (forall e, e ∈ E <-> e ∈ E') -> rep m N' E'.
Proof.
  intros [H1 H2 H3 H4 H5] HN HE. split; auto.
  - intros name. rewrite H3. apply HN.
  - intros u v H. destruct (H4 u v H) as (a & b & Hab & Ha & Hb).
    exists a, b. split; [now apply HE|auto].
  - intros a b H. apply H5. now apply HE.
Qed.

Lemma has_edge_add_node (g : Graph.t string unit) d u v :
  wf g -> has_edge (fst (Graph.add_node g d)) u v = has_edge g u v.
Proof.
  intros Hwf. apply eq_true_iff_eq.
  now rewrite !has_edge_targets, targets_add_node.
Qed.

Lemma has_edge_add_edge (g : Graph.t string unit) f t u v :
  f < Graph.node_count g -> wf g ->
  has_edge (Graph.add_edge g f t tt) u v = true
  <-> has_edge g u v = true \/ (u = f /\ v = t).
Proof.
  intros Hf Hwf. rewrite !has_edge_targets, targets_add_edge by assumption.
  destruct (decide (u = f)) as [->|Hne].
  - rewrite elem_of_app, list_elem_of_singleton. intuition congruence.
  - intuition congruence.
Qed.

Lemma rep_id_bound m N E name id :
  rep m N E -> name_to_id_ m !! name = Some id -> id < Graph.node_count (graph_ m).
Proof.
  intros Hr H. apply (rep_ids _ _ _ Hr) in H. now apply lookup_lt_Some in H.
Qed.

(** [add_node] returns the id of the name and records the name. *)
Lemma rep_add_node m N E name :
  rep m N E ->
  rep (fst (add_node m name)) (name :: N) E
  /\ name_to_id_ (fst (add_node m name)) !! name = Some (snd (add_node m name)).
Proof.
  intros Hr. unfold add_node.
  destruct (name_to_id_ m !! name) as [id|] eqn:Ei; simpl.
  - split; [|exact Ei]. apply (rep_weaken m N _ E E Hr); [|tauto].
    intros n. rewrite elem_of_cons. split; [auto|]. intros [->|H]; [|exact H].
    apply (rep_names _ _ _ Hr). eauto.
  - pose proof Hr as [H1 H2 H3 H4 H5].
    assert (Hfresh : forall id, nodes_ (graph_ m) !! id <> Some name).
    { intros id H. apply H2 in H. congruence. }
    split; [|now rewrite lookup_insert_eq]. split; simpl.
    + apply (wf_add_node (graph_ m) name H1).
    + intros n id. destruct (decide (n = name)) as [->|Hne].
      * rewrite lookup_insert_eq. split.
        -- intros E'. injection E' as <-. now rewrite lookup_app_r, Nat.sub_diag.
        -- intros E'. f_equal.
           destruct (decide (id < length (nodes_ (graph_ m)))) as [Hlt|Hge].
           ++ rewrite lookup_app_l in E' by exact Hlt. now apply Hfresh in E'.
           ++ apply lookup_lt_Some in E'. rewrite length_app in E'. simpl in E'. lia.
      * rewrite lookup_insert_ne by congruence. rewrite H2. split.
        -- intros E'. rewrite lookup_app_l; [exact E'|]. now apply lookup_lt_Some in E'.
        -- intros E'. destruct (decide (id < length (nodes_ (graph_ m)))) as [Hlt|Hge].
           ++ now rewrite lookup_app_l in E' by exact Hlt.
           ++ rewrite lookup_app_r in E' by lia.
              destruct (id - length (nodes_ (graph_ m))) as [|k]; simpl in E';
                [congruence|now destruct k].
    + intros n. rewrite elem_of_cons. destruct (decide (n = name)) as [->|Hne].
      * rewrite lookup_insert_eq. split; eauto.
      * rewrite lookup_insert_ne by congruence. rewrite H3. intuition congruence.
    + intros u v H.
      change (has_edge (fst (Graph.add_node (graph_ m) name)) u v = true) in H.
      rewrite has_edge_add_node in H by exact H1.
      destruct (H4 u v H) as (a & b & Hab & Ha & Hb). exists a, b.
      split; [exact Hab|].
      rewrite !lookup_insert_ne by congruence. auto.
    + intros a b H. destruct (H5 a b H) as (u & v & Ha & Hb & He). exists u, v.
      rewrite !lookup_insert_ne by congruence.
      split; [exact Ha|]. split; [exact Hb|].
      change (has_edge (fst (Graph.add_node (graph_ m) name)) u v = true).
      now rewrite has_edge_add_node.
Qed.

Lemma rep_add_edge m N E a b :
  rep m N E -> rep (add_edge m a b) (b :: a :: N) ((a, b) :: E).
Proof.
  intros Hr. unfold add_edge.
  destruct (rep_add_node m N E a Hr) as [Hr1 Ha].
  destruct (add_node m a) as [m1 f]. simpl in Hr1, Ha.
  destruct (rep_add_node m1 (a :: N) E b Hr1) as [Hr2 Hb].
  assert (Ha2 : name_to_id_ (fst (add_node m1 b)) !! a = Some f).
  { unfold add_node. destruct (name_to_id_ m1 !! b) as [id|] eqn:Eb; simpl; [exact Ha|].
    rewrite lookup_insert_ne; [exact Ha|]. congruence. }
  destruct (add_node m1 b) as [m2 v]. simpl in Hr2, Hb, Ha2.
  pose proof (rep_id_bound _ _ _ _ _ Hr2 Ha2) as Hf.
  pose proof (rep_id_bound _ _ _ _ _ Hr2 Hb) as Hv.
  pose proof Hr2 as [H1 H2 H3 H4 H5].
  split; cbn [graph_ name_to_id_].
  - now apply wf_add_edge.
  - exact H2.
  - exact H3.
  - intros u w H. apply (has_edge_add_edge _ f v u w Hf H1) in H as [H|[-> ->]].
    + destruct (H4 u w H) as (x & y & Hxy & Hx & Hy). exists x, y.
      split; [now right|auto].
    + exists a, b. split; [left|auto].
  - intros x y H. apply elem_of_cons in H as [H|H].
    + injection H as -> ->. exists f, v. split; [exact Ha2|]. split; [exact Hb|].
      apply has_edge_add_edge; auto.
    + destruct (H5 x y H) as (u & w & Hx & Hy & He). exists u, w.
      split; [exact Hx|]. split; [exact Hy|]. apply has_edge_add_edge; auto.
Qed.

Lemma rep_fold (ops : list op) : forall m N E,
  rep m N E ->
  exists N' E', rep (fold_left apply_op ops m) N' E'
    /\ (forall n, n ∈ N' <-> n ∈ N \/ n ∈ names ops)
    /\ (forall e, e ∈ E' <-> e ∈ E \/ e ∈ edges ops).
Proof.
  induction ops as [|o ops IH]; intros m N E Hr.
  - exists N, E. split; [exact Hr|]. unfold names, edges. simpl.
    split; intros x; rewrite elem_of_nil; tauto.
  - cbn [fold_left]. destruct o as [name|a b]; cbn [apply_op].
    + destruct (IH _ _ _ (proj1 (rep_add_node m N E name Hr))) as (N' & E' & Hr' & HN & HE).
      exists N', E'. split; [exact Hr'|]. unfold names, edges in *. cbn [map concat op_names op_edges].
      split.
      * intros n. rewrite HN, elem_of_app, elem_of_cons, list_elem_of_singleton. tauto.
      * intros e. rewrite HE. simpl. tauto.
    + destruct (IH _ _ _ (rep_add_edge m N E a b Hr)) as (N' & E' & Hr' & HN & HE).
      exists N', E'. split; [exact Hr'|]. unfold names, edges in *. cbn [map concat op_names op_edges].
      split.
      * intros n. rewrite HN, elem_of_app, !elem_of_cons, elem_of_nil. tauto.
      * intros e. rewrite HE, elem_of_app, !elem_of_cons, elem_of_nil. tauto.
Qed.

Lemma rep_build (ops : list op) :
  rep (build ops) (names ops) (edges ops).
Proof.
  destruct (rep_fold ops empty [] [] rep_empty) as (N & E & Hr & HN & HE).
  apply (rep_weaken _ N _ E _ Hr).
  - intros n. rewrite HN, elem_of_nil. tauto.
  - intros e. rewrite HE, elem_of_nil. tauto.
Qed.

(** ** What the representation gives *)

Section Rep.
Variables (m : t) (N : list string) (E : list (string * string)).
Hypothesis Hr : rep m N E.

Lemma ids_inj a b id :
  name_to_id_ m !! a = Some id -> name_to_id_ m !! b = Some id -> a = b.
Proof.
  intros Ha Hb. apply (rep_ids _ _ _ Hr) in Ha, Hb. congruence.
Qed.

Lemma nodes_NoDup : NoDup (nodes_ (graph_ m)).
Proof.
  apply NoDup_alt. intros i j x Hi Hj.
  apply (rep_ids _ _ _ Hr) in Hi, Hj. congruence.
Qed.

Lemma nodes_names name : name ∈ nodes_ (graph_ m) <-> name ∈ N.
Proof.
  rewrite <- (rep_names _ _ _ Hr), list_elem_of_lookup. split.
  - intros [id H]. apply (rep_ids _ _ _ Hr) in H. eauto.
  - intros [id H]. apply (rep_ids _ _ _ Hr) in H. eauto.
Qed.

Lemma names_of_seq : map (name_of m) (seq 0 (Graph.node_count (graph_ m))) = nodes_ (graph_ m).
Proof.
  unfold name_of, node, Graph.node_count.
  apply list_eq. intros i. change (map ?f ?l) with (f <$> l).
  rewrite list_lookup_fmap.
  destruct (decide (i < length (nodes_ (graph_ m)))) as [Hlt|Hge].
  - rewrite lookup_seq_lt by exact Hlt. simpl.
    destruct (nodes_ (graph_ m) !! i) as [x|] eqn:Ex; [reflexivity|].
    apply lookup_ge_None_1 in Ex. lia.
  - rewrite lookup_seq_ge by lia. simpl. symmetry. apply lookup_ge_None_2. lia.
Qed.

Lemma path_walk u v :
  path (graph_ m) u v ->
  exists a b, name_to_id_ m !! a = Some u /\ name_to_id_ m !! b = Some v /\ walk E a b.
Proof.
  induction 1 as [u v H|u v w H Hp IH].
  - destruct (rep_edge_names _ _ _ Hr u v H) as (a & b & Hab & Ha & Hb).
    exists a, b. split; [exact Ha|]. split; [exact Hb|]. now apply walk_edge.
  - destruct (rep_edge_names _ _ _ Hr u v H) as (a & b & Hab & Ha & Hb).
    destruct IH as (b' & c & Hb' & Hc & Hw).
    assert (b' = b) by (eapply ids_inj; eauto). subst b'.
    exists a, c. split; [exact Ha|]. split; [exact Hc|].
    eapply walk_step; eauto.
Qed.

Lemma walk_path a b :
  walk E a b ->
  exists u v, name_to_id_ m !! a = Some u /\ name_to_id_ m !! b = Some v
              /\ path (graph_ m) u v.
Proof.
  induction 1 as [a b H|a b c H Hw IH].
  - destruct (rep_edge_ids _ _ _ Hr a b H) as (u & v & Ha & Hb & He).
    exists u, v. split; [exact Ha|]. split; [exact Hb|]. now apply path_edge.
  - destruct (rep_edge_ids _ _ _ Hr a b H) as (u & v & Ha & Hb & He).
    destruct IH as (v' & w & Hb' & Hc & Hp).
    assert (v' = v) by congruence. subst v'.
    exists u, w. split; [exact Ha|]. split; [exact Hc|].
    eapply path_step; eauto.
Qed.

Lemma cyclic_walk : cyclic (graph_ m) <-> exists a, walk E a a.
Proof.
  split.
  - intros (u & Hp). destruct (path_walk u u Hp) as (a & b & Ha & Hb & Hw).
    assert (a = b) by (eapply ids_inj; eauto). subst b. eauto.
  - intros (a & Hw). destruct (walk_path a a Hw) as (u & v & Ha & Hb & Hp).
    assert (u = v) by congruence. subst v. exists u. exact Hp.
Qed.

(** What [GraphMap::topological_sort] returns. *)
Lemma sort_rep :
  exists r : Result (list string),
    (forall fuel, node_count m < fuel -> topological_sort_fuel fuel m = Some r)
    /\ match r with
       | Ok order =>
           NoDup order
           /\ (forall name, name ∈ order <-> name ∈ N)
           /\ (forall a b, (a, b) ∈ E -> stands_before order a b)
           /\ ~ (exists a, walk E a a)
       | Err e => LoomError.code e = LoomError.Cycle /\ exists a, walk E a a
       end.
Proof.
  destruct (sort_wf (graph_ m) (rep_wf _ _ _ Hr)) as (r & Hrun & Hres).
  destruct r as [ids|e].
  - destruct Hres as (Hperm & Hbefore & Hacyc).
    exists (Ok (map (name_of m) ids)). split.
    + intros fuel Hf. unfold topological_sort_fuel. now rewrite (Hrun fuel Hf).
    + assert (Hp : map (name_of m) ids ≡ₚ nodes_ (graph_ m)).
      { rewrite <- names_of_seq. now apply Permutation_map. }
      split; [rewrite Hp; apply nodes_NoDup|].
      split; [intros name; rewrite Hp; apply nodes_names|].
      split; [|now rewrite <- cyclic_walk].
      intros a b Hab. destruct (rep_edge_ids _ _ _ Hr a b Hab) as (u & v & Ha & Hb & He).
      destruct (Hbefore u v He) as (i & j & Hij & Hi & Hj).
      exists i, j. split; [exact Hij|].
      change (map ?f ?l) with (f <$> l). rewrite !list_lookup_fmap, Hi, Hj. simpl.
      unfold name_of, node.
      apply (rep_ids _ _ _ Hr) in Ha, Hb. rewrite Ha, Hb. split; reflexivity.
  - destruct Hres as [Hc Hcyc]. exists (Err e). split.
    + intros fuel Hf. unfold topological_sort_fuel. now rewrite (Hrun fuel Hf).
    + split; [exact Hc|]. now apply cyclic_walk.
Qed.

End Rep.

(** X15. A [GraphMap] built by any calls of [add_node] and [add_edge]
    keeps names and ids in one-to-one correspondence: [node_id] of a name is
    defined exactly for the names mentioned, the node stored at that id is
    the name, no two names share an id, and the graph has one node per
    distinct name. *)
Theorem names_and_ids (ops : list op) :
  (forall name, has_node (build ops) name = true <-> name ∈ names ops)
  /\ (forall name id, node_id (build ops) name = Some id
                      <-> node (graph_ (build ops)) id = Some name)
  /\ NoDup (nodes_ (graph_ (build ops)))
  /\ nodes_ (graph_ (build ops)) ≡ₚ remove_dups (names ops).
Proof.
  pose proof (rep_build ops) as Hr. split; [|split; [|split]].
  - intros name. unfold has_node. rewrite bool_decide_eq_true.
    apply (rep_names _ _ _ Hr).
  - apply (rep_ids _ _ _ Hr).
  - apply (nodes_NoDup _ _ _ Hr).
  - apply NoDup_Permutation; [apply (nodes_NoDup _ _ _ Hr)|apply NoDup_remove_dups|].
    intros name. rewrite elem_of_remove_dups. apply (nodes_names _ _ _ Hr).
Qed.

End GraphMap.

Module LockOrder.

Import Resolver GraphMap.
Local Open Scope list_scope.
Local Open Scope nat_scope.

(** The body of the outer loop of [DependencyResolver::topological_sort]. *)
Definition add_package (graph : GraphMap.t) (pkg : LockedPackage) : GraphMap.t :=
  fold_left (fun graph dep => GraphMap.add_edge graph (lp_name pkg) dep)
            (lp_dependencies pkg)
            (fst (GraphMap.add_node graph (lp_name pkg))).

Definition lock_graph (lockfile : LockFile) : GraphMap.t :=
  fold_left add_package (packages lockfile) GraphMap.empty.

(** [DependencyResolver::topological_sort]; the sort is run with one unit
    of fuel more than the graph has nodes. *)
Definition topological_sort (lockfile : LockFile) : option (Result (list string)) :=
  let graph := lock_graph lockfile in
  GraphMap.topological_sort_fuel (S (GraphMap.node_count graph)) graph.

(** [a] is a package of the lockfile that lists [b] as a dependency. *)
Definition depends (lockfile : LockFile) (a b : string) : Prop :=
  exists pkg, pkg ∈ packages lockfile /\ lp_name pkg = a /\ b ∈ lp_dependencies pkg.

(** The calls the two loops make. *)
Definition package_ops (pkg : LockedPackage) : list GraphMap.op :=
  AddNode (lp_name pkg) :: map (AddEdge (lp_name pkg)) (lp_dependencies pkg).

Definition lock_ops (lockfile : LockFile) : list GraphMap.op :=
  concat (map package_ops (packages lockfile)).

Lemma add_package_ops (pkg : LockedPackage) (graph : GraphMap.t) :
  add_package graph pkg = fold_left apply_op (package_ops pkg) graph.
Proof.
  unfold add_package, package_ops. cbn [fold_left apply_op].
  generalize (fst (GraphMap.add_node graph (lp_name pkg))).
  induction (lp_dependencies pkg) as [|d l IH]; intros g; [reflexivity|].
  cbn [map fold_left apply_op]. apply IH.
Qed.

Lemma lock_graph_build (lockfile : LockFile) :
  lock_graph lockfile = GraphMap.build (lock_ops lockfile).
Proof.
  unfold lock_graph, GraphMap.build, lock_ops.
  generalize GraphMap.empty.
  induction (packages lockfile) as [|pkg l IH]; intros g; [reflexivity|].
  cbn [map concat fold_left]. rewrite fold_left_app, <- add_package_ops. apply IH.
Qed.

Lemma lock_edges (lockfile : LockFile) (a b : string) :
  (a, b) ∈ edges (lock_ops lockfile) <-> depends lockfile a b.
Proof.
  unfold edges, lock_ops, depends.
  induction (packages lockfile) as [|pkg l IH].
  - simpl. split; [intros H; inversion H|]. intros (p & H & _). inversion H.
  - cbn [map concat]. rewrite map_app, concat_app, elem_of_app, IH.
    assert (Hp : (a, b) ∈ concat (map op_edges (package_ops pkg))
                 <-> lp_name pkg = a /\ b ∈ lp_dependencies pkg).
    { unfold package_ops. cbn [map concat op_edges app].
      induction (lp_dependencies pkg) as [|d ds IHd].
      - simpl. split; [intros H; inversion H|]. intros [_ H]. inversion H.
      - cbn [map concat op_edges app]. rewrite !elem_of_cons, IHd.
        split.
        + intros [H|[H1 H2]]; [injection H as -> ->; auto|auto].
        + intros [H1 [->|H2]]; [left; now rewrite H1|auto]. }
    rewrite Hp. split.
    + intros [[H1 H2]|(p & Hin & H1 & H2)].
      * exists pkg. split; [left|auto].
      * exists p. split; [now right|auto].
    + intros (p & Hin & H1 & H2). apply elem_of_cons in Hin as [->|Hin]; [left; auto|].
      right. exists p. auto.
Qed.

Lemma lock_names (lockfile : LockFile) (n : string) :
  n ∈ names (lock_ops lockfile)
  <-> exists pkg, pkg ∈ packages lockfile /\ (lp_name pkg = n \/ n ∈ lp_dependencies pkg).
Proof.
  unfold names, lock_ops.
  induction (packages lockfile) as [|pkg l IH].
  - simpl. split; [intros H; inversion H|]. intros (p & H & _). inversion H.
  - cbn [map concat]. rewrite map_app, concat_app, elem_of_app, IH.
    assert (Hp : n ∈ concat (map op_names (package_ops pkg))
                 <-> lp_name pkg = n \/ n ∈ lp_dependencies pkg).
    { unfold package_ops. cbn [map concat op_names app]. rewrite elem_of_cons.
      induction (lp_dependencies pkg) as [|d ds IHd].
      - simpl. rewrite elem_of_nil. intuition congruence.
      - cbn [map concat op_names app]. rewrite !elem_of_cons.
        split.
        + intros [H|[H|[H|H]]]; [left; congruence|left; congruence|right; left; congruence|].
          destruct (proj1 IHd (or_intror H)) as [H'|H']; [left; exact H'|right; right; exact H'].
        + intros [H|[H|H]]; [left; congruence|right; right; left; congruence|].
          destruct (proj2 IHd (or_intror H)) as [H'|H']; [left; exact H'|].
          right. right. right. exact H'. }
    rewrite Hp. split.
    + intros [H|(p & Hin & H)].
      * exists pkg. split; [left|exact H].
      * exists p. split; [now right|exact H].
    + intros (p & Hin & H). apply elem_of_cons in Hin as [->|Hin]; [left; exact H|].
      right. exists p. auto.
Qed.

(** X16. [DependencyResolver::topological_sort] returns for every
    lockfile.  The edges of its graph are the pairs of a package and one of
    its listed dependencies.  The result is either the Cycle error, and then
    these pairs contain a cycle; or a list without repetition of exactly the
    package names and the names listed as dependencies, in which every
    package stands before each of its dependencies, and the pairs contain
    no cycle. *)
Theorem topological_sort_lockfile (lockfile : LockFile) :
  exists r : Result (list string),
    topological_sort lockfile = Some r
    /\ (forall a b, (a, b) ∈ edges (lock_ops lockfile) <-> depends lockfile a b)
    /\ match r with
       | Ok order =>
           NoDup order
           /\ (forall n, n ∈ order <->
                 exists pkg, pkg ∈ packages lockfile
                             /\ (lp_name pkg = n \/ n ∈ lp_dependencies pkg))
           /\ (forall a b, depends lockfile a b -> stands_before order a b)
           /\ ~ (exists a, walk (edges (lock_ops lockfile)) a a)
       | Err e =>
           LoomError.code e = LoomError.Cycle
           /\ exists a, walk (edges (lock_ops lockfile)) a a
       end.
Proof.
  unfold topological_sort. rewrite lock_graph_build.
  destruct (sort_rep _ _ _ (rep_build (lock_ops lockfile))) as (r & Hrun & Hres).
  exists r. split; [apply Hrun; lia|]. split; [apply lock_edges|].
  destruct r as [order|e]; [|exact Hres].
  destruct Hres as (Hnd & Hin & Hbefore & Hacyc).
  split; [exact Hnd|]. split; [|split; [|exact Hacyc]].
  - intros n. rewrite Hin. apply lock_names.
  - intros a b Hd. apply Hbefore. now apply lock_edges.
Qed.

(** A diamond: [top] needs [lib_a] and [lib_b], which both need [lib_c]. *)
Definition diamond_lock : LockFile :=
  mkLock "0.1.0" "root" "0.1.0"
    [ mkLocked "lib_c" "1.0.0" "git+u" "c" "v1" "k" [];
      mkLocked "lib_b" "1.0.0" "git+u" "c" "v1" "k" ["lib_c"];
      mkLocked "top" "1.0.0" "git+u" "c" "v1" "k" ["lib_a"; "lib_b"];
      mkLocked "lib_a" "1.0.0" "git+u" "c" "v1" "k" ["lib_c"] ].

Example diamond_lock_order :
  topological_sort diamond_lock = Some (Ok ["top"; "lib_a"; "lib_b"; "lib_c"]).
Proof. vm_compute. reflexivity. Qed.

Example self_dependency_rejected :
  topological_sort
    (mkLock "0.1.0" "root" "0.1.0" [mkLocked "a" "1" "git+u" "c" "r" "k" ["a"]])
  = Some (Err (error2 LoomError.Cycle "graph contains a cycle")).
Proof. vm_compute. reflexivity. Qed.

End LockOrder.

(* ===================================================================== *)
(** * Local overrides, selective update and the built lockfile
      ([local_override.hpp], [resolver.cpp]) *)
(* ===================================================================== *)

Module Overrides.

Import Resolver.
Local Open Scope list_scope.

(** [OverrideSource::Kind]. *)
Inductive Kind : Type := Path | Git.

Record OverrideSource : Type := mkOverride {
  kind : Kind;
  o_path : string;     (* Kind::Path: local directory path *)
  o_url : string;      (* Kind::Git: git URL *)
  o_branch : string;
  o_tag : string;
  o_rev : string
}.

Record LocalOverrides : Type := mkOverrides {
  overrides : gmap string OverrideSource
}.

(** What the body of the loop writes into the package it has found. *)
Definition override_package (src : OverrideSource) (target : LockedPackage)
    : LockedPackage :=
  match kind src with
  | Path =>
      mkLocked (lp_name target) (lp_version target) ("path+" ++ o_path src)%string
               EmptyString EmptyString (lp_checksum target) (lp_dependencies target)
  | Git =>
      mkLocked (lp_name target) (lp_version target) ("git+" ++ o_url src)%string
               (lp_commit target)
               (if negb (Str.empty (o_tag src)) then o_tag src
                else if negb (Str.empty (o_branch src)) then o_branch src
                else if negb (Str.empty (o_rev src)) then o_rev src
                else lp_ref target)
               (lp_checksum target) (lp_dependencies target)
  end.

(** The inner loop: the first package named [name] is the target; without
    one nothing changes. *)
Fixpoint override_first (name : string) (src : OverrideSource)
    (pkgs : list LockedPackage) : list LockedPackage :=
  match pkgs with
  | [] => []
  | pkg :: rest =>
      if String.eqb (lp_name pkg) name then override_package src pkg :: rest
      else pkg :: override_first name src rest
  end.

Definition apply_one (lockfile : LockFile) (entry : string * OverrideSource) : LockFile :=
  mkLock (loom_version lockfile) (root_name lockfile) (root_version lockfile)
         (override_first (fst entry) (snd entry) (packages lockfile)).

(** [DependencyResolver::apply_overrides]: the lockfile as it is left, and
    the status returned.  The iteration order of the [std::unordered_map]
    is unspecified; [map_to_list] fixes one. *)
Definition apply_overrides (lockfile : LockFile) (ov : LocalOverrides)
    : LockFile * Result unit :=
  (fold_left apply_one (map_to_list (overrides ov)) lockfile, Ok tt).

(** What becomes of the packages, one by one: a package is overridden when
    its name has an override and no earlier package bears the name. *)
Fixpoint overridden (m : gmap string OverrideSource) (seen : gset string)
    (pkgs : list LockedPackage) : list LockedPackage :=
  match pkgs with
  | [] => []
  | pkg :: rest =>
      (if decide (lp_name pkg ∈ seen) then pkg
       else match m !! lp_name pkg with
            | Some src => override_package src pkg
            | None => pkg
            end)
      :: overridden m ({[lp_name pkg]} ∪ seen) rest
  end.

Lemma override_package_name (src : OverrideSource) (pkg : LockedPackage) :
  lp_name (override_package src pkg) = lp_name pkg.
Proof. unfold override_package. now destruct (kind src). Qed.

Lemma override_package_twice (src : OverrideSource) (pkg : LockedPackage) :
  override_package src (override_package src pkg) = override_package src pkg.
Proof.
  unfold override_package. destruct (kind src); simpl; [reflexivity|].
  destruct (Str.empty (o_tag src)), (Str.empty (o_branch src)), (Str.empty (o_rev src));
    reflexivity.
Qed.

Lemma overridden_seen (m : gmap string OverrideSource) (n : string) (src : OverrideSource)
    (pkgs : list LockedPackage) : forall seen,
  n ∈ seen -> overridden (<[n := src]> m) seen pkgs = overridden m seen pkgs.
Proof.
  induction pkgs as [|pkg rest IH]; intros seen Hn; [reflexivity|].
  cbn [overridden]. rewrite IH by (apply elem_of_union; now right). f_equal.
  destruct (decide (lp_name pkg ∈ seen)) as [Hin|Hnin]; [reflexivity|].
  rewrite lookup_insert_ne; [reflexivity|]. intros ->. contradiction.
Qed.

Lemma overridden_first (m : gmap string OverrideSource) (n : string) (src : OverrideSource)
    (pkgs : list LockedPackage) : forall seen,
  m !! n = None -> n ∉ seen ->
  overridden m seen (override_first n src pkgs) = overridden (<[n := src]> m) seen pkgs.
Proof.
  induction pkgs as [|pkg rest IH]; intros seen Hm Hn; [reflexivity|].
  cbn [override_first]. destruct (String.eqb_spec (lp_name pkg) n) as [E|Hne].
  - cbn [overridden]. rewrite override_package_name, E.
    destruct (decide (n ∈ seen)) as [Hin|_]; [contradiction|].
    rewrite Hm, lookup_insert_eq.
    rewrite overridden_seen by (apply elem_of_union; left; now apply elem_of_singleton).
    reflexivity.
  - cbn [overridden]. rewrite lookup_insert_ne by congruence.
    rewrite IH; [reflexivity|exact Hm|].
    rewrite elem_of_union, elem_of_singleton. intros [H|H]; [congruence|contradiction].
Qed.

Lemma overridden_empty (pkgs : list LockedPackage) : forall seen,
  overridden ∅ seen pkgs = pkgs.
Proof.
  induction pkgs as [|pkg rest IH]; intros seen; [reflexivity|].
  cbn [overridden]. rewrite IH, lookup_empty. now destruct (decide (lp_name pkg ∈ seen)).
Qed.

Lemma fold_apply_one (l : list (string * OverrideSource)) : forall lockfile,
  NoDup (l.*1) ->
  packages (fold_left apply_one l lockfile)
  = overridden (list_to_map l) ∅ (packages lockfile)
  /\ loom_version (fold_left apply_one l lockfile) = loom_version lockfile
  /\ root_name (fold_left apply_one l lockfile) = root_name lockfile
  /\ root_version (fold_left apply_one l lockfile) = root_version lockfile.
Proof.
  induction l as [|[n src] l IH]; intros lockfile Hnd.
  - simpl. now rewrite overridden_empty.
  - cbn [fold_left]. apply NoDup_cons in Hnd as [Hn Hnd].
    destruct (IH (apply_one lockfile (n, src)) Hnd) as (Hp & H1 & H2 & H3).
    rewrite Hp, H1, H2, H3. cbn [apply_one packages loom_version root_name root_version
                                 fst snd list_to_map foldr].
    split; [|auto].
    apply overridden_first; [|apply not_elem_of_empty].
    now apply not_elem_of_list_to_map_1.
Qed.

Lemma apply_overrides_facts (lockfile : LockFile) (ov : LocalOverrides) :
  packages (fst (apply_overrides lockfile ov))
  = overridden (overrides ov) ∅ (packages lockfile)
  /\ loom_version (fst (apply_overrides lockfile ov)) = loom_version lockfile
  /\ root_name (fst (apply_overrides lockfile ov)) = root_name lockfile
  /\ root_version (fst (apply_overrides lockfile ov)) = root_version lockfile.
Proof.
  unfold apply_overrides. cbn [fst].
  pose proof (fold_apply_one (map_to_list (overrides ov)) lockfile
                (NoDup_fst_map_to_list _)) as H.
  now rewrite list_to_map_to_list in H.
Qed.


Lemma overridden_names (m : gmap string OverrideSource) (pkgs : list LockedPackage) :
  forall seen, map lp_name (overridden m seen pkgs) = map lp_name pkgs.
Proof.
  induction pkgs as [|pkg rest IH]; intros seen; [reflexivity|].
  cbn [overridden map]. rewrite IH. f_equal.
  destruct (decide (lp_name pkg ∈ seen)); [reflexivity|].
  destruct (m !! lp_name pkg); [apply override_package_name|reflexivity].
Qed.

Lemma overridden_twice (m : gmap string OverrideSource) (pkgs : list LockedPackage) :
  forall seen, overridden m seen (overridden m seen pkgs) = overridden m seen pkgs.
Proof.
  induction pkgs as [|pkg rest IH]; intros seen; [reflexivity|].
  cbn [overridden].
  destruct (decide (lp_name pkg ∈ seen)) as [Hin|Hnin].
  - destruct (decide (lp_name pkg ∈ seen)); [|contradiction]. now rewrite IH.
  - destruct (m !! lp_name pkg) as [src|] eqn:Em.
    + rewrite override_package_name.
      destruct (decide (lp_name pkg ∈ seen)); [contradiction|].
      now rewrite Em, override_package_twice, IH.
    + destruct (decide (lp_name pkg ∈ seen)); [contradiction|].
      now rewrite Em, IH.
Qed.

(** X18. Applying the same overrides a second time changes nothing, and
    the names of the packages, their number and their order are never
    touched. *)
Theorem apply_overrides_idempotent (lockfile : LockFile) (ov : LocalOverrides) :
  fst (apply_overrides (fst (apply_overrides lockfile ov)) ov)
  = fst (apply_overrides lockfile ov)
  /\ map lp_name (packages (fst (apply_overrides lockfile ov)))
     = map lp_name (packages lockfile).
Proof.
  destruct (apply_overrides_facts lockfile ov) as (Hp & H1 & H2 & H3).
  destruct (apply_overrides_facts (fst (apply_overrides lockfile ov)) ov)
    as (Hp' & H1' & H2' & H3').
  split.
  - destruct (fst (apply_overrides (fst (apply_overrides lockfile ov)) ov)) as [a b c d].
    destruct (fst (apply_overrides lockfile ov)) as [a' b' c' d'].
    simpl in *. subst. now rewrite overridden_twice.
  - rewrite Hp. apply overridden_names.
Qed.

End Overrides.

Module Update.

Import Resolver.
Local Open Scope list_scope.

(** [packages.erase(remove_if(..., p.name == package_name), ...)] on a copy
    of the lockfile. *)
Definition without (lock : LockFile) (package_name : string) : LockFile :=
  mkLock (loom_version lock) (root_name lock) (root_version lock)
    (List.filter (fun p => negb (String.eqb (lp_name p) package_name)) (packages lock)).

Section Update.
Context {World : Type}.

Variable resolve_deps :
  list Dependency -> option LockFile -> ResolveOptions -> string -> @Env World ->
  Result (gmap string ResolvedPackage) * @Env World.
Variable current_path : @Env World -> string.

(** [DependencyResolver::update]. *)
Definition update (m : Manifest) (existing_lock : LockFile) (package_name : string)
    (options : ResolveOptions) (env : @Env World) : Result LockFile * @Env World :=
  let env := if offline options then set_offline true env else env in
  match find existing_lock package_name with
  | None =>
      (Err (error2 LoomError.NotFound
              ("package '" ++ package_name ++ "' not found in lockfile")%string), env)
  | Some _ =>
      resolve_closure resolve_deps m (dependencies m)
        (Some (without existing_lock package_name)) options (current_path env) env
  end.

Lemma find_without (lock : LockFile) (package_name n : string) :
  find (without lock package_name) n
  = if String.eqb n package_name then None else find lock n.
Proof.
  unfold find, without. cbn [packages].
  induction (packages lock) as [|p l IH]; cbn [List.filter List.find].
  - now destruct (String.eqb n package_name).
  - destruct (String.eqb_spec (lp_name p) package_name) as [Ep|Ep]; cbn [negb].
    + rewrite IH. destruct (String.eqb_spec n package_name) as [->|Hn]; [reflexivity|].
      destruct (String.eqb_spec (lp_name p) n); [congruence|reflexivity].
    + cbn [List.find]. destruct (String.eqb_spec (lp_name p) n) as [En|En].
      * destruct (String.eqb_spec n package_name); [congruence|reflexivity].
      * exact IH.
Qed.

(** X19. [update] of a package the lockfile does not hold fails with
    NotFound without running the resolution; otherwise it is the resolution
    of the manifest's dependencies, with the options as given, against a
    hint lockfile that has lost every entry of that name and keeps the
    entry found for any other name. *)
Theorem update_forgets_package (m : Manifest) (existing_lock : LockFile)
    (package_name : string) (options : ResolveOptions) (env : @Env World) :
  match find existing_lock package_name with
  | None =>
      snd (update m existing_lock package_name options env)
      = (if offline options then set_offline true env else env)
      /\ err_code (fst (update m existing_lock package_name options env))
         = Some LoomError.NotFound
  | Some _ =>
      exists hint,
        update m existing_lock package_name options env
        = resolve_closure resolve_deps m (dependencies m) (Some hint) options
            (current_path (if offline options then set_offline true env else env))
            (if offline options then set_offline true env else env)
        /\ find hint package_name = None
        /\ forall n, n <> package_name -> find hint n = find existing_lock n
  end.
Proof.
  unfold update.
  destruct (find existing_lock package_name) as [p|]; [|split; reflexivity].
  exists (without existing_lock package_name). split; [reflexivity|]. split.
  - now rewrite find_without, String.eqb_refl.
  - intros n Hn. rewrite find_without.
    destruct (String.eqb_spec n package_name); [contradiction|reflexivity].
Qed.

End Update.

End Update.

Module BuiltLockfile.

Import Resolver StringOrder.
Local Open Scope list_scope.

Definition name_order : relation LockedPackage := sorted_by by_name.

#[export] Instance name_order_total : Total name_order.
Proof.
  intros a b. unfold name_order, sorted_by, by_name, Str.lt.
  destruct (String.ltb (lp_name b) (lp_name a)) eqn:E; [right|now left].
  now apply Str.ltb_asym.
Qed.

#[export] Instance name_order_trans : Transitive name_order.
Proof.
  intros a b c. unfold name_order, sorted_by, by_name.
  apply (StringOrder.le_trans (lp_name a) (lp_name b) (lp_name c)).
Qed.

Lemma sorted_names (l : list LockedPackage) :
  StronglySorted name_order l -> StronglySorted (sorted_by Str.lt) (map lp_name l).
Proof.
  induction 1 as [|x l Hs IH Hx]; [constructor|].
  cbn [map]. constructor; [exact IH|].
  apply Forall_forall. intros n Hn. apply list_elem_of_In, in_map_iff in Hn as (y & <- & Hy).
  rewrite Forall_forall in Hx. apply Hx. now apply list_elem_of_In.
Qed.

(** Two arrangements of the same elements with the same, distinct keys,
    position by position, are equal. *)
Lemma same_keys_eq {A K} (k : A -> K) (l1 : list A) : forall l2,
  l1 ≡ₚ l2 -> map k l1 = map k l2 -> NoDup (map k l1) -> l1 = l2.
Proof.
  induction l1 as [|x l1 IH]; intros l2 Hp Hk Hnd.
  - apply Permutation_nil_l in Hp. now subst.
  - destruct l2 as [|y l2]; [discriminate|].
    cbn [map] in Hk, Hnd. injection Hk as Hxy Hk.
    apply NoDup_cons in Hnd as [Hx Hnd].
    assert (Hin : x ∈ y :: l2) by (rewrite <- Hp; left).
    apply elem_of_cons in Hin as [->|Hin].
    + f_equal. apply IH; [|exact Hk|exact Hnd]. now apply Permutation_cons_inv in Hp.
    + exfalso. apply Hx. rewrite Hk. apply list_elem_of_In, in_map, list_elem_of_In, Hin.
Qed.

(** X20. The packages of the lockfile [build_lockfile] returns are the
    resolved packages, each converted, in ascending order of their names.
    When the names are distinct the lockfile does not depend on the order in
    which the map of resolved packages is visited: sorting any enumeration
    of it gives the same list. *)
Theorem build_lockfile_sorted (root : Manifest) (resolved : gmap string ResolvedPackage) :
  StronglySorted (fun a b => String.ltb (lp_name b) (lp_name a) = false)
                 (packages (build_lockfile root resolved))
  /\ packages (build_lockfile root resolved)
     ≡ₚ map (fun kv => to_locked (snd kv)) (map_to_list resolved)
  /\ (NoDup (map (fun kv => rp_name (snd kv)) (map_to_list resolved)) ->
      forall l, l ≡ₚ map_to_list resolved ->
        std_sort by_name (map (fun kv => to_locked (snd kv)) l)
        = packages (build_lockfile root resolved)).
Proof.
  unfold build_lockfile. cbn [packages].
  change (fmap ?f ?l) with (map f l).
  set (f := fun kv : string * ResolvedPackage => to_locked (snd kv)).
  assert (Hs : forall l, StronglySorted name_order (std_sort by_name (map f l))).
  { intros l. apply StronglySorted_merge_sort; apply _. }
  assert (Hp : forall l, std_sort by_name (map f l) ≡ₚ map f l).
  { intros l. apply merge_sort_Permutation. }
  split; [exact (Hs _)|]. split; [exact (Hp _)|].
  intros Hnd l Hl.
  assert (Hperm : std_sort by_name (map f l)
                  ≡ₚ std_sort by_name (map f (map_to_list resolved))).
  { rewrite !Hp. now apply Permutation_map. }
  apply (same_keys_eq lp_name); [exact Hperm| |].
  - apply (StronglySorted_unique (sorted_by Str.lt)).
    + apply sorted_names, Hs.
    + apply sorted_names, Hs.
    + now apply Permutation_map.
  - assert (Hn : map lp_name (std_sort by_name (map f l))
                 ≡ₚ map (fun kv => rp_name (snd kv)) (map_to_list resolved)).
    { rewrite Hp, Hl, map_map. reflexivity. }
    rewrite Hn. exact Hnd.
Qed.

End BuiltLockfile.

Module CollectedDeps.

Import Resolver.
Local Open Scope list_scope.

(** What the two loops of [resolve_workspace] keep: [dep_sources] records
    exactly the names of [all_deps], and no name is taken twice. *)
Definition tidy (st : Collected) : Prop :=
  NoDup (map name (fst st))
  /\ forall n, is_Some (snd st !! n) <-> n ∈ map name (fst st).

Lemma tidy_push (st : Collected) (d : Dependency) (k : string) :
  tidy st -> snd st !! name d = None ->
  tidy (fst st ++ [d], <[name d := k]> (snd st)).
Proof.
  intros [Hnd Hdom] Hnone. split; cbn [fst snd].
  - rewrite map_app. apply NoDup_app. split; [exact Hnd|]. split.
    + intros n Hn Hn'. cbn [map] in Hn'. apply list_elem_of_singleton in Hn'. subst n.
      apply Hdom in Hn. rewrite Hnone in Hn. now destruct Hn.
    + cbn [map]. apply NoDup_singleton.
  - intros n. rewrite map_app, elem_of_app. cbn [map]. rewrite list_elem_of_singleton.
    destruct (decide (n = name d)) as [->|Hne].
    + rewrite lookup_insert_eq. split; eauto.
    + rewrite lookup_insert_ne by congruence. rewrite Hdom. tauto.
Qed.

Lemma add_member_dep_tidy (ws : Workspace) (st st' : Collected) (dep : Dependency) :
  tidy st -> add_member_dep ws st dep = Ok st' -> tidy st'.
Proof.
  intros Ht. unfold add_member_dep.
  destruct (expand ws dep) as [d|e]; [|discriminate].
  destruct (snd st !! name d) as [old|] eqn:Eo.
  - destruct (negb (String.eqb old (source_key d))); [discriminate|].
    intros H. now injection H as <-.
  - intros H. injection H as <-. now apply tidy_push.
Qed.

Lemma fold_members_tidy (ws : Workspace) (l : list Dependency) : forall st st',
  tidy st -> fold_result (add_member_dep ws) l st = Ok st' -> tidy st'.
Proof.
  induction l as [|dep l IH]; intros st st' Ht; simpl.
  - intros H. now injection H as <-.
  - destruct (add_member_dep ws st dep) as [st1|e] eqn:E; [|discriminate].
    apply IH. eapply add_member_dep_tidy; eauto.
Qed.

Lemma fold_root_tidy (l : list Dependency) : forall st,
  tidy st -> tidy (fold_left add_root_dep l st).
Proof.
  induction l as [|dep l IH]; intros st Ht; cbn [fold_left]; [exact Ht|].
  apply IH. unfold add_root_dep.
  destruct (snd st !! name dep) eqn:E; [exact Ht|]. now apply tidy_push.
Qed.

(** X21. The dependency list [resolve_workspace] hands to the BFS core
    names every dependency once: no two of the collected dependencies bear
    the same name. *)
Theorem collected_names_distinct (ws : Workspace) :
  match collect_deps ws with
  | Ok all_deps => NoDup (map name all_deps)
  | Err e => LoomError.code e = LoomError.Dependency
  end.
Proof.
  unfold collect_deps, collect_members.
  destruct (fold_result (add_member_dep ws) (member_deps ws) ([], ∅)) as [st|e] eqn:E.
  - assert (Ht0 : tidy ([], ∅)).
    { split; [constructor|]. intros n. cbn [fst snd map]. rewrite lookup_empty, elem_of_nil.
      split; [intros [x H]; discriminate|tauto]. }
    pose proof (fold_members_tidy ws _ _ _ Ht0 E) as Ht.
    unfold collect_root. destruct (negb (is_virtual ws)); [|exact (proj1 Ht)].
    exact (proj1 (fold_root_tidy _ _ Ht)).
  - eapply fold_members_err, E.
Qed.

End CollectedDeps.

(* ===================================================================== *)
(** * Validation of a workspace ([workspace.cpp]) *)
(* ===================================================================== *)

Module WorkspaceValidate.

Import Resolver.
Local Open Scope list_scope.

(** [Manifest::is_workspace]. *)
Definition is_workspace (m : Manifest) : bool :=
  match workspace_section m with Some _ => true | None => false end.

(** A loop that returns the first error of its body. *)
Fixpoint for_each {X : Type} (body : X -> Result unit) (l : list X) : Result unit :=
  match l with
  | [] => Ok tt
  | x :: l' =>
      match body x with
      | Err e => Err e
      | Ok _ => for_each body l'
      end
  end.

(** The first loop: [names.insert(m.name).second] is false for a name
    seen before. *)
Fixpoint check_names (names : gset string) (ms : list WorkspaceMember) : Result unit :=
  match ms with
  | [] => Ok tt
  | m :: ms' =>
      if decide (member_name m ∈ names)
      then Err (error2 LoomError.Duplicate
                  ("duplicate workspace member name: " ++ member_name m)%string)
      else check_names ({[member_name m]} ∪ names) ms'
  end.

Section Validate.

(** [fs::exists(m.root_dir / "Loom.lock")]. *)
Variable has_lockfile : WorkspaceMember -> bool.

Definition check_nested (m : WorkspaceMember) : Result unit :=
  if is_workspace (manifest m)
  then Err (error2 LoomError.Manifest
              ("member '" ++ member_name m
               ++ "' is itself a workspace, nested workspaces not allowed")%string)
  else Ok tt.

Definition check_lock (m : WorkspaceMember) : Result unit :=
  if has_lockfile m
  then Err (error2 LoomError.Manifest
              ("member '" ++ member_name m ++ "' has its own Loom.lock, "
               ++ "only the workspace root should have a lockfile")%string)
  else Ok tt.

Definition check_member_flag (ws : Workspace) (m : WorkspaceMember) (dep : Dependency)
    : Result unit :=
  if member dep then
    match find_member ws (name dep) with
    | None =>
        Err (error2 LoomError.Dependency
               ("member '" ++ member_name m ++ "' depends on member '" ++ name dep
                ++ "' which is not a workspace member")%string)
    | Some _ => Ok tt
    end
  else Ok tt.

(** The body of the last loop for one dependency; without a [workspace]
    section in the root manifest a [workspace = true] dependency is passed
    over by [continue], its [member] flag unchecked. *)
Definition check_dep (ws : Workspace) (m : WorkspaceMember) (dep : Dependency)
    : Result unit :=
  if workspace dep then
    match workspace_section (root_manifest_ ws) with
    | None => Ok tt
    | Some cfg =>
        if existsb (fun wd => String.eqb (name wd) (name dep)) (ws_dependencies cfg)
        then check_member_flag ws m dep
        else Err (error2 LoomError.Dependency
                    ("member '" ++ member_name m ++ "' depends on workspace dep '"
                     ++ name dep ++ "' which is not in [workspace.dependencies]")%string)
    end
  else check_member_flag ws m dep.

(** [Workspace::validate]. *)
Definition validate (ws : Workspace) : Result unit :=
  match check_names ∅ (members_ ws) with
  | Err e => Err e
  | Ok _ =>
    match for_each check_nested (members_ ws) with
    | Err e => Err e
    | Ok _ =>
      match for_each check_lock (members_ ws) with
      | Err e => Err e
      | Ok _ =>
          for_each (fun m => for_each (check_dep ws m) (dependencies (manifest m)))
                   (members_ ws)
      end
    end
  end.

Lemma for_each_ok {X} (body : X -> Result unit) (l : list X) :
  for_each body l = Ok tt -> forall x, x ∈ l -> body x = Ok tt.
Proof.
  induction l as [|y l IH]; intros H x Hx; [inversion Hx|].
  simpl in H. destruct (body y) as [[]|e] eqn:E; [|discriminate].
  apply elem_of_cons in Hx as [->|Hx]; [exact E|now apply IH].
Qed.

Lemma check_names_ok (ms : list WorkspaceMember) : forall names,
  check_names names ms = Ok tt ->
  NoDup (map member_name ms) /\ forall m, m ∈ ms -> member_name m ∉ names.
Proof.
  induction ms as [|m ms IH]; intros names H.
  - split; [constructor|]. intros m Hm. inversion Hm.
  - simpl in H. destruct (decide (member_name m ∈ names)) as [|Hm]; [discriminate|].
    destruct (IH _ H) as [Hnd Hfresh]. split.
    + cbn [map]. apply NoDup_cons. split; [|exact Hnd].
      intros Hin. apply list_elem_of_In, in_map_iff in Hin as (m' & Hn & Hin).
      apply list_elem_of_In in Hin. apply (Hfresh m' Hin).
      rewrite Hn. apply elem_of_union. left. now apply elem_of_singleton.
    + intros m' Hm'. apply elem_of_cons in Hm' as [->|Hm']; [exact Hm|].
      intros Hin. apply (Hfresh m' Hm'). apply elem_of_union. now right.
Qed.

Lemma find_some_name (l : list Dependency) (n : string) :
  existsb (fun wd => String.eqb (name wd) n) l = true ->
  exists d, List.find (fun d => String.eqb (name d) n) l = Some d.
Proof.
  induction l as [|d l IH]; simpl; [discriminate|].
  destruct (String.eqb (name d) n); [eauto|exact IH].
Qed.

Lemma check_dep_expand (ws : Workspace) (m : WorkspaceMember) (dep : Dependency) :
  workspace_section (root_manifest_ ws) <> None ->
  check_dep ws m dep = Ok tt -> is_ok (expand ws dep) = true.
Proof.
  intros Hws. unfold check_dep, expand, resolve_workspace_dep, resolve_member_dep,
    check_member_flag.
  destruct (workspace_section (root_manifest_ ws)) as [cfg|]; [|congruence].
  destruct (workspace dep).
  - destruct (existsb _ _) eqn:Ex; [|discriminate].
    apply find_some_name in Ex as (d & ->).
    destruct (member dep); [|reflexivity].
    destruct (find_member ws (name dep)); [reflexivity|discriminate].
  - destruct (member dep); [|reflexivity].
    destruct (find_member ws (name dep)); [reflexivity|discriminate].
Qed.

(** The lookup of a member by name finds the one member of that name. *)
Lemma find_member_unique (ws : Workspace) (m : WorkspaceMember) :
  NoDup (map member_name (members_ ws)) -> m ∈ members_ ws ->
  find_member ws (member_name m) = Some m.
Proof.
  unfold find_member. induction (members_ ws) as [|x l IH]; intros Hnd Hin; [inversion Hin|].
  cbn [map] in Hnd. apply NoDup_cons in Hnd as [Hx Hnd]. cbn [List.find].
  apply elem_of_cons in Hin as [->|Hin].
  - now rewrite String.eqb_refl.
  - destruct (String.eqb_spec (member_name x) (member_name m)) as [E|_]; [|now apply IH].
    exfalso. apply Hx. rewrite E. apply list_elem_of_In, in_map, list_elem_of_In, Hin.
Qed.

(** X22. A workspace that passes [validate] has members of pairwise
    distinct names, none of them a workspace itself or with a lockfile of
    its own, so that [find_member] returns each member for its name; and
    when the root manifest has a [workspace] section, every dependency of
    every member expands, so that the collection of [resolve_workspace] can
    only fail on a conflict of sources. *)
Theorem validate_ok (ws : Workspace) :
  validate ws = Ok tt ->
  NoDup (map member_name (members_ ws))
  /\ (forall m, m ∈ members_ ws ->
        is_workspace (manifest m) = false /\ has_lockfile m = false
        /\ find_member ws (member_name m) = Some m)
  /\ (workspace_section (root_manifest_ ws) <> None ->
      (forall dep, dep ∈ member_deps ws -> is_ok (expand ws dep) = true)
      /\ forall e, collect_deps ws = Err e ->
           exists n old new, e = conflict_error n old new /\ old <> new).
Proof.
  unfold validate. intros H.
  destruct (check_names ∅ (members_ ws)) as [[]|e1] eqn:E1; [|discriminate].
  destruct (for_each check_nested (members_ ws)) as [[]|e2] eqn:E2; [|discriminate].
  destruct (for_each check_lock (members_ ws)) as [[]|e3] eqn:E3; [|discriminate].
  destruct (check_names_ok _ _ E1) as [Hnd _].
  split; [exact Hnd|]. split.
  - intros m Hm. split; [|split].
    + pose proof (for_each_ok _ _ E2 m Hm) as Hn. unfold check_nested in Hn.
      destruct (is_workspace (manifest m)); [discriminate|reflexivity].
    + pose proof (for_each_ok _ _ E3 m Hm) as Hl. unfold check_lock in Hl.
      destruct (has_lockfile m); [discriminate|reflexivity].
    + now apply find_member_unique.
  - intros Hws.
    assert (Hexp : forall dep, dep ∈ member_deps ws -> is_ok (expand ws dep) = true).
    { intros dep Hdep. unfold member_deps, members in Hdep.
      apply list_elem_of_In, in_concat in Hdep as (l & Hl & Hdep).
      apply in_map_iff in Hl as (m & <- & Hm).
      apply list_elem_of_In in Hm, Hdep.
      pose proof (for_each_ok _ _ H m Hm) as Hm'. cbn beta in Hm'.
      pose proof (for_each_ok _ _ Hm' dep Hdep) as Hd.
      now apply (check_dep_expand ws m). }
    split; [exact Hexp|].
    intros e. unfold collect_deps, collect_members.
    assert (Hfold : forall l st,
              (forall dep, dep ∈ l -> is_ok (expand ws dep) = true) ->
              fold_result (add_member_dep ws) l st = Err e ->
              exists n old new, e = conflict_error n old new /\ old <> new).
    { induction l as [|dep l IH]; intros st Hall; simpl; [discriminate|].
      destruct (add_member_dep ws st dep) as [st1|e'] eqn:Ea.
      - apply IH. intros d Hd. apply Hall. now right.
      - intros He. injection He as <-. unfold add_member_dep in Ea.
        pose proof (Hall dep ltac:(left)) as Hok.
        destruct (expand ws dep) as [d|e0]; [|discriminate].
        destruct (snd st !! name d) as [old|]; [|discriminate].
        destruct (String.eqb_spec old (source_key d)) as [|Hne]; [discriminate|].
        simpl in Ea. injection Ea as <-. eauto. }
    destruct (fold_result (add_member_dep ws) (member_deps ws) ([], ∅)) as [st|e'] eqn:E;
      [discriminate|].
    intros He. injection He as ->. exact (Hfold _ _ Hexp E).
Qed.

End Validate.

(** Two members that share common cells through the workspace table. *)
Definition shared_ws : Workspace :=
  mkWorkspaceRec
    (mkManifest (mkPackage EmptyString EmptyString) []
       (Some (mkWorkspaceConfig [cells "https://a.example/cells.git"])))
    "/ws"
    [member_with "spi" [mkDep "common_cells" None None true false];
     member_with "uart" [mkDep "common_cells" None None true false;
                         mkDep "spi" None None false true]].

Lemma validate_ok_witness :
  NoDup (map member_name (members_ shared_ws))
  /\ (forall m, m ∈ members_ shared_ws ->
        is_workspace (manifest m) = false /\ (fun _ => false) m = false
        /\ find_member shared_ws (member_name m) = Some m)
  /\ (workspace_section (root_manifest_ shared_ws) <> None ->
      (forall dep, dep ∈ member_deps shared_ws -> is_ok (expand shared_ws dep) = true)
      /\ forall e, collect_deps shared_ws = Err e ->
           exists n old new, e = conflict_error n old new /\ old <> new).
Proof. apply (validate_ok (fun _ => false) shared_ws). vm_compute. reflexivity. Defined.

End WorkspaceValidate.

(* ===================================================================== *)
(** * What the tree checksum depends on ([cache.cpp]) *)
(* ===================================================================== *)

Module ChecksumFacts.

Import CacheManager.
Local Open Scope list_scope.
Local Open Scope nat_scope.

(** The test of the first loop of [compute_checksum]. *)
Definition kept (checkout_path : string) (e : DirEntry) : bool :=
  is_regular_file e && negb (skipped (Str.drop (String.length checkout_path) (path e))).

Lemma collect_kept (checkout_path : string) (entries : list DirEntry) :
  collect checkout_path entries = map path (List.filter (kept checkout_path) entries).
Proof. reflexivity. Qed.

(** A directory holds one entry per path: opening a path reads that
    entry. *)
Lemma open_file_unique (entries : list DirEntry) (e : DirEntry) :
  NoDup (map path entries) -> e ∈ entries -> open_file entries (path e) = content e.
Proof.
  unfold open_file. induction entries as [|x l IH]; intros Hnd Hin; [inversion Hin|].
  cbn [map] in Hnd. apply NoDup_cons in Hnd as [Hx Hnd]. cbn [List.find].
  apply elem_of_cons in Hin as [->|Hin].
  - now rewrite String.eqb_refl.
  - destruct (String.eqb_spec (path x) (path e)) as [E|_]; [|now apply IH].
    exfalso. apply Hx. rewrite E. apply list_elem_of_In, in_map, list_elem_of_In, Hin.
Qed.

Lemma tree_message_ext (checkout_path : string) (entries entries' : list DirEntry)
    (file_paths : list string) :
  (forall fp, fp ∈ file_paths -> open_file entries fp = open_file entries' fp) ->
  tree_message checkout_path entries file_paths
  = tree_message checkout_path entries' file_paths.
Proof.
  induction file_paths as [|fp l IH]; intros H; [reflexivity|].
  cbn [tree_message]. rewrite (H fp) by left. rewrite IH; [reflexivity|].
  intros fp' Hfp'. apply H. now right.
Qed.

(** Listings with one entry per path whose kept entries agree up to
    order have the same checksum. *)
Lemma checksum_kept_perm (digest_hex : string -> string) (checkout_path : string)
    (entries entries' : list DirEntry) :
  NoDup (map path entries) -> NoDup (map path entries') ->
  List.filter (kept checkout_path) entries ≡ₚ List.filter (kept checkout_path) entries' ->
  compute_checksum digest_hex checkout_path (Some entries)
  = compute_checksum digest_hex checkout_path (Some entries').
Proof.
  intros Hnd Hnd' Hp. rewrite !compute_checksum_message, !collect_kept.
  assert (Hs : sort_strings (map path (List.filter (kept checkout_path) entries))
               = sort_strings (map path (List.filter (kept checkout_path) entries'))).
  { apply StringOrder.sort_strings_unique. now apply Permutation_map. }
  rewrite <- Hs. do 2 f_equal. apply tree_message_ext.
  intros fp Hfp. rewrite StringOrder.sort_strings_perm in Hfp.
  apply list_elem_of_In, in_map_iff in Hfp as (e & <- & He).
  apply list_elem_of_In in He. pose proof He as He'. rewrite Hp in He'.
  apply list_elem_of_In, filter_In in He as [He _].
  apply list_elem_of_In, filter_In in He' as [He' _].
  apply list_elem_of_In in He, He'.
  now rewrite (open_file_unique entries e Hnd He), (open_file_unique entries' e Hnd' He').
Qed.

(** ** The test in terms of the name below the checkout *)

(** The walk of [checkout_path] yields paths [checkout_path/<name>] when
    [checkout_path] is given without a slash at its end. *)
Definition inside (checkout_path : string) (e : DirEntry) : bool :=
  String.prefix (checkout_path ++ "/") (path e).

(** The name of an entry below the checkout: the text behind
    [checkout_path/]. *)
Definition name_below (checkout_path : string) (e : DirEntry) : string :=
  Str.drop (S (String.length checkout_path)) (path e).

Definition contains (needle s : string) : bool :=
  match String.index 0 needle s with Some _ => true | None => false end.

(** The names the first loop leaves out: those that begin with [.git]
    (the directory [.git], and also [.gitignore] or [.github/...]) and
    those with a component [.git] further down. *)
Definition left_out (name : string) : bool :=
  String.prefix ".git" name || contains "/.git/" name.

Definition hashed (checkout_path : string) (e : DirEntry) : bool :=
  is_regular_file e && negb (left_out (name_below checkout_path e)).

Lemma drop_inside (checkout_path : string) : forall p,
  String.prefix (checkout_path ++ "/") p = true ->
  Str.drop (String.length checkout_path) p
  = String "/" (Str.drop (S (String.length checkout_path)) p).
Proof.
  induction checkout_path as [|c cp IH]; intros [|x p]; try discriminate.
  - rewrite Numerals.append_nil_l. cbn [String.prefix String.length Str.drop].
    destruct (ascii_dec "/" x) as [<-|]; [reflexivity|discriminate].
  - rewrite append_cons. cbn [String.prefix String.length Str.drop].
    destruct (ascii_dec c x); [apply IH|discriminate].
Qed.

Lemma prefix_app_l (a b : string) : forall s,
  String.prefix (a ++ b) s = true -> String.prefix a s = true.
Proof.
  induction a as [|c a IH]; intros s; [now destruct s|].
  rewrite append_cons. destruct s as [|x s]; cbn [String.prefix]; [discriminate|].
  destruct (ascii_dec c x); [apply IH|discriminate].
Qed.

Lemma skipped_slash (name : string) : skipped (String "/" name) = left_out name.
Proof.
  unfold skipped, left_out, contains. cbn [String.index].
  change (String.prefix "/.git/" (String "/" name)) with (String.prefix ".git/" name).
  change (String.prefix "/.git" (String "/" name)) with (String.prefix ".git" name).
  destruct (String.prefix ".git/" name) eqn:E1.
  - apply (prefix_app_l ".git" "/") in E1. rewrite E1. reflexivity.
  - destruct (String.prefix ".git" name);
      destruct (String.index 0 "/.git/" name); destruct (String.index 0 "/.git" name);
      reflexivity.
Qed.

Lemma kept_hashed (checkout_path : string) (e : DirEntry) :
  inside checkout_path e = true -> kept checkout_path e = hashed checkout_path e.
Proof.
  unfold inside, kept, hashed, name_below. intros H.
  now rewrite (drop_inside _ _ H), skipped_slash.
Qed.

(** X23. For a checkout path given without a slash at its end, the
    checksum depends only on the regular files whose name below the
    checkout neither begins with [.git] nor holds [/.git/]: two listings
    with one entry per path in which these files agree up to order have
    the same checksum.  So the order of the walk, the directories, what
    lies under a [.git] directory, and top-level names such as
    [.gitignore] do not matter. *)
Theorem checksum_depends_on_hashed (digest_hex : string -> string) (checkout_path : string)
    (entries entries' : list DirEntry) :
  NoDup (map path entries) -> NoDup (map path entries') ->
  forallb (inside checkout_path) (entries ++ entries') = true ->
  List.filter (hashed checkout_path) entries ≡ₚ List.filter (hashed checkout_path) entries' ->
  compute_checksum digest_hex checkout_path (Some entries)
  = compute_checksum digest_hex checkout_path (Some entries').
Proof.
  intros Hnd Hnd' Hin Hp. apply checksum_kept_perm; [assumption|assumption|].
  rewrite forallb_app in Hin. apply andb_prop in Hin as [Hin Hin'].
  rewrite forallb_forall in Hin, Hin'.
  rewrite (List.filter_ext_in (kept checkout_path) (hashed checkout_path) entries)
    by (intros e He; apply kept_hashed, Hin, He).
  rewrite (List.filter_ext_in (kept checkout_path) (hashed checkout_path) entries')
    by (intros e He; apply kept_hashed, Hin', He).
  exact Hp.
Qed.

(** The checkout of the claim, walked in another order and without its
    git metadata and its top-level [.git*] names. *)
Definition checkout_bare : list DirEntry :=
  [ mkEntry "/co/src/a.v" true (Some "module a; endmodule");
    mkEntry "/co/src" false None ].

Lemma checksum_depends_on_hashed_witness :
  compute_checksum (fun m => m) "/co" (Some checkout)
  = compute_checksum (fun m => m) "/co" (Some checkout_bare).
Proof.
  apply checksum_depends_on_hashed.
  - vm_compute. repeat constructor; rewrite ?elem_of_cons, ?elem_of_nil;
      intros H; repeat destruct H as [H|H]; discriminate H || exact H.
  - vm_compute. repeat constructor; rewrite ?elem_of_cons, ?elem_of_nil;
      intros H; repeat destruct H as [H|H]; discriminate H || exact H.
  - vm_compute. reflexivity.
  - vm_compute. reflexivity.
Defined.

(** With a slash at the end of the checkout path the names lose their
    leading slash, and the test no longer finds a top-level [.git]: the
    file under it is hashed. *)
Example trailing_slash_hashes_git :
  compute_checksum (fun m => m) "/co/"
    (Some [ mkEntry "/co/.git" false None;
            mkEntry "/co/.git/HEAD" true (Some "ref: refs/heads/main") ])
  = Ok (".git/HEAD" ++ "ref: refs/heads/main")%string.
Proof. vm_compute. reflexivity. Qed.

End ChecksumFacts.

(* ===================================================================== *)
(** * Names of the parsed tags ([git.cpp]) *)
(* ===================================================================== *)

Module TagNames.

Import Git.
Local Open Scope list_scope.

Lemma to_remote_tag_name (entry : string * string) (t : RemoteTag) :
  to_remote_tag entry = Some t -> name t = fst entry /\ commit t = snd entry.
Proof.
  destruct entry as [n s]. unfold to_remote_tag.
  destruct (Version.parse (strip_v_prefix n)); [|discriminate].
  intros H. injection H as <-. split; reflexivity.
Qed.

Lemma omap_names (l : list (string * string)) :
  NoDup (l.*1) -> NoDup (map name (omap to_remote_tag l))
  /\ forall n, n ∈ map name (omap to_remote_tag l) -> n ∈ l.*1.
Proof.
  induction l as [|entry l IH]; intros Hnd.
  - split; [constructor|]. intros n H. inversion H.
  - cbn [fmap list_fmap] in Hnd. apply NoDup_cons in Hnd as [Hx Hnd].
    destruct (IH Hnd) as [IH1 IH2]. cbn [omap list_omap].
    destruct (to_remote_tag entry) as [t|] eqn:E.
    + apply to_remote_tag_name in E as [En _]. cbn [map]. split.
      * apply NoDup_cons. split; [|exact IH1]. rewrite En. intros H. apply Hx, IH2, H.
      * intros n Hn. apply elem_of_cons in Hn as [->|Hn].
        -- rewrite En. left.
        -- right. now apply IH2.
    + split; [exact IH1|]. intros n Hn. right. now apply IH2.
Qed.

(** X24. No tag name occurs twice in the list [parse_ls_remote_tags]
    returns, however often the name occurs in the output of
    [git ls-remote]. *)
Theorem tag_names_distinct (ls_remote_output : string) :
  match parse_ls_remote_tags ls_remote_output with
  | Ok tags => NoDup (map name tags)
  | Err _ => False
  end.
Proof.
  unfold parse_ls_remote_tags.
  set (m := collect_tag_sha (raw_tags ls_remote_output)).
  assert (Hp : map name (std_sort by_version_desc (omap to_remote_tag (map_to_list m)))
               ≡ₚ map name (omap to_remote_tag (map_to_list m))).
  { apply Permutation_map, merge_sort_Permutation. }
  rewrite Hp. apply omap_names, NoDup_fst_map_to_list.
Qed.

End TagNames.

(* ===================================================================== *)
(** * The lines of ls-remote output and the tags read from them
      ([git.cpp]) *)
(* ===================================================================== *)

Module TagLines.

Import Git Numerals StrFacts.
Local Open Scope list_scope.
Local Open Scope nat_scope.

(** A line of [git ls-remote --tags] output, in the words of the comment
    in [parse_ls_remote_tags]: ["<sha>\trefs/tags/<tagname>"] for a tag,
    ["<sha>\trefs/tags/<tagname>^{}"] for the deref line of an annotated
    tag, and anything else. *)
Inductive Line : Type :=
  | TagLine (sha name : string)
  | DerefLine (sha name : string)
  | OtherLine (text : string).

Definition line_text (l : Line) : string :=
  match l with
  | TagLine sha n => (sha ++ String tab ("refs/tags/" ++ n))%string
  | DerefLine sha n => (sha ++ String tab ("refs/tags/" ++ (n ++ "^{}")))%string
  | OtherLine t => t
  end.

(** What a line contributes: a tag line its SHA and name, a deref line
    its SHA and the name before [^{}], any other line nothing. *)
Definition read_line (l : Line) : option RawTag :=
  match l with
  | TagLine sha n => Some (mkRaw sha n false)
  | DerefLine sha n => Some (mkRaw sha n true)
  | OtherLine _ => None
  end.

Definition free_of (c : ascii) (s : string) : bool := all_chars (differs c) s.

(** The three forms are kept apart: the SHA is the text before the first
    tab, a tag line is one whose name is not some non-empty text followed
    by [^{}], and any other line is one that is not a SHA, a tab and a
    ref under [refs/tags/].  No line holds a newline. *)
Definition line_ok (l : Line) : Prop :=
  match l with
  | TagLine sha n =>
      free_of tab sha = true /\ free_of newline sha = true
      /\ free_of newline n = true
      /\ forall m, m <> EmptyString -> n <> (m ++ "^{}")%string
  | DerefLine sha n =>
      free_of tab sha = true /\ free_of newline sha = true
      /\ free_of newline n = true
      /\ n <> EmptyString
  | OtherLine t =>
      free_of newline t = true
      /\ forall sha ref, free_of tab sha = true ->
           t <> (sha ++ String tab ("refs/tags/" ++ ref))%string
  end.

Definition last_ok (last : option Line) : Prop := from_option line_ok True last.

(** The text of an output: every line of [ls] ends in a newline, and
    [last] is a final line without one. *)
Definition ls_remote_text (ls : list Line) (last : option Line) : string :=
  fold_right (fun l s => (line_text l ++ String newline s)%string)
             (from_option line_text EmptyString last) ls.

(** ** Reading lines *)

Lemma getlines_line (a r : string) : forall line started,
  free_of newline a = true ->
  getlines (a ++ String newline r) line started
  = (line ++ a)%string :: getlines r EmptyString false.
Proof.
  induction a as [|c a IH]; intros line started Ha.
  - rewrite append_nil_l. cbn [getlines]. rewrite Ascii.eqb_refl.
    now rewrite CacheManager.append_empty_r.
  - rewrite CacheManager.append_cons. cbn [getlines].
    unfold free_of in Ha. cbn [all_chars] in Ha. apply andb_prop in Ha as [Hc Ha].
    unfold differs in Hc. destruct (Ascii.eqb c newline); [discriminate|].
    rewrite (IH _ _ Ha). now rewrite CacheManager.append_assoc.
Qed.

Lemma getlines_end (a : string) : forall line started,
  free_of newline a = true ->
  getlines a line started
  = if started || negb (Str.empty a) then [(line ++ a)%string] else [].
Proof.
  induction a as [|c a IH]; intros line started Ha.
  - cbn [getlines Str.empty negb]. rewrite orb_false_r.
    now rewrite CacheManager.append_empty_r.
  - cbn [getlines Str.empty negb]. rewrite orb_true_r.
    unfold free_of in Ha. cbn [all_chars] in Ha. apply andb_prop in Ha as [Hc Ha].
    unfold differs in Hc. destruct (Ascii.eqb c newline); [discriminate|].
    rewrite (IH _ _ Ha). cbn [orb]. now rewrite CacheManager.append_assoc.
Qed.

Lemma free_of_app (c : ascii) (a b : string) :
  free_of c (a ++ b) = free_of c a && free_of c b.
Proof. apply all_chars_app. Qed.

Lemma line_text_free (l : Line) : line_ok l -> free_of newline (line_text l) = true.
Proof.
  destruct l as [sha n|sha n|t]; cbn [line_ok line_text].
  - intros (_ & Hs & Hn & _). rewrite free_of_app, Hs. unfold free_of at 1.
    cbn [all_chars andb]. change (all_chars (differs newline) ?s) with (free_of newline s).
    rewrite free_of_app, Hn. reflexivity.
  - intros (_ & Hs & Hn & _). rewrite free_of_app, Hs. unfold free_of at 1.
    cbn [all_chars andb]. change (all_chars (differs newline) ?s) with (free_of newline s).
    rewrite !free_of_app, Hn. reflexivity.
  - now intros [Ht _].
Qed.

(** The lines [std::getline] yields on the text of an output. *)
Definition text_lines (ls : list Line) (last : option Line) : list string :=
  map line_text ls
  ++ match last with
     | Some l => if Str.empty (line_text l) then [] else [line_text l]
     | None => []
     end.

Lemma getlines_text (ls : list Line) (last : option Line) :
  Forall line_ok ls -> last_ok last ->
  getlines (ls_remote_text ls last) EmptyString false = text_lines ls last.
Proof.
  intros Hls Hlast. unfold text_lines.
  induction Hls as [|l ls Hl Hls IH]; cbn [ls_remote_text fold_right map app].
  - destruct last as [l|]; cbn [from_option]; [|reflexivity].
    rewrite getlines_end by (apply line_text_free, Hlast).
    cbn [orb]. now destruct (Str.empty (line_text l)).
  - rewrite getlines_line by (apply line_text_free, Hl).
    rewrite append_nil_l. f_equal. exact IH.
Qed.

(** ** The first tab of a line *)

Lemma find_from_head_none (c : ascii) (s : string) :
  Str.find_from_head c s = None -> free_of c s = true.
Proof.
  induction s as [|x s IH]; [reflexivity|]. cbn [Str.find_from_head].
  unfold free_of. cbn [all_chars]. unfold differs at 1.
  destruct (Ascii.eqb x c); [discriminate|].
  destruct (Str.find_from_head c s); [discriminate|]. intros _. now apply IH.
Qed.

Lemma find_from_head_some (c : ascii) (s : string) : forall p,
  Str.find_from_head c s = Some p ->
  exists a r, s = (a ++ String c r)%string /\ free_of c a = true.
Proof.
  induction s as [|x s IH]; intros p; [discriminate|]. cbn [Str.find_from_head].
  destruct (Ascii.eqb_spec x c) as [->|Hne].
  - intros _. now exists EmptyString, s.
  - destruct (Str.find_from_head c s) as [k|]; [|discriminate]. intros _.
    destruct (IH k eq_refl) as (a & r & -> & Ha).
    exists (String x a), r. split; [reflexivity|].
    unfold free_of. cbn [all_chars]. unfold differs at 1.
    destruct (Ascii.eqb_spec x c); [contradiction|exact Ha].
Qed.

Lemma first_split_unique (c : ascii) (a a' r r' : string) :
  free_of c a = true -> free_of c a' = true ->
  (a ++ String c r)%string = (a' ++ String c r')%string -> a = a' /\ r = r'.
Proof.
  revert a'. induction a as [|x a IH]; intros [|x' a'] Ha Ha' E;
    rewrite ?append_nil_l, ?CacheManager.append_cons in E.
  - injection E as E. now split.
  - injection E as E1 E2. subst x'. unfold free_of in Ha'. cbn [all_chars] in Ha'.
    unfold differs at 1 in Ha'. rewrite Ascii.eqb_refl in Ha'. discriminate.
  - injection E as E1 E2. subst x. unfold free_of in Ha. cbn [all_chars] in Ha.
    unfold differs at 1 in Ha. rewrite Ascii.eqb_refl in Ha. discriminate.
  - injection E as E1 E2. subst x'.
    unfold free_of in Ha, Ha'. cbn [all_chars] in Ha, Ha'.
    apply andb_prop in Ha as [_ Ha]. apply andb_prop in Ha' as [_ Ha'].
    destruct (IH a' Ha Ha' E2) as [-> ->]. now split.
Qed.

Lemma tab_in_text (sha r : string) :
  free_of tab (sha ++ String tab r) = false.
Proof.
  rewrite free_of_app. unfold free_of at 2. cbn [all_chars]. unfold differs at 1.
  rewrite Ascii.eqb_refl. cbn [negb andb]. apply andb_false_r.
Qed.

(** ** The deref suffix *)

Lemma substring_whole (n : nat) : forall s,
  String.length s <= n -> substring 0 n s = s.
Proof.
  induction n as [|n IH]; intros [|c s] H; simpl in *; try reflexivity; [lia|].
  rewrite IH by lia. reflexivity.
Qed.

(** The test of [parse_ls_remote_tags] for the suffix. *)
Definition has_deref_suffix (tag_name : string) : bool :=
  (String.length deref_suffix <? String.length tag_name)
  && String.eqb (Str.substr tag_name
                   (String.length tag_name - String.length deref_suffix)
                   (String.length deref_suffix))
                deref_suffix.

Lemma has_deref_suffix_app (m : string) :
  m <> EmptyString ->
  has_deref_suffix (m ++ "^{}") = true
  /\ Str.substr (m ++ "^{}") 0
       (String.length (m ++ "^{}") - String.length deref_suffix) = m.
Proof.
  intros Hm. unfold has_deref_suffix, deref_suffix.
  rewrite length_append. cbn [String.length].
  replace (String.length m + 3 - 3) with (String.length m) by lia.
  split.
  - apply andb_true_intro. split.
    + apply Nat.ltb_lt. destruct m; [contradiction|]. simpl. lia.
    + apply String.eqb_eq. apply (substr_at _ "^{}" EmptyString).
      * now rewrite drop_app_length.
      * reflexivity.
  - apply substring_app_length.
Qed.

Lemma has_deref_suffix_split (n : string) :
  has_deref_suffix n = true ->
  exists m, m <> EmptyString /\ n = (m ++ "^{}")%string
            /\ Str.substr n 0 (String.length n - String.length deref_suffix) = m.
Proof.
  unfold has_deref_suffix, deref_suffix. cbn [String.length]. intros H.
  apply andb_prop in H as [Hlen Heq]. apply Nat.ltb_lt in Hlen.
  apply String.eqb_eq in Heq. unfold Str.substr in Heq.
  rewrite substring_drop in Heq.
  rewrite substring_whole in Heq by (rewrite CacheManager.length_drop; lia).
  exists (Str.substr n 0 (String.length n - 3)). split; [|split; [|reflexivity]].
  - intros E. pose proof (CacheManager.substr_drop (String.length n - 3) n) as Hn.
    rewrite E, Heq in Hn. rewrite <- Hn in Hlen. simpl in Hlen. lia.
  - rewrite <- Heq. symmetry. apply CacheManager.substr_drop.
Qed.

(** ** One line *)

Lemma parse_line_tab (sha ref : string) :
  free_of tab sha = true ->
  parse_line (sha ++ String tab ref)
  = if negb (String.eqb (Str.substr ref 0 (String.length tags_prefix)) tags_prefix)
    then None
    else
      let tag_name := Str.drop (String.length tags_prefix) ref in
      if has_deref_suffix tag_name
      then Some (mkRaw sha
                   (Str.substr tag_name 0
                      (String.length tag_name - String.length deref_suffix))
                   true)
      else Some (mkRaw sha tag_name false).
Proof.
  intros Hs. unfold parse_line.
  assert (He : Str.empty (sha ++ String tab ref) = false) by now destruct sha.
  rewrite He.
  rewrite (find_at (sha ++ String tab ref) sha ref tab 0 eq_refl Hs).
  cbn [Nat.add].
  rewrite (substr_at _ sha (String tab ref) 0 _ eq_refl eq_refl).
  pose proof (drop_past (sha ++ String tab ref) sha ref tab 0 eq_refl) as Hd.
  cbn [Nat.add] in Hd. rewrite Hd.
  reflexivity.
Qed.

Lemma prefix_test_app (n : string) :
  String.eqb (Str.substr ("refs/tags/" ++ n) 0 (String.length tags_prefix)) tags_prefix
  = true.
Proof.
  apply String.eqb_eq. unfold tags_prefix, Str.substr.
  apply (substring_app_length "refs/tags/" n).
Qed.

Lemma prefix_test_split (ref : string) :
  String.eqb (Str.substr ref 0 (String.length tags_prefix)) tags_prefix = true ->
  ref = ("refs/tags/" ++ Str.drop (String.length tags_prefix) ref)%string.
Proof.
  intros H. apply String.eqb_eq in H.
  pose proof (CacheManager.substr_drop (String.length tags_prefix) ref) as E.
  rewrite H in E. symmetry. exact E.
Qed.

Lemma drop_prefix_app (n : string) :
  Str.drop (String.length tags_prefix) ("refs/tags/" ++ n) = n.
Proof. apply (drop_app_length "refs/tags/" n). Qed.

(** The first loop reads a line as its form says. *)
Lemma parse_line_text (l : Line) : line_ok l -> parse_line (line_text l) = read_line l.
Proof.
  destruct l as [sha n|sha n|t]; cbn [line_ok line_text read_line].
  - intros (Hs & _ & _ & Hn). rewrite (parse_line_tab _ _ Hs).
    rewrite prefix_test_app, drop_prefix_app. cbn [negb]. cbv zeta.
    destruct (has_deref_suffix n) eqn:E; [|reflexivity].
    apply has_deref_suffix_split in E as (m & Hm & E & _).
    now destruct (Hn m Hm).
  - intros (Hs & _ & _ & Hn). rewrite (parse_line_tab _ _ Hs).
    rewrite prefix_test_app, drop_prefix_app. cbn [negb]. cbv zeta.
    destruct (has_deref_suffix_app n Hn) as [-> ->]. reflexivity.
  - intros [_ Ht]. destruct (Str.find_from_head tab t) as [p|] eqn:Ef.
    + apply find_from_head_some in Ef as (a & r & -> & Ha).
      rewrite (parse_line_tab a r Ha).
      destruct (String.eqb (Str.substr r 0 (String.length tags_prefix)) tags_prefix) eqn:E;
        [|reflexivity].
      apply prefix_test_split in E. exfalso.
      apply (Ht a (Str.drop (String.length tags_prefix) r) Ha). now rewrite <- E.
    + unfold parse_line, Str.find. cbn [Str.drop]. rewrite Ef.
      now destruct (Str.empty t).
Qed.

(** Every line without a newline has one of the three forms. *)
Lemma line_forms (t : string) :
  free_of newline t = true -> exists l, line_ok l /\ line_text l = t.
Proof.
  intros Hnl.
  destruct (Str.find_from_head tab t) as [p|] eqn:Ef.
  - apply find_from_head_some in Ef as (a & r & -> & Ha).
    rewrite free_of_app in Hnl. apply andb_prop in Hnl as [Hna Hnr].
    unfold free_of in Hnr. cbn [all_chars] in Hnr. apply andb_prop in Hnr as [_ Hnr].
    change (all_chars (differs newline) r) with (free_of newline r) in Hnr.
    destruct (String.eqb (Str.substr r 0 (String.length tags_prefix)) tags_prefix) eqn:E.
    + apply prefix_test_split in E.
      set (n := Str.drop (String.length tags_prefix) r) in *.
      assert (Hnn : free_of newline n = true).
      { rewrite E, free_of_app in Hnr. now apply andb_prop in Hnr as [_ Hnr]. }
      rewrite E. destruct (has_deref_suffix n) eqn:Ed.
      * apply has_deref_suffix_split in Ed as (m & Hm & En & _).
        exists (DerefLine a m). cbn [line_ok line_text]. rewrite En. split; [|reflexivity].
        rewrite En, free_of_app in Hnn. apply andb_prop in Hnn as [Hnm _]. auto.
      * exists (TagLine a n). cbn [line_ok line_text]. split; [|reflexivity].
        repeat split; try assumption.
        intros m Hm En. rewrite En in Ed.
        destruct (has_deref_suffix_app m Hm) as [Ht _]. congruence.
    + exists (OtherLine (a ++ String tab r)). cbn [line_ok line_text].
      split; [|reflexivity]. split.
      * rewrite free_of_app, Hna. unfold free_of at 1. cbn [all_chars].
        change (all_chars (differs newline) r) with (free_of newline r).
        rewrite Hnr. reflexivity.
      * intros sha ref Hsha Heq.
        apply first_split_unique in Heq as [_ Hr]; [|assumption|assumption].
        rewrite Hr, prefix_test_app in E. discriminate.
  - apply find_from_head_none in Ef. exists (OtherLine t). cbn [line_ok line_text].
    split; [|reflexivity]. split; [assumption|].
    intros sha ref _ Heq. rewrite Heq, tab_in_text in Ef. discriminate.
Qed.

(** ** The whole output *)

Lemma blank_line_ok : line_ok (OtherLine EmptyString).
Proof.
  split; [reflexivity|]. intros sha ref _. now destruct sha.
Qed.

(** Every text is the text of some lines. *)
Lemma text_exists (s : string) :
  exists ls last, Forall line_ok ls /\ last_ok last /\ s = ls_remote_text ls last.
Proof.
  induction s as [|c r (ls & last & Hls & Hlast & ->)].
  - now exists [], None.
  - destruct (Ascii.eqb_spec c newline) as [->|Hc].
    + exists (OtherLine EmptyString :: ls), last. split; [|split].
      * constructor; [exact blank_line_ok|exact Hls].
      * exact Hlast.
      * reflexivity.
    + assert (Hfree : forall t, free_of newline t = true ->
                free_of newline (String c t) = true).
      { intros t Ht. unfold free_of. cbn [all_chars]. unfold differs at 1.
        destruct (Ascii.eqb_spec c newline); [contradiction|exact Ht]. }
      destruct ls as [|l ls].
      * destruct last as [l|].
        -- destruct (line_forms (String c (line_text l))) as (l' & Hl' & El').
           { apply Hfree, line_text_free, Hlast. }
           exists [], (Some l'). cbn [ls_remote_text fold_right from_option].
           now rewrite El'.
        -- destruct (line_forms (String c EmptyString)) as (l' & Hl' & El').
           { now apply Hfree. }
           exists [], (Some l'). cbn [ls_remote_text fold_right from_option].
           now rewrite El'.
      * apply Forall_cons in Hls as [Hl Hls].
        destruct (line_forms (String c (line_text l))) as (l' & Hl' & El').
        { apply Hfree, line_text_free, Hl. }
        exists (l' :: ls), last. split; [|split].
        -- now constructor.
        -- exact Hlast.
        -- cbn [ls_remote_text fold_right]. now rewrite El'.
Qed.

(** The first loop collects what the lines contribute, in order. *)
Lemma raw_tags_text (ls : list Line) (last : option Line) :
  Forall line_ok ls -> last_ok last ->
  raw_tags (ls_remote_text ls last) = omap read_line (ls ++ option_list last).
Proof.
  intros Hls Hlast. unfold raw_tags. rewrite (getlines_text ls last Hls Hlast).
  unfold text_lines. rewrite !omap_app. f_equal.
  - induction Hls as [|l ls Hl Hls IH]; [reflexivity|].
    cbn [map omap list_omap]. rewrite (parse_line_text l Hl), IH. reflexivity.
  - destruct last as [l|]; [|reflexivity]. cbn [option_list option_rect].
    pose proof (parse_line_text l Hlast) as Hp. cbn [omap list_omap]. rewrite <- Hp.
    destruct (Str.empty (line_text l)) eqn:He; [|reflexivity].
    unfold parse_line. now rewrite He.
Qed.

Lemma strip_v (body : string) :
  strip_v_prefix (String "v" body) = body /\ strip_v_prefix (String "V" body) = body.
Proof. split; reflexivity. Qed.

Lemma strip_other (n : string) :
  Str.starts_with "v" n = false -> Str.starts_with "V" n = false ->
  strip_v_prefix n = n.
Proof.
  destruct n as [|c r]; [reflexivity|].
  unfold Str.starts_with, Str.substr, strip_v_prefix. cbn [String.length substring].
  assert (E : substring 0 0 r = EmptyString) by now destruct r.
  rewrite E. cbn [String.eqb]. intros H1 H2.
  destruct (Ascii.eqb c "v"); [discriminate H1|].
  destruct (Ascii.eqb c "V"); [discriminate H2|]. reflexivity.
Qed.

(** C8.  The text handed to [parse_ls_remote_tags] is a sequence of
    lines, each a tag line [<sha>\trefs/tags/<name>], a deref line
    [<sha>\trefs/tags/<name>^{}] or some other line, the last one
    possibly without its newline; the first loop collects the SHA and
    name of every tag line and of every deref line (without its [^{}]),
    in order, and nothing else.  [strip_v_prefix] takes one leading [v]
    or [V] off and leaves any other text alone.  [parse_ls_remote_tags]
    always succeeds; the SHA kept for a tag name is that of the last
    deref line for it, or without one that of the first line for it; the
    list holds exactly the names whose stripped text parses as a
    version, each with its kept SHA; it is in descending version order;
    and on it [resolve_version_from_tags] returns a matching tag that no
    matching tag exceeds, or a Version error when none matches. *)
Theorem parse_and_resolve_tags (ls_remote_output : string) :
  exists tags,
    parse_ls_remote_tags ls_remote_output = Ok tags
    /\ (exists ls last, Forall line_ok ls /\ last_ok last
          /\ ls_remote_output = ls_remote_text ls last)
    /\ (forall ls last, Forall line_ok ls -> last_ok last ->
          ls_remote_output = ls_remote_text ls last ->
          raw_tags ls_remote_output = omap read_line (ls ++ option_list last))
    /\ (forall body, strip_v_prefix (String "v" body) = body
                     /\ strip_v_prefix (String "V" body) = body)
    /\ (forall n, Str.starts_with "v" n = false -> Str.starts_with "V" n = false ->
          strip_v_prefix n = n)
    /\ (forall n, collect_tag_sha (raw_tags ls_remote_output) !! n
                  = kept_sha n (raw_tags ls_remote_output))
    /\ (forall t, t ∈ tags <->
          kept_sha (name t) (raw_tags ls_remote_output) = Some (commit t)
          /\ Version.parse (strip_v_prefix (name t)) = Ok (version t))
    /\ StronglySorted (fun a b => Version.ltb (version a) (version b) = false) tags
    /\ (forall req,
          match resolve_version_from_tags tags req with
          | Ok t =>
              t ∈ tags /\ VersionReq.matches req (version t) = true
              /\ forall t', t' ∈ tags -> VersionReq.matches req (version t') = true ->
                            Version.ltb (version t) (version t') = false
          | Err e =>
              LoomError.code e = LoomError.Version
              /\ forall t, t ∈ tags -> VersionReq.matches req (version t) = false
          end).
Proof.
  destruct (tags_of_raw_tags ls_remote_output) as (tags & Hp & Hkept & Hin & Hs & Hr).
  exists tags. split; [exact Hp|]. split; [apply text_exists|].
  split; [intros ls last Hls Hlast ->; now apply raw_tags_text|].
  split; [exact strip_v|]. split; [exact strip_other|].
  split; [exact Hkept|]. split; [exact Hin|]. split; [exact Hs|]. exact Hr.
Qed.

(** The lines of [sample_output]. *)
Definition sample_lines : list Line :=
  [ TagLine "aaa" "v1.0.0"; TagLine "bbb" "v1.2.0"; DerefLine "ccc" "v1.2.0";
    TagLine "ddd" "v1.2.0"; TagLine "eee" "nightly";
    OtherLine ("fff" ++ String tab "refs/heads/main");
    TagLine "ggg" "V2.0.0-rc1" ].

Example sample_output_lines :
  sample_output = ls_remote_text sample_lines None
  /\ raw_tags sample_output = omap read_line sample_lines
  /\ kept_sha "v1.2.0" (raw_tags sample_output) = Some "ccc".
Proof. repeat split; vm_compute; reflexivity. Qed.

End TagLines.

(* ===================================================================== *)
(** * The SHA-256 implementation ([sha256.cpp]) *)
(* ===================================================================== *)

(** Words are [uint32_t] values, integers below [2^32]; bytes are [uint8_t],
    as in [Ser].  The hasher keeps the bytes of [buffer_] below
    [buffer_len_] only: what lies behind them is overwritten before it is
    read. *)
Module Sha256.

Import Ser.
Local Open Scope list_scope.
Local Open Scope Z_scope.

Definition u32 (x : Z) : Z := x mod 2 ^ 32.

(** The table [K], four constants to a row as in the source. *)
Definition K : list Z :=
  [0x428a2f98; 0x71374491; 0xb5c0fbcf; 0xe9b5dba5] ++
  [0x3956c25b; 0x59f111f1; 0x923f82a4; 0xab1c5ed5] ++
  [0xd807aa98; 0x12835b01; 0x243185be; 0x550c7dc3] ++
  [0x72be5d74; 0x80deb1fe; 0x9bdc06a7; 0xc19bf174] ++
  [0xe49b69c1; 0xefbe4786; 0x0fc19dc6; 0x240ca1cc] ++
  [0x2de92c6f; 0x4a7484aa; 0x5cb0a9dc; 0x76f988da] ++
  [0x983e5152; 0xa831c66d; 0xb00327c8; 0xbf597fc7] ++
  [0xc6e00bf3; 0xd5a79147; 0x06ca6351; 0x14292967] ++
  [0x27b70a85; 0x2e1b2138; 0x4d2c6dfc; 0x53380d13] ++
  [0x650a7354; 0x766a0abb; 0x81c2c92e; 0x92722c85] ++
  [0xa2bfe8a1; 0xa81a664b; 0xc24b8b70; 0xc76c51a3] ++
  [0xd192e819; 0xd6990624; 0xf40e3585; 0x106aa070] ++
  [0x19a4c116; 0x1e376c08; 0x2748774c; 0x34b0bcb5] ++
  [0x391c0cb3; 0x4ed8aa4a; 0x5b9cca4f; 0x682e6ff3] ++
  [0x748f82ee; 0x78a5636f; 0x84c87814; 0x8cc70208] ++
  [0x90befffa; 0xa4506ceb; 0xbef9a3f7; 0xc67178f2].

Definition rotr (x n : Z) : Z :=
  Z.lor (Z.shiftr x n) (u32 (Z.shiftl x (32 - n))).

Definition ch (x y z : Z) : Z := Z.lxor (Z.land x y) (Z.land (u32 (Z.lnot x)) z).
Definition maj (x y z : Z) : Z :=
  Z.lxor (Z.lxor (Z.land x y) (Z.land x z)) (Z.land y z).

Definition big_sigma0 (x : Z) : Z := Z.lxor (Z.lxor (rotr x 2) (rotr x 13)) (rotr x 22).
Definition big_sigma1 (x : Z) : Z := Z.lxor (Z.lxor (rotr x 6) (rotr x 11)) (rotr x 25).
Definition small_sigma0 (x : Z) : Z :=
  Z.lxor (Z.lxor (rotr x 7) (rotr x 18)) (Z.shiftr x 3).
Definition small_sigma1 (x : Z) : Z :=
  Z.lxor (Z.lxor (rotr x 17) (rotr x 19)) (Z.shiftr x 10).

(** [read_be32(p)] on the four bytes at [p]. *)
Definition read_be32 (p : list ascii) : Z :=
  match p with
  | b0 :: b1 :: b2 :: b3 :: _ =>
      Z.lor (Z.lor (Z.lor (Z.shiftl (Z_of_byte b0) 24) (Z.shiftl (Z_of_byte b1) 16))
                   (Z.shiftl (Z_of_byte b2) 8))
            (Z_of_byte b3)
  | _ => 0
  end.

Definition write_be32 (v : Z) : list ascii :=
  [ byte_of_Z (Z.shiftr v 24); byte_of_Z (Z.shiftr v 16);
    byte_of_Z (Z.shiftr v 8); byte_of_Z v ].

Definition write_be64 (v : Z) : list ascii :=
  [ byte_of_Z (Z.shiftr v 56); byte_of_Z (Z.shiftr v 48);
    byte_of_Z (Z.shiftr v 40); byte_of_Z (Z.shiftr v 32);
    byte_of_Z (Z.shiftr v 24); byte_of_Z (Z.shiftr v 16);
    byte_of_Z (Z.shiftr v 8); byte_of_Z v ].

(** [std::array<uint32_t, 8>]. *)
Definition Words : Type := (Z * Z * Z * Z * Z * Z * Z * Z)%type.

Definition initial_state : Words :=
  (0x6a09e667, 0xbb67ae85, 0x3c6ef372, 0xa54ff53a,
   0x510e527f, 0x9b05688c, 0x1f83d9ab, 0x5be0cd19).

(** [W[0..15]]: the sixteen words of the block. *)
Fixpoint block_words (n : nat) (block : list ascii) : list Z :=
  match n with
  | O => []
  | S n' => read_be32 block :: block_words n' (drop 4 block)
  end.

(** [W[16..63]]: [n] more words behind those of [W]. *)
Fixpoint schedule (n : nat) (W : list Z) : list Z :=
  match n with
  | O => W
  | S n' =>
      let t := length W in
      let w i := nth (t - i) W 0 in
      schedule n' (W ++ [u32 (small_sigma1 (w 2%nat) + w 7%nat
                              + small_sigma0 (w 15%nat) + w 16%nat)])
  end.

(** One round of the compression loop. *)
Definition round (v : Words) (kw : Z * Z) : Words :=
  let '(a, b, c, d, e, f, g, h) := v in
  let T1 := u32 (h + big_sigma1 e + ch e f g + fst kw + snd kw) in
  let T2 := u32 (big_sigma0 a + maj a b c) in
  (u32 (T1 + T2), a, b, c, u32 (d + T1), e, f, g).

Definition add_words (s v : Words) : Words :=
  let '(s0, s1, s2, s3, s4, s5, s6, s7) := s in
  let '(a, b, c, d, e, f, g, h) := v in
  (u32 (s0 + a), u32 (s1 + b), u32 (s2 + c), u32 (s3 + d),
   u32 (s4 + e), u32 (s5 + f), u32 (s6 + g), u32 (s7 + h)).

(** [SHA256::process_block]. *)
Definition process_block (state : Words) (block : list ascii) : Words :=
  let W := schedule 48 (block_words 16 block) in
  add_words state (fold_left round (combine K W) state).

Record t : Type := mk {
  state_ : Words;
  total_bytes_ : Z;          (* uint64_t *)
  buffer_ : list ascii       (* the first buffer_len_ bytes of the buffer *)
}.

Definition buffer_len_ (h : t) : nat := length (buffer_ h).

(** [SHA256::SHA256()]. *)
Definition init : t := mk initial_state 0 [].

(** [while (len >= 64) { process_block(data); data += 64; len -= 64; }]:
    the state behind the loop and the bytes left. *)
Fixpoint absorb (fuel : nat) (state : Words) (data : list ascii) : Words * list ascii :=
  match fuel with
  | O => (state, data)
  | S fuel' =>
      if (64 <=? length data)%nat
      then absorb fuel' (process_block state (take 64 data)) (drop 64 data)
      else (state, data)
  end.

(** [SHA256::update(data, len)]; every turn of the loop takes 64 bytes, so
    [len] turns are more than enough. *)
Definition update (h : t) (data : list ascii) : t :=
  let total := (total_bytes_ h + Z.of_nat (length data)) mod 2 ^ 64 in
  let '(state, buffer, data) :=
    if (0 <? buffer_len_ h)%nat then
      let space := (64 - buffer_len_ h)%nat in
      let copy := if (length data <? space)%nat then length data else space in
      let buffer := buffer_ h ++ take copy data in
      let data := drop copy data in
      if (length buffer =? 64)%nat
      then (process_block (state_ h) buffer, [], data)
      else (state_ h, buffer, data)
    else (state_ h, buffer_ h, data) in
  let '(state, data) := absorb (length data) state data in
  if (0 <? length data)%nat then mk state total data else mk state total buffer.

(** [SHA256::update(const std::string&)]. *)
Definition update_string (h : t) (s : string) : t := update h (list_ascii_of_string s).

Definition digest_bytes (state : Words) : list ascii :=
  let '(s0, s1, s2, s3, s4, s5, s6, s7) := state in
  write_be32 s0 ++ write_be32 s1 ++ write_be32 s2 ++ write_be32 s3
  ++ write_be32 s4 ++ write_be32 s5 ++ write_be32 s6 ++ write_be32 s7.

Definition zero : ascii := byte_of_Z 0.

(** [SHA256::finalize]. *)
Definition finalize (h : t) : list ascii :=
  let total_bits := (total_bytes_ h * 8) mod 2 ^ 64 in
  let h := update h [byte_of_Z 128] in
  let '(state, buffer) :=
    if (56 <? buffer_len_ h)%nat
    then (process_block (state_ h)
            (buffer_ h ++ repeat zero (64 - buffer_len_ h)), [])
    else (state_ h, buffer_ h) in
  let buffer := buffer ++ repeat zero (56 - length buffer) in
  let buffer := buffer ++ write_be64 total_bits in
  digest_bytes (process_block state buffer).

Definition hex_chars : list ascii :=
  ["0"; "1"; "2"; "3"; "4"; "5"; "6"; "7"; "8"; "9"; "a"; "b"; "c"; "d"; "e"; "f"]%char.

Definition hex_char (i : Z) : ascii := nth (Z.to_nat i) hex_chars "0"%char.

(** [SHA256::bytes_to_hex]. *)
Fixpoint bytes_to_hex (bytes : list ascii) : string :=
  match bytes with
  | [] => EmptyString
  | b :: rest =>
      String (hex_char (Z.shiftr (Z_of_byte b) 4))
        (String (hex_char (Z.land (Z_of_byte b) 15)) (bytes_to_hex rest))
  end.

(** [SHA256::hash_hex]. *)
Definition hash_hex (input : string) : string :=
  bytes_to_hex (finalize (update_string init input)).

(** The test vectors of FIPS 180-4: the empty message, one block, and a
    message whose padding spills into a second block. *)
Example hash_empty :
  hash_hex EmptyString
  = "e3b0c44298fc1c149afbf4c8996fb92427ae41e4649b934ca495991b7852b855".
Proof. vm_compute. reflexivity. Qed.

Example hash_abc :
  hash_hex "abc"
  = "ba7816bf8f01cfea414140de5dae2223b00361a396177a9cb410ff61f20015ad".
Proof. vm_compute. reflexivity. Qed.

Example hash_two_blocks :
  hash_hex "abcdbcdecdefdefgefghfghighijhijkijkljklmklmnlmnomnopnopq"
  = "248d6a61d20638b8e5c026930c3e6039a33ce45964ff2167f6ecedd419db06c1".
Proof. vm_compute. reflexivity. Qed.

End Sha256.

(* --------------------------------------------------------------------- *)
(** ** Feeding in chunks, and the padding *)
(* --------------------------------------------------------------------- *)

Module Sha256Facts.

Import Ser Sha256.
Local Open Scope list_scope.
Local Open Scope nat_scope.

(** The loop of [update] with fuel to spare. *)
Definition run (state : Words) (data : list ascii) : Words * list ascii :=
  absorb (length data) state data.

Lemma absorb_enough : forall fuel fuel' state data,
  length data < 64 * S fuel -> length data < 64 * S fuel' ->
  absorb fuel state data = absorb fuel' state data.
Proof.
  induction fuel as [|fuel IH]; intros fuel' state data H H'.
  - destruct fuel' as [|fuel']; [reflexivity|]. cbn [absorb].
    destruct (Nat.leb_spec 64 (length data)); [lia|reflexivity].
  - cbn [absorb]. destruct (Nat.leb_spec 64 (length data)) as [Hge|Hlt].
    + destruct fuel' as [|fuel']; [lia|]. cbn [absorb].
      destruct (Nat.leb_spec 64 (length data)); [|lia].
      apply IH; rewrite length_drop; lia.
    + destruct fuel' as [|fuel']; [reflexivity|]. cbn [absorb].
      destruct (Nat.leb_spec 64 (length data)); [lia|reflexivity].
Qed.

Lemma run_short (state : Words) (data : list ascii) :
  length data < 64 -> run state data = (state, data).
Proof.
  intros H. unfold run. destruct (length data) as [|n] eqn:E; [reflexivity|].
  cbn [absorb]. rewrite E. destruct (Nat.leb_spec 64 (S n)); [lia|reflexivity].
Qed.

Lemma run_block (state : Words) (data : list ascii) :
  64 <= length data ->
  run state data = run (process_block state (take 64 data)) (drop 64 data).
Proof.
  intros H. unfold run. destruct (length data) as [|n] eqn:E; [lia|].
  cbn [absorb]. rewrite E. destruct (Nat.leb_spec 64 (S n)); [|lia].
  apply absorb_enough; rewrite length_drop; lia.
Qed.

(** Induction over the blocks of a text. *)
Lemma blocks_ind (P : list ascii -> Prop) :
  (forall l, length l < 64 -> P l) ->
  (forall l, 64 <= length l -> P (drop 64 l) -> P l) ->
  forall l, P l.
Proof.
  intros Hs Hb l.
  assert (H : forall n l, length l < 64 * S n -> P l).
  { induction n as [|n IH]; intros l' Hl; [apply Hs; lia|].
    destruct (Nat.lt_ge_cases (length l') 64) as [Hlt|Hge]; [now apply Hs|].
    apply Hb; [exact Hge|]. apply IH. rewrite length_drop. lia. }
  apply (H (length l)). lia.
Qed.

Lemma run_app (a b : list ascii) : forall state,
  run state (a ++ b) = run (fst (run state a)) (snd (run state a) ++ b).
Proof.
  induction a as [a Ha|a Ha IH] using blocks_ind; intros state.
  - now rewrite (run_short state a Ha).
  - rewrite (run_block state a Ha), <- IH.
    rewrite (run_block state (a ++ b)) by (rewrite length_app; lia).
    now rewrite take_app_le, drop_app_le by lia.
Qed.

Lemma run_remainder (data : list ascii) : forall state,
  length (snd (run state data)) = length data mod 64.
Proof.
  induction data as [l Hl|l Hl IH] using blocks_ind; intros state.
  - rewrite (run_short state l Hl). cbn [snd]. now rewrite Nat.mod_small.
  - rewrite (run_block state l Hl), IH, length_drop.
    replace (length l) with ((length l - 64) + 1 * 64) at 2 by lia.
    now rewrite Nat.Div0.mod_add.
Qed.

(** The class invariant: the buffer is never full between two calls. *)
Definition ready (h : t) : Prop := buffer_len_ h < 64.

(** [update] leaves the state the blocks of "buffer, then data" lead to,
    and their remainder in the buffer. *)
Lemma update_run (h : t) (data : list ascii) :
  ready h ->
  update h data
  = mk (fst (run (state_ h) (buffer_ h ++ data)))
       ((total_bytes_ h + Z.of_nat (length data)) mod 2 ^ 64)%Z
       (snd (run (state_ h) (buffer_ h ++ data))).
Proof.
  unfold ready, buffer_len_, update. intros Hr.
  destruct h as [state total buffer]. cbn [state_ total_bytes_ buffer_] in *.
  set (total' := ((total + Z.of_nat (length data)) mod 2 ^ 64)%Z).
  assert (Hstash : forall st d,
            (let '(state0, data0) := absorb (length d) st d in
             if 0 <? length data0 then mk state0 total' data0 else mk state0 total' [])
            = mk (fst (run st d)) total' (snd (run st d))).
  { intros st d. unfold run. destruct (absorb (length d) st d) as [s r]. cbn [fst snd].
    destruct r; reflexivity. }
  unfold buffer_len_. cbn [buffer_].
  destruct (Nat.ltb_spec 0 (length buffer)) as [Hpos|Hz].
  - destruct (Nat.ltb_spec (length data) (64 - length buffer)) as [Hfit|Hfill].
    + rewrite firstn_all, skipn_all.
      destruct (Nat.eqb_spec (length (buffer ++ data)) 64) as [E|_];
        [rewrite length_app in E; lia|].
      cbn [length absorb]. cbn [Nat.ltb Nat.leb].
      rewrite run_short by (rewrite length_app; lia). reflexivity.
    + destruct (Nat.eqb_spec (length (buffer ++ take (64 - length buffer) data)) 64)
        as [_|E]; [|rewrite length_app, length_take in E; lia].
      rewrite Hstash.
      rewrite (run_block state (buffer ++ data)) by (rewrite length_app; lia).
      rewrite take_app, drop_app.
      rewrite (take_ge buffer), (drop_ge buffer), app_nil_l by lia. reflexivity.
  - destruct buffer; [|simpl in Hz; lia]. cbn [app]. apply Hstash.
Qed.

Lemma update_ready (h : t) (data : list ascii) : ready h -> ready (update h data).
Proof.
  intros Hr. rewrite (update_run h data Hr). unfold ready, buffer_len_. cbn [buffer_].
  rewrite run_remainder. apply Nat.mod_upper_bound. lia.
Qed.

Lemma update_app (h : t) (a b : list ascii) :
  ready h -> update (update h a) b = update h (a ++ b).
Proof.
  intros Hr. rewrite (update_run (update h a) b (update_ready h a Hr)).
  rewrite !(update_run h _ Hr). cbn [state_ total_bytes_ buffer_].
  rewrite app_assoc, (run_app (buffer_ h ++ a) b). f_equal.
  rewrite Zplus_mod_idemp_l, length_app, Nat2Z.inj_add. f_equal. lia.
Qed.

(** X25. Feeding a hasher two chunks one after the other leaves it in the
    state in which feeding their concatenation leaves it, and the buffer
    never ends up full. *)
Theorem update_chunks (h : t) (a b : list ascii) :
  buffer_len_ h < 64 ->
  update (update h a) b = update h (a ++ b)
  /\ buffer_len_ (update h a) < 64.
Proof.
  intros Hr. split; [now apply update_app|now apply update_ready].
Qed.

Lemma update_chunks_witness :
  update (update init (list_ascii_of_string "ab")) (list_ascii_of_string "c")
  = update init (list_ascii_of_string "abc").
Proof.
  apply (proj1 (update_chunks init (list_ascii_of_string "ab") (list_ascii_of_string "c")
                  ltac:(unfold buffer_len_; simpl; lia))).
Defined.

Lemma list_ascii_app (a b : string) :
  list_ascii_of_string (a ++ b) = list_ascii_of_string a ++ list_ascii_of_string b.
Proof.
  induction a as [|c a IH]; [reflexivity|].
  rewrite CacheManager.append_cons. simpl. now rewrite IH.
Qed.

Lemma ready_init : ready init.
Proof. unfold ready, buffer_len_. simpl. lia. Qed.

Lemma fold_update_string (chunks : list string) : forall m,
  fold_left update_string chunks (update_string init m)
  = update_string init (SHA256.fed (fold_left SHA256.update chunks (SHA256.mk m))).
Proof.
  induction chunks as [|c chunks IH]; intros m; [reflexivity|].
  cbn [fold_left]. unfold SHA256.update at 2. cbn [SHA256.fed].
  rewrite <- IH. f_equal. unfold update_string.
  rewrite update_app by exact ready_init. now rewrite list_ascii_app.
Qed.

(** X26. The hasher of this development that only records the message fed
    so far is a sound stand-in for the implementation: fed any chunks one by
    one and finalized, the implementation returns what [hash_hex] returns
    for the message the chunks make up. *)
Theorem streaming_is_hash_of_message (chunks : list string) :
  bytes_to_hex (finalize (fold_left update_string chunks init))
  = SHA256.finalize_hex hash_hex (fold_left SHA256.update chunks SHA256.init).
Proof.
  assert (E : init = update_string init EmptyString) by reflexivity.
  rewrite E at 1. rewrite fold_update_string. reflexivity.
Qed.

(** The padding of FIPS 180-4, section 5.1.1: the byte [0x80], the least
    number of zero bytes that brings the length to 56 modulo 64, and the
    length of the message in bits as a 64-bit big-endian number. *)
Definition pad_zeros (len : nat) : nat := (119 - len mod 64) mod 64.

Definition pad (m : list ascii) : list ascii :=
  m ++ [byte_of_Z 128] ++ repeat zero (pad_zeros (length m))
    ++ write_be64 ((Z.of_nat (length m) * 8) mod 2 ^ 64)%Z.

Lemma pad_zeros_cases (len : nat) :
  (len mod 64 <= 55 /\ pad_zeros len = 55 - len mod 64)
  \/ (56 <= len mod 64 /\ pad_zeros len = 119 - len mod 64).
Proof.
  unfold pad_zeros. pose proof (Nat.mod_upper_bound len 64 ltac:(lia)) as Hb.
  destruct (Nat.le_gt_cases (len mod 64) 55) as [Hle|Hgt].
  - left. split; [exact Hle|].
    replace (119 - len mod 64) with ((55 - len mod 64) + 1 * 64) by lia.
    rewrite Nat.Div0.mod_add. apply Nat.mod_small. lia.
  - right. split; [lia|]. apply Nat.mod_small. lia.
Qed.

Lemma length_write_be64 (v : Z) : length (write_be64 v) = 8.
Proof. reflexivity. Qed.

(** X27. [finalize] computes the digest of the padded message: for every
    message [m], finalizing a hasher that was fed [m] gives the state
    reached from the initial state through the 64-byte blocks of [pad m],
    which is a whole number of blocks with fewer than 64 zero bytes. *)
Ltac len_lia := rewrite ?length_app, ?repeat_length; cbn [length]; lia.

Lemma run_one_block (state : Words) (l : list ascii) :
  length l = 64 -> run state l = (process_block state l, []).
Proof.
  intros H. rewrite run_block by lia.
  rewrite take_ge, drop_ge by lia. apply run_short. cbn [length]. lia.
Qed.

Lemma run_two_blocks (state : Words) (a b : list ascii) :
  length a = 64 -> length b = 64 ->
  run state (a ++ b) = (process_block (process_block state a) b, []).
Proof.
  intros Ha Hb. rewrite run_block by len_lia.
  rewrite take_app_length', drop_app_length' by lia. now apply run_one_block.
Qed.

Theorem finalize_pads (m : list ascii) :
  finalize (update init m) = digest_bytes (fst (run initial_state (pad m)))
  /\ snd (run initial_state (pad m)) = []
  /\ length (pad m) mod 64 = 0
  /\ pad_zeros (length m) < 64.
Proof.
  assert (Hz : pad_zeros (length m) < 64) by (apply Nat.mod_upper_bound; lia).
  assert (Hlen : length (pad m) mod 64 = 0).
  { unfold pad. rewrite !length_app, repeat_length, length_write_be64. cbn [length].
    pose proof (Nat.div_mod_eq (length m) 64) as Hd.
    pose proof (Nat.mod_upper_bound (length m) 64 ltac:(lia)) as Hb.
    destruct (pad_zeros_cases (length m)) as [[Hc ->]|[Hc ->]];
      set (q := length m / 64) in *; set (r := length m mod 64) in *; clearbody q r.
    - replace (length m + (1 + (55 - r + 8))) with (0 + (q + 1) * 64) by lia.
      now rewrite Nat.Div0.mod_add.
    - replace (length m + (1 + (119 - r + 8))) with (0 + (q + 2) * 64) by lia.
      now rewrite Nat.Div0.mod_add. }
  split; [|split; [|split; [exact Hlen|exact Hz]]].
  2: { apply length_zero_iff_nil. now rewrite run_remainder. }
  pose proof (update_run init m ready_init) as Hu.
  cbn [state_ total_bytes_ buffer_ init app] in Hu.
  set (st := fst (run initial_state m)) in *.
  set (r := snd (run initial_state m)) in *.
  assert (Hr : length r = length m mod 64) by apply run_remainder.
  pose proof (Nat.mod_upper_bound (length m) 64 ltac:(lia)) as Hb.
  assert (Hbits : (((0 + Z.of_nat (length m)) mod 2 ^ 64 * 8) mod 2 ^ 64
                   = (Z.of_nat (length m) * 8) mod 2 ^ 64)%Z).
  { rewrite Z.add_0_l. now rewrite Z.mul_mod_idemp_l by lia. }
  unfold pad. rewrite run_app. fold st r.
  set (len8 := write_be64 ((Z.of_nat (length m) * 8) mod 2 ^ 64)%Z).
  assert (Hl8 : length len8 = 8) by reflexivity.
  unfold finalize. rewrite Hu. cbn [total_bytes_]. rewrite Hbits. fold len8.
  assert (Hready : ready (mk st ((0 + Z.of_nat (length m)) mod 2 ^ 64)%Z r)).
  { unfold ready, buffer_len_. cbn [buffer_]. lia. }
  rewrite (update_run _ [byte_of_Z 128] Hready). cbn [state_ buffer_ buffer_len_].
  unfold buffer_len_. cbn [buffer_].
  set (x80 := byte_of_Z 128).
  destruct (pad_zeros_cases (length m)) as [[Hc ->]|[Hc ->]].
  - (* the padding fits the block under way *)
    assert (HR : run st (r ++ [x80] ++ repeat zero (55 - length m mod 64) ++ len8)
                 = (process_block st
                      (r ++ [x80] ++ repeat zero (55 - length m mod 64) ++ len8), [])).
    { apply run_one_block. len_lia. }
    rewrite HR. cbn [fst].
    rewrite (run_short st (r ++ [x80])) by len_lia. cbn [fst snd].
    destruct (Nat.ltb_spec 56 (length (r ++ [x80]))) as [Hbad|_];
      [rewrite length_app in Hbad; cbn [length] in Hbad; lia|].
    rewrite length_app. cbn [length].
    replace (56 - (length r + 1)) with (55 - length m mod 64) by lia.
    now rewrite <- !app_assoc.
  - destruct (Nat.eq_dec (length r) 63) as [E63|N63].
    + (* the byte 0x80 fills the block *)
      assert (HR : run st (r ++ [x80] ++ repeat zero (119 - length m mod 64) ++ len8)
                   = (process_block (process_block st (r ++ [x80]))
                        (repeat zero 56 ++ len8), [])).
      { replace (119 - length m mod 64) with 56 by lia.
        rewrite (app_assoc r [x80]). apply run_two_blocks; len_lia. }
      rewrite HR. cbn [fst].
      rewrite (run_one_block st (r ++ [x80])) by len_lia. cbn [fst snd length].
      cbn [Nat.ltb Nat.leb]. rewrite app_nil_l. cbn [length Nat.sub]. reflexivity.
    + (* the zero bytes run into a block of their own *)
      assert (HR : run st (r ++ [x80] ++ repeat zero (119 - length m mod 64) ++ len8)
                   = (process_block
                        (process_block st
                           ((r ++ [x80]) ++ repeat zero (64 - length (r ++ [x80]))))
                        (repeat zero 56 ++ len8), [])).
      { replace (119 - length m mod 64) with ((64 - length (r ++ [x80])) + 56)
          by len_lia.
        rewrite repeat_app.
        replace (r ++ [x80] ++ (repeat zero (64 - length (r ++ [x80]))
                   ++ repeat zero 56) ++ len8)
          with (((r ++ [x80]) ++ repeat zero (64 - length (r ++ [x80])))
                ++ (repeat zero 56 ++ len8))
          by (now rewrite <- !app_assoc).
        apply run_two_blocks; len_lia. }
      rewrite HR. cbn [fst].
      rewrite (run_short st (r ++ [x80])) by len_lia. cbn [fst snd].
      destruct (Nat.ltb_spec 56 (length (r ++ [x80]))) as [_|Hbad];
        [|rewrite length_app in Hbad; cbn [length] in Hbad; lia].
      rewrite app_nil_l. cbn [length Nat.sub]. reflexivity.
Qed.

End Sha256Facts.

(* --------------------------------------------------------------------- *)
(** ** Hashing a file, and the shape of a digest ([sha256.cpp],
       [cache.cpp]) *)
(* --------------------------------------------------------------------- *)

Module HashFile.

Import Ser Sha256 Sha256Facts.
Local Open Scope list_scope.
Local Open Scope nat_scope.

(** The read loop of [SHA256::hash_file], the one of
    [CacheManager::compute_checksum]:
    [while (in.read(buf, sizeof(buf))) ctx.update(buf, gcount);
     if (in.gcount() > 0) ctx.update(buf, gcount);] *)
Fixpoint read_loop (fuel : nat) (rest : string) (ctx : Sha256.t) : Sha256.t :=
  match fuel with
  | O => ctx
  | S fuel' =>
      if CacheManager.BUF <=? String.length rest
      then read_loop fuel' (Str.drop CacheManager.BUF rest)
             (update_string ctx (Str.substr rest 0 CacheManager.BUF))
      else if 0 <? String.length rest then update_string ctx rest else ctx
  end.

(** [SHA256::hash_file]; [None] is a file that cannot be opened. *)
Definition hash_file (file : option string) : string :=
  match file with
  | None => EmptyString
  | Some bytes => bytes_to_hex (finalize (read_loop (S (String.length bytes)) bytes init))
  end.

Lemma update_string_app (ctx : Sha256.t) (a b : string) :
  ready ctx -> update_string (update_string ctx a) b = update_string ctx (a ++ b).
Proof.
  intros Hr. unfold update_string. rewrite update_app by exact Hr.
  now rewrite list_ascii_app.
Qed.

Lemma read_loop_once : forall fuel rest m,
  String.length rest < fuel ->
  read_loop fuel rest (update_string init m) = update_string init (m ++ rest).
Proof.
  induction fuel as [|fuel IH]; intros rest m Hf; [lia|].
  cbn [read_loop]. pose proof CacheManager.BUF_pos as HB.
  destruct (Nat.leb_spec CacheManager.BUF (String.length rest)) as [Hle|Hlt].
  - rewrite update_string_app by exact ready_init.
    rewrite IH by (rewrite CacheManager.length_drop; lia).
    now rewrite CacheManager.append_assoc, CacheManager.substr_drop.
  - destruct (Nat.ltb_spec 0 (String.length rest)) as [Hpos|Hz].
    + now apply update_string_app, ready_init.
    + destruct rest; [|simpl in Hz; lia]. now rewrite CacheManager.append_empty_r.
Qed.

(** X28. [hash_file] feeds every byte of the file once, whatever the
    size of the file and of the read buffer: the result is [hash_hex] of the
    content; a file that cannot be opened gives the empty string. *)
Theorem hash_file_is_hash_of_content (bytes : string) :
  hash_file (Some bytes) = hash_hex bytes /\ hash_file None = EmptyString.
Proof.
  split; [|reflexivity]. unfold hash_file, hash_hex.
  assert (E : init = update_string init EmptyString) by reflexivity.
  rewrite E at 1. rewrite read_loop_once by lia. reflexivity.
Qed.

(** A lowercase hexadecimal digit. *)
Definition is_hex (c : ascii) : bool := existsb (Ascii.eqb c) hex_chars.

Lemma hex_of_byte (b : ascii) :
  is_hex (hex_char (Z.shiftr (Z_of_byte b) 4)) = true
  /\ is_hex (hex_char (Z.land (Z_of_byte b) 15)) = true.
Proof. destruct b as [[] [] [] [] [] [] [] []]; split; reflexivity. Qed.

Lemma bytes_to_hex_shape (bytes : list ascii) :
  String.length (bytes_to_hex bytes) = 2 * length bytes
  /\ Numerals.all_chars is_hex (bytes_to_hex bytes) = true.
Proof.
  induction bytes as [|b l [IH1 IH2]]; [split; reflexivity|].
  cbn [bytes_to_hex String.length Numerals.all_chars length].
  destruct (hex_of_byte b) as [H1 H2]. rewrite H1, H2, IH1, IH2.
  split; [lia|reflexivity].
Qed.

Lemma digest_bytes_length (w : Words) : length (digest_bytes w) = 32.
Proof. destruct w as [[[[[[[a b] c] d] e] f] g] i]. reflexivity. Qed.

Lemma finalize_length (h : Sha256.t) : length (finalize h) = 32.
Proof.
  unfold finalize. cbv zeta.
  destruct (if (56 <? buffer_len_ (update h [byte_of_Z 128])) then _ else _) as [s b].
  apply digest_bytes_length.
Qed.

(** [CacheManager::cache_dir_name]. *)
Definition cache_dir_name (pkg_name url : string) : string :=
  let hash := hash_hex url in
  (pkg_name ++ "-" ++ Str.substr hash 0 16)%string.

Lemma substring_prefix_shape (p : ascii -> bool) (n : nat) : forall s,
  n <= String.length s -> Numerals.all_chars p s = true ->
  String.length (substring 0 n s) = n /\ Numerals.all_chars p (substring 0 n s) = true.
Proof.
  induction n as [|n IH]; intros s Hn Hp.
  - destruct s; split; reflexivity.
  - destruct s as [|c s]; [simpl in Hn; lia|]. simpl in Hn, Hp.
    apply andb_prop in Hp as [Hc Hs].
    destruct (IH s ltac:(lia) Hs) as [H1 H2].
    cbn [substring String.length Numerals.all_chars]. now rewrite H1, Hc, H2.
Qed.

(** X29. A digest in hexadecimal is 64 lowercase hexadecimal digits, for
    every hasher; so the directory name of a cached repository is the
    package name, a dash and 16 of those digits. *)
Theorem digest_shape (h : Sha256.t) (pkg_name url : string) :
  String.length (bytes_to_hex (finalize h)) = 64
  /\ Numerals.all_chars is_hex (bytes_to_hex (finalize h)) = true
  /\ exists tail,
       cache_dir_name pkg_name url = (pkg_name ++ "-" ++ tail)%string
       /\ String.length tail = 16
       /\ Numerals.all_chars is_hex tail = true.
Proof.
  assert (Hshape : forall h', String.length (bytes_to_hex (finalize h')) = 64
                   /\ Numerals.all_chars is_hex (bytes_to_hex (finalize h')) = true).
  { intros h'. destruct (bytes_to_hex_shape (finalize h')) as [H1 H2].
    rewrite finalize_length in H1. split; [exact H1|exact H2]. }
  destruct (Hshape h) as [H1 H2]. split; [exact H1|]. split; [exact H2|].
  exists (Str.substr (hash_hex url) 0 16). split; [reflexivity|].
  unfold hash_hex, Str.substr.
  destruct (Hshape (update_string init url)) as [H3 H4].
  apply (substring_prefix_shape is_hex 16); [lia|exact H4].
Qed.

End HashFile.
